(** * Address-space and location allocation of the LiteX SoC builder

    A shallow embedding of [litex/soc/integration/soc.py]: the region
    records, the bus handler's region tables with their overlap and
    containment checks, the first-fit region allocator, the address decoder
    and the generic location (CSR / IRQ slot) handler.

    Python integers are unbounded, so addresses, sizes and slot numbers are
    [Z].  A Python [dict] keeps insertion order and the code iterates over
    it, so a table is an association list in insertion order. *)

From Stdlib Require Import ZArith List String Bool Lia DecimalString.
From Stdlib Require Import Sorted Permutation.
Import ListNotations.
Local Open Scope Z_scope.

(** ** Exceptions

    The source reports a failure by logging a message and executing a bare
    [raise].  Each constructor below stands for one such site and is named
    after the failure it reports.  [TypeError], [KeyError], [AttributeError]
    and [ValueError] are the built-in exceptions that the interpreter raises
    on its own inside the modelled code. *)

Inductive region_class : Type :=
| PlainRegion    (* SoCRegion itself *)
| IORegion       (* class SoCIORegion(SoCRegion) *)
| LinkerRegion.  (* class SoCLinkerRegion(SoCRegion) *)

Inductive error : Type :=
| UnsupportedConfiguration (field : string)
| DuplicateRegionName (c : region_class) (name : string)
| RegionOverlap (c : region_class) (n0 n1 : string)
| UncachedRegionOutsideIO (name : string)
| InsufficientAddressSpace
| UnalignedDecoderRegion
| DuplicateMasterName (name : string)
| DuplicateSlaveName (name : string)
| MissingNameOrRegion
| UnknownRegionName (name : string)
| DuplicateLocationName (name : string)
| DuplicateLocationNumber (n : Z)
| LocationOutOfRange (n : Z)
| CapacityExhausted
| TypeError
| KeyError (key : string)
| AttributeError (attr : string)
| ValueError
| ScanBoundReached. (* never raised by the source: the iteration bound of
                       the model of the allocator's [while] loop *)

(** A pure computation that may raise. *)
Inductive result (A : Type) : Type :=
| Ok (a : A)
| Err (e : error).
Arguments Ok {A} a.
Arguments Err {A} e.

(** A method call on an object of state [S]: it either returns, or raises;
    in both cases the object is left in some state, because an assignment
    made before a [raise] is not undone. *)
Inductive outcome (S A : Type) : Type :=
| Done (a : A) (s : S)
| Raised (e : error) (s : S).
Arguments Done {S A} a s.
Arguments Raised {S A} e s.

Definition M (S A : Type) : Type := S -> outcome S A.

Definition ret {S A} (a : A) : M S A := fun s => Done a s.
Definition raise {S A} (e : error) : M S A := fun s => Raised e s.
Definition bind {S A B} (m : M S A) (k : A -> M S B) : M S B :=
  fun s => match m s with
           | Done a s' => k a s'
           | Raised e s' => Raised e s'
           end.
Definition get {S} : M S S := fun s => Done s s.
Definition modify {S} (f : S -> S) : M S unit := fun s => Done tt (f s).
Definition lift {S A} (r : result A) : M S A :=
  fun s => match r with
           | Ok a => Done a s
           | Err e => Raised e s
           end.

Declare Scope method_scope.
Delimit Scope method_scope with method.
Notation "x <- m ;; k" := (bind m (fun x => k))
  (at level 61, m at next level, right associativity) : method_scope.
Notation "m ;; k" := (bind m (fun _ => k))
  (at level 61, right associativity) : method_scope.

Definition rbind {A B} (r : result A) (k : A -> result B) : result B :=
  match r with
  | Ok a => k a
  | Err e => Err e
  end.

(** ** Dictionaries *)

Definition dict (V : Type) : Type := list (string * V).

Definition keys {V} (d : dict V) : list string := map fst d.
Definition values {V} (d : dict V) : list V := map snd d.

(** [d.get(k, None)] *)
Fixpoint dict_get {V} (k : string) (d : dict V) : option V :=
  match d with
  | [] => None
  | (k', v) :: d' => if String.eqb k k' then Some v else dict_get k d'
  end.

(** [k in d.keys()] *)
Definition dict_mem {V} (k : string) (d : dict V) : bool :=
  match dict_get k d with
  | Some _ => true
  | None => false
  end.

(** [d[k] = v]: an existing key keeps its position, a new key goes last. *)
Fixpoint dict_set {V} (k : string) (v : V) (d : dict V) : dict V :=
  match d with
  | [] => [(k, v)]
  | (k', v') :: d' =>
      if String.eqb k k' then (k, v) :: d' else (k', v') :: dict_set k v d'
  end.

(** ["prefix{:d}".format(n)] *)
Definition numbered (prefix : string) (n : nat) : string :=
  (prefix ++ NilEmpty.string_of_uint (Nat.to_uint n))%string.

(** ** Helpers of the hardware description library

    [log2_int], signal slicing and signal comparison come from migen, the
    library the source imports with [from migen import *]. *)

(** [int.bit_length] *)
Definition bit_length (n : Z) : Z :=
  if n =? 0 then 0 else Z.log2 (Z.abs n) + 1.

(** migen: [log2_int(n, need_pow2=True)] is [0] at [0], otherwise
    [r = (n - 1).bit_length()], with a [ValueError] when a power of two is
    required and [1 << r != n]. *)
Definition log2_int (n : Z) (need_pow2 : bool) : result Z :=
  if n =? 0 then Ok 0
  else
    let r := bit_length (n - 1) in
    if need_pow2 && negb (Z.shiftl 1 r =? n) then Err ValueError else Ok r.

(** An address signal: its width in bits and the value it carries. *)
Record Signal : Type := mkSignal { nbits : Z; value : Z }.

(** [a[start:-1]] for [0 <= start]: Python resolves the slice against
    [len(a)], so it runs from bit [start] up to, but not including, the
    most significant bit of [a]; an empty slice reads as [0]. *)
Definition slice_below_msb (a : Signal) (start : Z) : Z :=
  let len := nbits a in
  let lo := Z.min start len in
  let hi := Z.max (len - 1) 0 in
  Z.land (Z.shiftr (value a) lo) (Z.ones (Z.max 0 (hi - lo))).

(** ** SoCRegion *)

Module SoCRegion.

Record t : Type := mk {
  cls    : region_class;
  origin : option Z;      (* [None]: to be allocated *)
  size   : Z;
  mode   : string;
  cached : bool
}.

Definition is_linker (r : t) : bool :=
  match cls r with
  | LinkerRegion => true
  | _ => false
  end.

(** [SoCRegion.decoder]: the returned predicate is the [lambda a: ...];
    it evaluates [log2_int(size)] each time it is applied. *)
Definition decoder (self : t) : result (Signal -> result bool) :=
  match origin self with
  | None => Err TypeError
  | Some origin =>
      let origin := Z.land origin (Z.lnot 0x80000000) in
      rbind (log2_int (size self) false) (fun k =>
      let size := 2 ^ k in
      if negb (Z.land origin (size - 1) =? 0) then Err UnalignedDecoderRegion
      else
        let origin := Z.shiftr origin 2 in
        let size := Z.shiftr size 2 in
        Ok (fun a =>
              rbind (log2_int size true) (fun k' =>
              Ok (slice_below_msb a k' =? Z.shiftr origin k'))))
  end.

End SoCRegion.

(** The word address of a byte address on a bus whose word address is
    [w] bits wide. *)
Definition word_address (w : Z) (byte_address : Z) : Signal :=
  mkSignal w (Z.shiftr byte_address 2).

(** The decoder of a region applied to the word address of a byte address,
    on the 32-bit bus (the only supported address width), whose word
    address has 30 bits. *)
Definition decoder_at (region : SoCRegion.t) (byte_address : Z) : result bool :=
  rbind (SoCRegion.decoder region)
        (fun claims => claims (word_address 30 byte_address)).

(** ** SoCBusHandler *)

(** A bus interface as the handler sees it: only its data width is read.
    [Adapted] is the [wishbone.Interface] that [add_adapter] creates in
    front of an interface of another width. *)
Inductive Interface : Type :=
| Native (ident : string) (width : Z)
| Adapted (inner : Interface) (width : Z).

Definition interface_data_width (i : Interface) : Z :=
  match i with
  | Native _ w => w
  | Adapted _ w => w
  end.

Module SoCBusHandler.

(** The attributes of the handler that its methods read or write; the
    [timeout] and the logger play no part in them. *)
Record t : Type := mk {
  standard      : string;
  data_width    : Z;
  address_width : Z;
  masters       : dict Interface;
  slaves        : dict Interface;
  regions       : dict SoCRegion.t;
  io_regions    : dict SoCRegion.t;
  ld_regions    : dict SoCRegion.t;
  converters    : list (Interface * Interface)  (* [self.submodules] *)
}.

Definition set_masters (f : dict Interface -> dict Interface) (h : t) : t :=
  mk (standard h) (data_width h) (address_width h) (f (masters h))
     (slaves h) (regions h) (io_regions h) (ld_regions h) (converters h).
Definition set_slaves (f : dict Interface -> dict Interface) (h : t) : t :=
  mk (standard h) (data_width h) (address_width h) (masters h)
     (f (slaves h)) (regions h) (io_regions h) (ld_regions h) (converters h).
Definition set_regions (f : dict SoCRegion.t -> dict SoCRegion.t) (h : t) : t :=
  mk (standard h) (data_width h) (address_width h) (masters h)
     (slaves h) (f (regions h)) (io_regions h) (ld_regions h) (converters h).
Definition set_io_regions (f : dict SoCRegion.t -> dict SoCRegion.t) (h : t) : t :=
  mk (standard h) (data_width h) (address_width h) (masters h)
     (slaves h) (regions h) (f (io_regions h)) (ld_regions h) (converters h).
Definition set_ld_regions (f : dict SoCRegion.t -> dict SoCRegion.t) (h : t) : t :=
  mk (standard h) (data_width h) (address_width h) (masters h)
     (slaves h) (regions h) (io_regions h) (f (ld_regions h)) (converters h).
Definition add_converter (c : Interface * Interface) (h : t) : t :=
  mk (standard h) (data_width h) (address_width h) (masters h)
     (slaves h) (regions h) (io_regions h) (ld_regions h)
     (converters h ++ [c]).

(** *** check_regions_overlap

    The inner [for n1 in list(regions.keys())[i+1:]] of the source, for
    the entry [(n0, r0)] at position [i]; [rest] holds the entries after
    it.  Comparing an origin that is [None] is a [TypeError]. *)
Fixpoint overlap_after (n0 : string) (r0 : SoCRegion.t) (rest : dict SoCRegion.t)
  : result (option (string * string)) :=
  match rest with
  | [] => Ok None
  | (n1, r1) :: rest' =>
      if SoCRegion.is_linker r0 || SoCRegion.is_linker r1
      then overlap_after n0 r0 rest'
      else
        match SoCRegion.origin r0, SoCRegion.origin r1 with
        | Some o0, Some o1 =>
            if o0 >=? o1 + SoCRegion.size r1 then overlap_after n0 r0 rest'
            else if o1 >=? o0 + SoCRegion.size r0
            then overlap_after n0 r0 rest'
            else Ok (Some (n0, n1))
        | _, _ => Err TypeError
        end
  end.

(** The outer [while i < len(regions)]. *)
Fixpoint check_regions_overlap (regions : dict SoCRegion.t)
  : result (option (string * string)) :=
  match regions with
  | [] => Ok None
  | (n0, r0) :: rest =>
      match overlap_after n0 r0 rest with
      | Ok None => check_regions_overlap rest
      | found_or_error => found_or_error
      end
  end.

(** *** check_region_is_in, check_region_is_io *)
Definition check_region_is_in (region container : SoCRegion.t) : result bool :=
  match SoCRegion.origin region, SoCRegion.origin container with
  | Some ro, Some co =>
      Ok ((ro >=? co) &&
          (ro + SoCRegion.size region <? co + SoCRegion.size container))
  | _, _ => Err TypeError
  end.

(** The loop has no [break]: every I/O region is visited. *)
Fixpoint check_region_is_io_from (is_io : bool) (ios : dict SoCRegion.t)
  (region : SoCRegion.t) : result bool :=
  match ios with
  | [] => Ok is_io
  | (_, io_region) :: rest =>
      match check_region_is_in region io_region with
      | Err e => Err e
      | Ok true => check_region_is_io_from true rest region
      | Ok false => check_region_is_io_from is_io rest region
      end
  end.

Definition check_region_is_io (self : t) (region : SoCRegion.t) : result bool :=
  check_region_is_io_from false (io_regions self) region.

(** *** alloc_region *)

Definition candidate_at (origin size : Z) (cached : bool) : SoCRegion.t :=
  SoCRegion.mk PlainRegion (Some origin) size "rw" cached.

(** [for _, allocated in self.regions.items()]: the first allocated region
    that the candidate overlaps, if any. *)
Fixpoint first_overlap (allocated_regions : dict SoCRegion.t)
  (candidate : SoCRegion.t) : result (option SoCRegion.t) :=
  match allocated_regions with
  | [] => Ok None
  | (_, allocated) :: rest =>
      match check_regions_overlap [("0"%string, allocated);
                                   ("1"%string, candidate)] with
      | Err e => Err e
      | Ok (Some _) => Ok (Some allocated)
      | Ok None => first_overlap rest candidate
      end
  end.

Inductive scan_result : Type :=
| Selected (candidate : SoCRegion.t)   (* [return candidate] *)
| NoFit                              (* the [while] condition is false *)
| ScanRaised (e : error).

(** [while (origin + size) < (search_region.origin + search_region.size)],
    with [search_end] the right-hand side.  [fuel] bounds the number of
    iterations; [None] means the bound was reached. *)
Fixpoint scan (fuel : nat) (allocated_regions : dict SoCRegion.t)
  (search_end size : Z) (cached : bool) (origin : Z) : option scan_result :=
  match fuel with
  | O => None
  | S fuel' =>
      if origin + size <? search_end then
        let candidate := candidate_at origin size cached in
        match first_overlap allocated_regions candidate with
        | Err e => Some (ScanRaised e)
        | Ok None => Some (Selected candidate)
        | Ok (Some allocated) =>
            match SoCRegion.origin allocated with
            | Some ao =>
                scan fuel' allocated_regions search_end size cached
                     (ao + SoCRegion.size allocated)
            | None => Some (ScanRaised TypeError)
            end
        end
      else Some NoFit
  end.

(** [for _, search_region in search_regions.items()], followed by the
    final error. *)
Fixpoint search (fuel : nat) (allocated_regions search_regions : dict SoCRegion.t)
  (size : Z) (cached : bool) : option (result SoCRegion.t) :=
  match search_regions with
  | [] => Some (Err InsufficientAddressSpace)
  | (_, search_region) :: rest =>
      match SoCRegion.origin search_region with
      | None => Some (Err TypeError)
      | Some so =>
          match scan fuel allocated_regions
                     (so + SoCRegion.size search_region) size cached so with
          | None => None
          | Some (Selected candidate) => Some (Ok candidate)
          | Some (ScanRaised e) => Some (Err e)
          | Some NoFit => search fuel allocated_regions rest size cached
          end
      end
  end.

Definition search_regions (self : t) (cached : bool) : dict SoCRegion.t :=
  if negb cached then io_regions self
  else [("main"%string,
         SoCRegion.mk PlainRegion (Some 0) (2 ^ address_width self - 1) "rw" true)].

Definition alloc_region_within (fuel : nat) (self : t) (name : string)
  (size : Z) (cached : bool) : option (result SoCRegion.t) :=
  search fuel (regions self) (search_regions self cached) size cached.

(** Every conflict moves the search origin past one more allocated
    region, so one iteration per allocated region and one more are
    enough. *)
Definition scan_bound (self : t) : nat := S (List.length (regions self)).

Definition alloc_region (self : t) (name : string) (size : Z) (cached : bool)
  : result SoCRegion.t :=
  match alloc_region_within (scan_bound self) self name size cached with
  | Some r => r
  | None => Err ScanBoundReached
  end.

(** *** add_region *)

(** The error path after an overlap was found: the two log lines read
    [self.regions[overlap[0]]] and [self.regions[overlap[1]]] before the
    [raise], whichever table was checked. *)
Definition raise_overlap (c : region_class) (overlap : string * string)
  : M t unit :=
  fun self =>
    match dict_get (fst overlap) (regions self) with
    | None => Raised (KeyError (fst overlap)) self
    | Some _ =>
        match dict_get (snd overlap) (regions self) with
        | None => Raised (KeyError (snd overlap)) self
        | Some _ => Raised (RegionOverlap c (fst overlap) (snd overlap)) self
        end
    end.

Definition add_region (name : string) (region : SoCRegion.t) : M t unit :=
  (match SoCRegion.cls region with
   | IORegion =>
       self <- get ;;
       (if dict_mem name (masters self)
        then raise (DuplicateRegionName IORegion name) else ret tt) ;;
       modify (set_io_regions (dict_set name region)) ;;
       self <- get ;;
       overlap <- lift (check_regions_overlap (io_regions self)) ;;
       match overlap with
       | Some found => raise_overlap IORegion found
       | None => ret tt
       end
   | LinkerRegion =>
       self <- get ;;
       (if dict_mem name (masters self)
        then raise (DuplicateRegionName LinkerRegion name) else ret tt) ;;
       modify (set_ld_regions (dict_set name region)) ;;
       self <- get ;;
       overlap <- lift (check_regions_overlap (ld_regions self)) ;;
       match overlap with
       | Some found => raise_overlap LinkerRegion found
       | None => ret tt
       end
   | PlainRegion =>
       match SoCRegion.origin region with
       | None =>
           self <- get ;;
           region <- lift (alloc_region self name (SoCRegion.size region)
                                        (SoCRegion.cached region)) ;;
           modify (set_regions (dict_set name region))
       | Some _ =>
           self <- get ;;
           (if negb (SoCRegion.cached region) then
              is_io <- lift (check_region_is_io self region) ;;
              if negb is_io then raise (UncachedRegionOutsideIO name)
              else ret tt
            else ret tt) ;;
           modify (set_regions (dict_set name region)) ;;
           self <- get ;;
           overlap <- lift (check_regions_overlap (regions self)) ;;
           match overlap with
           | Some found => raise_overlap PlainRegion found
           | None => ret tt
           end
       end
   end)%method.

(** *** add_adapter, add_master, add_slave *)

Definition add_adapter (name : string) (interface : option Interface)
  : M t Interface :=
  (match interface with
   | None => raise (AttributeError "data_width")
   | Some interface =>
       self <- get ;;
       if negb (interface_data_width interface =? data_width self) then
         let new_interface := Adapted interface (data_width self) in
         modify (add_converter (interface, new_interface)) ;;
         ret new_interface
       else ret interface
   end)%method.

Definition add_master (name : option string) (master : option Interface)
  : M t unit :=
  (self <- get ;;
   let name := match name with
               | None => numbered "master" (List.length (masters self))
               | Some name => name
               end in
   (if dict_mem name (masters self)
    then raise (DuplicateMasterName name) else ret tt) ;;
   master <- add_adapter name master ;;
   modify (set_masters (dict_set name master)))%method.

Definition add_slave (name : option string) (slave : option Interface)
  (region : option SoCRegion.t) : M t unit :=
  (self <- get ;;
   match name, region with
   | None, None => raise MissingNameOrRegion
   | _, _ =>
       let name := match name with
                   | None => numbered "slave" (List.length (slaves self))
                   | Some name => name
                   end in
       match region with
       | None =>
           match dict_get name (regions self) with
           | None => raise (UnknownRegionName name)
           | Some _ => ret tt
           end
       | Some region => add_region name region
       end ;;
       self <- get ;;
       (if dict_mem name (slaves self)
        then raise (DuplicateSlaveName name) else ret tt) ;;
       slave <- add_adapter name slave ;;
       modify (set_slaves (dict_set name slave))
   end)%method.

(** *** __init__ *)

Definition empty (standard : string) (data_width address_width : Z) : t :=
  mk standard data_width address_width [] [] [] [] [] [].

(** A reserved region is given either as a region or as a bare origin,
    which stands for a region of size [0x1000000]. *)
Definition reserved_region (r : Z + SoCRegion.t) : SoCRegion.t :=
  match r with
  | inl origin => SoCRegion.mk PlainRegion (Some origin) 0x1000000 "rw" true
  | inr region => region
  end.

Fixpoint add_reserved (reserved_regions : dict (Z + SoCRegion.t)) : M t unit :=
  match reserved_regions with
  | [] => ret tt
  | (name, region) :: rest =>
      (add_region name (reserved_region region) ;; add_reserved rest)%method
  end.

Definition init (standard : string) (data_width address_width : Z)
  (reserved_regions : dict (Z + SoCRegion.t)) : outcome t unit :=
  let self := empty standard data_width address_width in
  if negb (String.eqb standard "wishbone")
  then Raised (UnsupportedConfiguration "standard") self
  else if negb ((data_width =? 32) || (data_width =? 64))
  then Raised (UnsupportedConfiguration "data_width") self
  else if negb (address_width =? 32)
  then Raised (UnsupportedConfiguration "address_width") self
  else add_reserved reserved_regions self.

End SoCBusHandler.

(** ** SoCLocHandler

    The slot table shared by the CSR and the IRQ handler.  The logger the
    methods use is set up by these two subclasses. *)

Module SoCLocHandler.

Record t : Type := mk {
  name   : string;
  locs   : dict Z;
  n_locs : Z
}.

(** [SoCLocHandler.__init__(self, name, n_locs)] *)
Definition init (name : string) (n_locs : Z) : t := mk name [] n_locs.

Definition set_locs (f : dict Z -> dict Z) (h : t) : t :=
  mk (name h) (f (locs h)) (n_locs h).

(** [range(n)] *)
Definition range (n : Z) : list Z := map Z.of_nat (seq 0 (Z.to_nat n)).

(** [n in self.locs.values()] *)
Definition loc_used (self : t) (n : Z) : bool :=
  existsb (Z.eqb n) (values (locs self)).

(** *** alloc *)
Definition alloc (self : t) (name : string) : result Z :=
  match find (fun n => negb (loc_used self n)) (range (n_locs self)) with
  | Some n => Ok n
  | None => Err CapacityExhausted
  end.

(** What the closing [logger.info] of [add] reports: the name, whether
    the location was allocated, and the location [n] the call ended up
    with.  This is the log line of a call, not its value: the method has
    no [return] statement (see [add_value]). *)
Record report : Type := mkReport {
  reported_name : string;
  allocated     : bool;
  location      : Z
}.

(** *** add

    The message of the "too high" error reads [self.n_csrs], an
    attribute that no handler defines, so that site raises an
    [AttributeError]. *)
Definition add (name : string) (n : option Z) (use_loc_if_exists : bool)
  : M t report :=
  (self <- get ;;
   if negb (use_loc_if_exists && dict_mem name (locs self)) then
     (if dict_mem name (locs self)
      then raise (DuplicateLocationName name) else ret tt) ;;
     match n with
     | None =>
         (* [None in self.locs.values()] is false: the values are integers *)
         n <- lift (alloc self name) ;;
         modify (set_locs (dict_set name n)) ;;
         ret (mkReport name true n)
     | Some n =>
         (if loc_used self n
          then raise (DuplicateLocationNumber n) else ret tt) ;;
         (if n <? 0 then raise (LocationOutOfRange n) else ret tt) ;;
         (if n >? n_locs self then raise (AttributeError "n_csrs") else ret tt) ;;
         modify (set_locs (dict_set name n)) ;;
         ret (mkReport name false n)
     end
   else
     match dict_get name (locs self) with
     | Some n => ret (mkReport name false n)
     | None => raise (KeyError name)
     end)%method.

(** The value of the expression [self.add(name, n, use_loc_if_exists)].
    The body of [add] ends after the [logger.info] call, without a
    [return] statement: a call that does not raise evaluates to [None]. *)
Inductive value : Type :=
| PyNone
| PyInt (n : Z).

Definition add_value (name : string) (n : option Z) (use_loc_if_exists : bool)
  : M t value :=
  (add name n use_loc_if_exists ;; ret PyNone)%method.

End SoCLocHandler.

(** [SoCCSRHandler] and [SoCIRQHandler] fix the capacity of the table. *)
Definition csr_n_locs (address_width paging : Z) : Z :=
  4 * 2 ^ address_width / paging.

Definition SoCIRQHandler_init (n_irqs : Z) : SoCLocHandler.t :=
  SoCLocHandler.init "IRQ" n_irqs.

(** ** Vocabulary of the statements *)

(** Two regions overlap when each starts below the end of the other. *)
Definition overlap (a b : SoCRegion.t) : Prop :=
  exists oa ob,
    SoCRegion.origin a = Some oa /\ SoCRegion.origin b = Some ob /\
    oa < ob + SoCRegion.size b /\ ob < oa + SoCRegion.size a.

(** No two entries of a table overlap, Linker regions set aside. *)
Definition overlap_free (regions : dict SoCRegion.t) : Prop :=
  forall i j n0 r0 n1 r1,
    i <> j ->
    nth_error regions i = Some (n0, r0) ->
    nth_error regions j = Some (n1, r1) ->
    SoCRegion.cls r0 <> LinkerRegion ->
    SoCRegion.cls r1 <> LinkerRegion ->
    ~ overlap r0 r1.

Definition power_of_two (n : Z) : Prop := exists k, 0 <= k /\ n = 2 ^ k.

(** [origin] is a multiple of [size]. *)
Definition aligned (origin size : Z) : Prop := exists q, origin = q * size.

(** The containment test of [check_region_is_in]. *)
Definition contained_in (region container : SoCRegion.t) : Prop :=
  exists ro co,
    SoCRegion.origin region = Some ro /\ SoCRegion.origin container = Some co /\
    co <= ro /\ ro + SoCRegion.size region < co + SoCRegion.size container.

(** The handler states that successful registration calls lead to. *)
Inductive reachable : SoCBusHandler.t -> Prop :=
| reach_init standard data_width address_width reserved h :
    SoCBusHandler.init standard data_width address_width reserved = Done tt h ->
    reachable h
| reach_add_region h name region h' :
    reachable h ->
    SoCBusHandler.add_region name region h = Done tt h' ->
    reachable h'
| reach_add_master h name master h' :
    reachable h ->
    SoCBusHandler.add_master name master h = Done tt h' ->
    reachable h'
| reach_add_slave h name slave region h' :
    reachable h ->
    SoCBusHandler.add_slave name slave region h = Done tt h' ->
    reachable h'.

(** An allocated region that ends above [origin]: the only regions a
    candidate placed at [origin] or further up can still run into. *)
Definition ends_above (origin : Z) (e : string * SoCRegion.t) : bool :=
  match SoCRegion.origin (snd e) with
  | Some ao => origin <? ao + SoCRegion.size (snd e)
  | None => false
  end.

Definition regions_above (regions : dict SoCRegion.t) (origin : Z) : nat :=
  List.length (filter (ends_above origin) regions).

(** Two table entries are compatible when they do not overlap, or one of
    them is a Linker region. *)
Definition compatible (e0 e1 : string * SoCRegion.t) : Prop :=
  SoCRegion.cls (snd e0) <> LinkerRegion ->
  SoCRegion.cls (snd e1) <> LinkerRegion ->
  ~ overlap (snd e0) (snd e1).

Definition pairwise_compatible (regions : dict SoCRegion.t) : Prop :=
  ForallOrdPairs compatible regions.

(** Every region of a table has an origin. *)
Definition placed (regions : dict SoCRegion.t) : Prop :=
  Forall (fun e => SoCRegion.origin (snd e) <> None) regions.

(** The linker table only ever holds Linker regions. *)
Definition linker_only (regions : dict SoCRegion.t) : Prop :=
  Forall (fun e => SoCRegion.is_linker (snd e) = true) regions.

(** The invariant of the three region tables. *)
Definition tables_ok (h : SoCBusHandler.t) : Prop :=
  pairwise_compatible (SoCBusHandler.regions h) /\
  pairwise_compatible (SoCBusHandler.io_regions h).

(** The table a region of a given class is stored in, with the region
    stored under [name]. *)
Definition store_region (name : string) (region : SoCRegion.t)
  (h : SoCBusHandler.t) : SoCBusHandler.t :=
  match SoCRegion.cls region with
  | IORegion => SoCBusHandler.set_io_regions (dict_set name region) h
  | LinkerRegion => SoCBusHandler.set_ld_regions (dict_set name region) h
  | PlainRegion => SoCBusHandler.set_regions (dict_set name region) h
  end.

(** The table that holds the regions of a class. *)
Definition table_of (c : region_class) (h : SoCBusHandler.t) : dict SoCRegion.t :=
  match c with
  | PlainRegion => SoCBusHandler.regions h
  | IORegion => SoCBusHandler.io_regions h
  | LinkerRegion => SoCBusHandler.ld_regions h
  end.

(** The state a call leaves the object in, whether it returned or raised. *)
Definition final_state {S A} (o : outcome S A) : S :=
  match o with
  | Done _ s => s
  | Raised _ s => s
  end.

(** ** Scenarios

    Concrete handlers and regions that the statements below are run on. *)

(** [SoCRegion(origin=..., size=..., cached=...)] *)
Definition plain (origin : option Z) (size : Z) (cached : bool) : SoCRegion.t :=
  SoCRegion.mk PlainRegion origin size "rw" cached.

(** [SoCIORegion(origin=..., size=..., cached=False)] *)
Definition io (origin size : Z) : SoCRegion.t :=
  SoCRegion.mk IORegion (Some origin) size "rw" false.

Definition fresh_bus : SoCBusHandler.t := SoCBusHandler.empty "wishbone" 32 32.

Definition rom : SoCRegion.t := plain (Some 0) 0x10000 true.
Definition sram : SoCRegion.t := plain (Some 0x10000000) 0x2000 true.

(** The bus after [rom] and [sram] were added. *)
Definition bus_rom_sram : SoCBusHandler.t :=
  store_region "sram" sram (store_region "rom" rom fresh_bus).

(** The bus holding a single region of size [0x1000] at address [0]. *)
Definition bus_small_rom : SoCBusHandler.t :=
  store_region "rom" (plain (Some 0) 0x1000 true) fresh_bus.

(** A region whose size is not a power of two and whose origin is not a
    multiple of its size. *)
Definition odd_region : SoCRegion.t := plain (Some 0x1000) 0x3000 true.

(** The bus with one I/O region covering the upper half of the address
    space, and an uncached region that coincides with it. *)
Definition io_upper_half : SoCRegion.t := io 0x80000000 0x80000000.
Definition bus_with_io : SoCBusHandler.t :=
  store_region "io0" io_upper_half fresh_bus.
Definition csr_upper_half : SoCRegion.t := plain (Some 0x80000000) 0x80000000 false.

(** [SoCIORegion(size=0x10000000)], declared without an origin, and the
    bus after it was added. *)
Definition io_without_origin : SoCRegion.t :=
  SoCRegion.mk IORegion None 0x10000000 "rw" false.
Definition bus_with_unplaced_io : SoCBusHandler.t :=
  final_state (SoCBusHandler.add_region "io1" io_without_origin fresh_bus).

(** A CSR table of capacity one whose only slot is taken by ["ctrl"], and
    the IRQ table of the default capacity. *)
Definition full_csr : SoCLocHandler.t := SoCLocHandler.mk "CSR" [("ctrl"%string, 0)] 1.
Definition irq32 : SoCLocHandler.t := SoCIRQHandler_init 32.

(** A region that overlaps [rom]. *)
Definition over_rom : SoCRegion.t := plain (Some 0x8000) 0x4000 true.

(** A region smaller than a bus word, and a region that fills half of the
    address space. *)
Definition half_word_region : SoCRegion.t := plain (Some 4) 2 true.
Definition lower_half_region : SoCRegion.t := plain (Some 0) 0x80000000 true.

(** ** The bus interconnect step of do_finalize

    [bus_slaves = [(self.bus.regions[n].decoder(), s)
                   for n, s in self.bus.slaves.items()]]: one decoder per
    slave, looked up in the plain region table under the slave's name. *)
Fixpoint slave_decoders (regions : dict SoCRegion.t) (slaves : dict Interface)
  : result (list ((Signal -> result bool) * Interface)) :=
  match slaves with
  | [] => Ok []
  | (n, s) :: rest =>
      match dict_get n regions with
      | None => Err (KeyError n)
      | Some region =>
          rbind (SoCRegion.decoder region) (fun d =>
          rbind (slave_decoders regions rest) (fun ds => Ok ((d, s) :: ds)))
      end
  end.

Definition bus_slaves (bus : SoCBusHandler.t)
  : result (list ((Signal -> result bool) * Interface)) :=
  slave_decoders (SoCBusHandler.regions bus) (SoCBusHandler.slaves bus).

(** The states of a location handler that successful calls of [add] lead
    to, from the empty table. *)
Inductive loc_reachable : SoCLocHandler.t -> Prop :=
| loc_reach_init name n_locs : loc_reachable (SoCLocHandler.init name n_locs)
| loc_reach_add h name n use_loc_if_exists r h' :
    loc_reachable h ->
    SoCLocHandler.add name n use_loc_if_exists h = Done r h' ->
    loc_reachable h'.

(** [add(name)] for each name of a list in turn, without slot numbers. *)
Fixpoint add_each (names : list string) : M SoCLocHandler.t unit :=
  match names with
  | [] => ret tt
  | name :: rest =>
      (SoCLocHandler.add name None false ;; add_each rest)%method
  end.


(** The fresh bus after [add_slave("rom", slave, rom)] with a 64-bit
    slave interface. *)
Definition wide_rom_interface : Interface := Native "rom_bus" 64.
Definition bus_with_slave : SoCBusHandler.t :=
  final_state (SoCBusHandler.add_slave (Some "rom"%string)
                 (Some wide_rom_interface) (Some rom) fresh_bus).

(** ** The CSR and IRQ handlers and the constants of the SoC

    Failures of the code below that are not among the exceptions of the bus
    handler and the location table. *)
Inductive soc_error : Type :=
| Base (e : error)
| DataWidthMismatch (name : string)
| UndefinedLocation (name : string)
| DuplicateConstant (name : string)
| MissingRequiredRegion (name : string)
| ZeroDivisionError
| UnboundLocalError (variable : string).

(** A call that either returns or raises; every [raise] of the methods
    modelled with it comes before their first assignment, so a failed call
    leaves its object as it was. *)
Inductive attempt (A : Type) : Type :=
| Succeeded (a : A)
| Failed (e : soc_error).
Arguments Succeeded {A} a.
Arguments Failed {A} e.

(** [for name, n in reserved.items(): self.add(name, n)], the closing loop
    of the constructors of both handlers. *)
Fixpoint add_reserved_locs (reserved : dict Z) (self : SoCLocHandler.t)
  : attempt SoCLocHandler.t :=
  match reserved with
  | [] => Succeeded self
  | (name, n) :: rest =>
      match SoCLocHandler.add name (Some n) false self with
      | Done _ self' => add_reserved_locs rest self'
      | Raised e _ => Failed (Base e)
      end
  end.

Module SoCCSRHandler.

(** [SoCCSRRegion]; [obj] names the bank or memory the region stands for. *)
Record SoCCSRRegion : Type := mkRegion {
  origin  : Z;
  busword : Z;
  obj     : string
}.

(** The location table the class inherits, and its own attributes. *)
Record t : Type := mk {
  loc           : SoCLocHandler.t;
  data_width    : Z;
  address_width : Z;
  alignment     : Z;
  paging        : Z;
  masters       : dict Interface;
  regions       : dict SoCCSRRegion
}.

(** [__init__].  The capacity [4*2**address_width//paging] is computed
    first, which raises [ZeroDivisionError] when [paging] is 0; it is only
    kept when all checks pass, and then [address_width] is 14 or 15. *)
Definition init (data_width address_width alignment paging : Z)
  (reserved_csrs : dict Z) : attempt t :=
  if paging =? 0 then Failed ZeroDivisionError
  else if negb ((data_width =? 8) || (data_width =? 32))
  then Failed (Base (UnsupportedConfiguration "data_width"))
  else if negb ((address_width =? 14) || (address_width =? 15))
  then Failed (Base (UnsupportedConfiguration "address_width"))
  else if negb ((alignment =? 32) || (alignment =? 64))
  then Failed (Base (UnsupportedConfiguration "alignment"))
  else if data_width >? alignment
  then Failed (Base (UnsupportedConfiguration "alignment >= data_width"))
  else if negb (paging =? 0x800)
  then Failed (Base (UnsupportedConfiguration "paging"))
  else
    match add_reserved_locs reserved_csrs
            (SoCLocHandler.init "CSR" (csr_n_locs address_width paging)) with
    | Succeeded loc =>
        Succeeded (mk loc data_width address_width alignment paging [] [])
    | Failed e => Failed e
    end.

Definition set_masters (f : dict Interface -> dict Interface) (h : t) : t :=
  mk (loc h) (data_width h) (address_width h) (alignment h) (paging h)
     (f (masters h)) (regions h).
Definition set_regions (f : dict SoCCSRRegion -> dict SoCCSRRegion) (h : t) : t :=
  mk (loc h) (data_width h) (address_width h) (alignment h) (paging h)
     (masters h) (f (regions h)).

Definition set_loc (l : SoCLocHandler.t) (h : t) : t :=
  mk l (data_width h) (address_width h) (alignment h) (paging h)
     (masters h) (regions h).

(** [add], inherited from [SoCLocHandler]: it works on the location table
    of the handler. *)
Definition add (name : string) (n : option Z) (use_loc_if_exists : bool)
  : M t SoCLocHandler.report :=
  fun self =>
    match SoCLocHandler.add name n use_loc_if_exists (loc self) with
    | Done r l => Done r (set_loc l self)
    | Raised e l => Raised e (set_loc l self)
    end.

(** [add_master]: no adapter here, a master of another width is refused. *)
Definition add_master (name : option string) (master : option Interface)
  (self : t) : attempt t :=
  let name := match name with
              | None => numbered "master" (List.length (masters self))
              | Some name => name
              end in
  if dict_mem name (masters self) then Failed (Base (DuplicateMasterName name))
  else
    match master with
    | None => Failed (Base (AttributeError "data_width"))
    | Some master =>
        if negb (interface_data_width master =? data_width self)
        then Failed (DataWidthMismatch name)
        else Succeeded (set_masters (dict_set name master) self)
    end.

(** [add_region]: stored without any check. *)
Definition add_region (name : string) (region : SoCCSRRegion) (self : t) : t :=
  set_regions (dict_set name region) self.

(** [address_map(name, memory)]; [memory] is given by its
    [name_override]. *)
Definition address_map (name : string) (memory : option string) (self : t)
  : attempt Z :=
  let name := match memory with
              | Some name_override => (name ++ "_" ++ name_override)%string
              | None => name
              end in
  match dict_get name (SoCLocHandler.locs (loc self)) with
  | None => Failed (UndefinedLocation name)
  | Some n => Succeeded n
  end.

End SoCCSRHandler.

Module SoCIRQHandler.

(** [__init__]: the message of the "unsupported IRQs number" error reads
    [n], a local variable that is only bound by the loop over the reserved
    IRQs further down, so that site raises [UnboundLocalError]. *)
Definition init (n_irqs : Z) (reserved_irqs : dict Z) : attempt SoCLocHandler.t :=
  if n_irqs >? 32 then Failed (UnboundLocalError "n")
  else add_reserved_locs reserved_irqs (SoCIRQHandler_init n_irqs).

End SoCIRQHandler.

Module SoC.

(** The value of a constant: [None], an integer or a string. *)
Inductive constant_value : Type :=
| NoValue
| IntValue (z : Z)
| StrValue (s : string).

Section Constants.
(** [str.upper] *)
Variable upper : string -> string.

(** [add_constant(name, value=None)]; [SoCConstant] returns its argument. *)
Definition add_constant (name : string) (value : constant_value)
  (constants : dict constant_value) : attempt (dict constant_value) :=
  let name := upper name in
  if dict_mem name constants then Failed (DuplicateConstant name)
  else Succeeded (dict_set name value constants).

(** [add_config(name, value)] *)
Definition add_config (name : string) (value : constant_value)
  (constants : dict constant_value) : attempt (dict constant_value) :=
  let name := ("CONFIG_" ++ name)%string in
  match value with
  | StrValue v => add_constant (name ++ "_" ++ v)%string NoValue constants
  | _ => add_constant name value constants
  end.
End Constants.

(** [do_finalize], "Sort CSR regions by origin":
    [sorted(self.csr.regions.items(), key=lambda item: item[1].origin)].
    [sorted] is stable, and the result of a stable sort is determined by its
    input; it is computed here by insertion, an entry going before the first
    entry of the sorted rest whose origin is not smaller. *)
Fixpoint insert_by_origin (e : string * SoCCSRHandler.SoCCSRRegion)
  (sorted : dict SoCCSRHandler.SoCCSRRegion)
  : dict SoCCSRHandler.SoCCSRRegion :=
  match sorted with
  | [] => [e]
  | e' :: rest =>
      if SoCCSRHandler.origin (snd e) <=? SoCCSRHandler.origin (snd e')
      then e :: e' :: rest
      else e' :: insert_by_origin e rest
  end.

Definition sort_csr_regions (regions : dict SoCCSRHandler.SoCCSRRegion)
  : dict SoCCSRHandler.SoCCSRRegion :=
  fold_right insert_by_origin [] regions.

(** [add_csr_bridge]: the size of the bus region of the CSR bridge. *)
Definition csr_size (csr : SoCCSRHandler.t) : Z :=
  2 ^ (SoCCSRHandler.address_width csr + 2).

(** [do_finalize]: the origin of the CSR region of the bank mapped at
    [mapaddr], relative to the origin of the bus region ["csr"]. *)
Definition csr_page_offset (csr : SoCCSRHandler.t) (mapaddr : Z) : Z :=
  SoCCSRHandler.paging csr * mapaddr.

(** [do_finalize], the check made when a CPU is present: ["rom"] and
    ["sram"] must be names of the plain or of the Linker table. *)
Fixpoint check_required_regions (names : list string) (bus : SoCBusHandler.t)
  : attempt unit :=
  match names with
  | [] => Succeeded tt
  | name :: rest =>
      if negb (existsb (String.eqb name)
                 (keys (SoCBusHandler.regions bus)
                  ++ keys (SoCBusHandler.ld_regions bus)))
      then Failed (MissingRequiredRegion name)
      else check_required_regions rest bus
  end.

Definition cpu_check (bus : SoCBusHandler.t) : attempt unit :=
  check_required_regions ["rom"; "sram"]%string bus.

End SoC.

(** The order of the sorted CSR regions. *)
Definition origin_le (a b : string * SoCCSRHandler.SoCCSRRegion) : Prop :=
  SoCCSRHandler.origin (snd a) <= SoCCSRHandler.origin (snd b).

(** [str.upper] on ASCII names. *)
Definition ascii_upper_char (c : Ascii.ascii) : Ascii.ascii :=
  let n := Ascii.nat_of_ascii c in
  if (97 <=? n)%nat && (n <=? 122)%nat then Ascii.ascii_of_nat (n - 32) else c.

Fixpoint ascii_upper (s : string) : string :=
  match s with
  | EmptyString => EmptyString
  | String c rest => String (ascii_upper_char c) (ascii_upper rest)
  end.

(** The default CSR handler, [SoCCSRHandler()]. *)
Definition default_csr : SoCCSRHandler.t :=
  SoCCSRHandler.mk (SoCLocHandler.init "CSR" 32) 32 14 32 0x800 [] [].

(** Two CSR regions, the second one at the lower origin. *)
Definition csr_regions_unsorted : dict SoCCSRHandler.SoCCSRRegion :=
  [("uart"%string, SoCCSRHandler.mkRegion 0x82001000 32 "uart");
   ("ctrl"%string, SoCCSRHandler.mkRegion 0x82000000 32 "ctrl")].

(** * Properties *)

(** ** Dictionaries *)

Section DictFacts.
Context {V : Type}.
Implicit Types (d : dict V) (k : string) (v : V).

Lemma dict_get_In k d v : dict_get k d = Some v -> In (k, v) d.
Proof.
  induction d as [|[k' v'] d IH]; simpl; [discriminate|].
  destruct (String.eqb_spec k k') as [->|_].
  - intros [= ->]. now left.
  - intros H. right. now apply IH.
Qed.

Lemma In_dict_set e k v d : In e (dict_set k v d) -> e = (k, v) \/ In e d.
Proof.
  induction d as [|[k' v'] d IH]; simpl.
  - intros [<-|[]]. now left.
  - destruct (String.eqb k k'); simpl.
    + intros [<-|H]; [now left | right; now right].
    + intros [<-|H]; [right; now left |].
      destruct (IH H) as [->|H']; [now left | right; now right].
Qed.

Lemma dict_get_set_same k v d : dict_get k (dict_set k v d) = Some v.
Proof.
  induction d as [|[k' v'] d IH]; simpl.
  - now rewrite String.eqb_refl.
  - destruct (String.eqb k k') eqn:E; simpl.
    + now rewrite String.eqb_refl.
    + now rewrite E.
Qed.

Lemma dict_get_set_other k k' v d :
  k' <> k -> dict_get k' (dict_set k v d) = dict_get k' d.
Proof.
  intros Hne.
  induction d as [|[k0 v0] d IH]; simpl.
  - destruct (String.eqb_spec k' k); [contradiction | reflexivity].
  - destruct (String.eqb_spec k k0) as [->|Hk]; simpl.
    + destruct (String.eqb_spec k' k0); [contradiction | reflexivity].
    + now rewrite IH.
Qed.

Lemma dict_mem_set_same k v d : dict_mem k (dict_set k v d) = true.
Proof. unfold dict_mem. now rewrite dict_get_set_same. Qed.

Lemma ForallOrdPairs_dict_set (R : string * V -> string * V -> Prop) k v d :
  ForallOrdPairs R d ->
  (forall e, In e d -> R (k, v) e /\ R e (k, v)) ->
  ForallOrdPairs R (dict_set k v d).
Proof.
  induction d as [|[k' v'] d IH]; simpl; intros Hd Hnew.
  - repeat constructor.
  - inversion Hd as [|? ? Hhd Htl]; subst.
    destruct (String.eqb k k').
    + constructor; [|assumption].
      apply Forall_forall. intros e He. apply Hnew. now right.
    + constructor.
      * apply Forall_forall. intros e He.
        destruct (In_dict_set _ _ _ _ He) as [->|He'].
        -- apply Hnew. now left.
        -- rewrite Forall_forall in Hhd. now apply Hhd.
      * apply IH; [assumption|]. intros e He. apply Hnew. now right.
Qed.
End DictFacts.

(** ** Overlap *)

Lemma overlap_sym a b : overlap a b -> overlap b a.
Proof.
  intros (oa & ob & Ha & Hb & H1 & H2). exists ob, oa. tauto.
Qed.

Lemma compatible_sym e0 e1 : compatible e0 e1 -> compatible e1 e0.
Proof.
  unfold compatible. intros H H1 H0 Ho. apply (H H0 H1). now apply overlap_sym.
Qed.

Lemma is_linker_false r :
  SoCRegion.is_linker r = false <-> SoCRegion.cls r <> LinkerRegion.
Proof.
  unfold SoCRegion.is_linker. destruct (SoCRegion.cls r); split; congruence.
Qed.

Lemma ForallOrdPairs_nth_error {A} (R : A -> A -> Prop) (l : list A) :
  ForallOrdPairs R l ->
  forall i j x y,
    (i < j)%nat -> nth_error l i = Some x -> nth_error l j = Some y -> R x y.
Proof.
  induction 1 as [|a l Hhd _ IH]; intros i j x y Hlt Hi Hj.
  - destruct i; discriminate.
  - destruct j as [|j]; [lia|]. destruct i as [|i]; simpl in Hi, Hj.
    + injection Hi as <-. rewrite Forall_forall in Hhd.
      apply Hhd. exact (nth_error_In _ _ Hj).
    + apply (IH i j); [lia | assumption..].
Qed.

Lemma pairwise_compatible_overlap_free regions :
  pairwise_compatible regions -> overlap_free regions.
Proof.
  intros Hp i j n0 r0 n1 r1 Hne H0 H1 L0 L1.
  destruct (Nat.lt_total i j) as [Hlt|[->|Hlt]]; [|contradiction|].
  - exact (ForallOrdPairs_nth_error _ _ Hp i j _ _ Hlt H0 H1 L0 L1).
  - intros Ho. apply overlap_sym in Ho.
    exact (ForallOrdPairs_nth_error _ _ Hp j i _ _ Hlt H1 H0 L1 L0 Ho).
Qed.

Lemma overlap_after_none n0 r0 rest :
  SoCBusHandler.overlap_after n0 r0 rest = Ok None ->
  Forall (compatible (n0, r0)) rest.
Proof.
  induction rest as [|[n1 r1] rest IH]; simpl; intros H; [constructor|].
  destruct (SoCRegion.is_linker r0 || SoCRegion.is_linker r1) eqn:L.
  - constructor; [|now apply IH].
    intros L0 L1 _. simpl in *.
    apply is_linker_false in L0, L1. rewrite L0, L1 in L. discriminate.
  - destruct (SoCRegion.origin r0) as [o0|] eqn:E0; [|discriminate].
    destruct (SoCRegion.origin r1) as [o1|] eqn:E1; [|discriminate].
    destruct (o0 >=? o1 + SoCRegion.size r1) eqn:C0;
      [|destruct (o1 >=? o0 + SoCRegion.size r0) eqn:C1; [|discriminate]];
      (constructor; [|now apply IH]);
      intros _ _ (oa & ob & Ha & Hb & H1 & H2); simpl in *;
      rewrite E0 in Ha; rewrite E1 in Hb;
      injection Ha as <-; injection Hb as <-; lia.
Qed.

Lemma check_regions_overlap_none regions :
  SoCBusHandler.check_regions_overlap regions = Ok None ->
  pairwise_compatible regions.
Proof.
  induction regions as [|[n0 r0] rest IH]; simpl; intros H; [constructor|].
  destruct (SoCBusHandler.overlap_after n0 r0 rest) as [[p|]|e] eqn:E;
    try discriminate.
  constructor; [now apply overlap_after_none | now apply IH].
Qed.

(** A reported pair really overlaps. *)
Lemma overlap_after_some n0 r0 rest m0 m1 :
  SoCBusHandler.overlap_after n0 r0 rest = Ok (Some (m0, m1)) ->
  m0 = n0 /\ exists r1, In (m1, r1) rest /\ overlap r0 r1 /\
    SoCRegion.cls r0 <> LinkerRegion /\ SoCRegion.cls r1 <> LinkerRegion.
Proof.
  induction rest as [|[n1 r1] rest IH]; simpl; intros H; [discriminate|].
  assert (Hrec : SoCBusHandler.overlap_after n0 r0 rest = Ok (Some (m0, m1)) ->
                 m0 = n0 /\ exists r2, In (m1, r2) ((n1, r1) :: rest) /\
                   overlap r0 r2 /\ SoCRegion.cls r0 <> LinkerRegion /\
                   SoCRegion.cls r2 <> LinkerRegion).
  { intros H'. destruct (IH H') as (-> & r2 & Hin & Hr).
    split; [reflexivity|]. exists r2. split; [now right | exact Hr]. }
  destruct (SoCRegion.is_linker r0 || SoCRegion.is_linker r1) eqn:L; [auto|].
  apply orb_false_iff in L. destruct L as [L0 L1].
  destruct (SoCRegion.origin r0) as [o0|] eqn:E0; [|discriminate].
  destruct (SoCRegion.origin r1) as [o1|] eqn:E1; [|discriminate].
  destruct (o0 >=? o1 + SoCRegion.size r1) eqn:C0; [auto|].
  destruct (o1 >=? o0 + SoCRegion.size r0) eqn:C1; [auto|].
  injection H as <- <-. split; [reflexivity|].
  exists r1. split; [now left|]. split.
  - exists o0, o1. repeat split; try assumption; lia.
  - split; now apply is_linker_false.
Qed.

(** ** The allocator's scan *)

Lemma pair_check_none allocated candidate :
  SoCBusHandler.check_regions_overlap
    [("0"%string, allocated); ("1"%string, candidate)] = Ok None ->
  compatible ("0"%string, allocated) ("1"%string, candidate).
Proof.
  intros H. apply check_regions_overlap_none in H.
  inversion H as [|? ? Hhd _]; subst. now inversion Hhd.
Qed.

Lemma pair_check_some allocated candidate p :
  SoCBusHandler.check_regions_overlap
    [("0"%string, allocated); ("1"%string, candidate)] = Ok (Some p) ->
  overlap allocated candidate.
Proof.
  cbn [SoCBusHandler.check_regions_overlap]. intros H.
  destruct (SoCBusHandler.overlap_after "0" allocated [("1"%string, candidate)])
    as [[[m0 m1]|]|e] eqn:E; try discriminate.
  apply overlap_after_some in E.
  destruct E as (_ & r1 & [Hin|[]] & Ho & _).
  now injection Hin as _ <-.
Qed.

Lemma first_overlap_none regions candidate :
  SoCBusHandler.first_overlap regions candidate = Ok None ->
  forall e, In e regions -> compatible e ("1"%string, candidate).
Proof.
  induction regions as [|[n a] rest IH];
    cbn [SoCBusHandler.first_overlap]; intros H e He; [contradiction|].
  destruct (SoCBusHandler.check_regions_overlap
              [("0"%string, a); ("1"%string, candidate)])
    as [[p|]|err] eqn:E; try discriminate.
  destruct He as [<-|He]; [|now apply IH].
  exact (pair_check_none _ _ E).
Qed.

Lemma first_overlap_some regions candidate allocated :
  SoCBusHandler.first_overlap regions candidate = Ok (Some allocated) ->
  (exists n, In (n, allocated) regions) /\ overlap allocated candidate.
Proof.
  induction regions as [|[n a] rest IH];
    cbn [SoCBusHandler.first_overlap]; intros H; [discriminate|].
  destruct (SoCBusHandler.check_regions_overlap
              [("0"%string, a); ("1"%string, candidate)])
    as [[p|]|err] eqn:E; try discriminate.
  - injection H as <-. split; [exists n; now left|].
    exact (pair_check_some _ _ _ E).
  - destruct (IH H) as [[n' Hin] Ho]. split; [|assumption].
    exists n'. now right.
Qed.

(** The skip-ahead moves the search origin strictly upwards. *)
Lemma first_overlap_advances regions origin size cached allocated :
  SoCBusHandler.first_overlap regions
    (SoCBusHandler.candidate_at origin size cached) = Ok (Some allocated) ->
  exists ao, SoCRegion.origin allocated = Some ao /\
             origin < ao + SoCRegion.size allocated.
Proof.
  intros H. apply first_overlap_some in H.
  destruct H as (_ & oa & ob & Ha & Hb & _ & H2).
  simpl in Hb. injection Hb as <-. now exists oa.
Qed.

Lemma filter_length_lt {A} (p q : A -> bool) (l : list A) (a : A) :
  (forall x, In x l -> q x = true -> p x = true) ->
  In a l -> p a = true -> q a = false ->
  (List.length (filter q l) < List.length (filter p l))%nat.
Proof.
  intros Hsub Hin Hp Hq.
  assert (Hle : forall l', (forall x, In x l' -> q x = true -> p x = true) ->
                 (List.length (filter q l') <= List.length (filter p l'))%nat).
  { induction l' as [|x l' IH]; simpl; intros Hs; [lia|].
    assert (IH' := IH (fun y Hy => Hs y (or_intror Hy))).
    destruct (q x) eqn:Q.
    - rewrite (Hs x (or_introl eq_refl) Q). simpl. lia.
    - destruct (p x); simpl; lia. }
  induction l as [|x l IH]; simpl in *; [contradiction|].
  destruct Hin as [->|Hin].
  - rewrite Hp, Hq. simpl.
    specialize (Hle l (fun y Hy => Hsub y (or_intror Hy))). lia.
  - specialize (IH (fun y Hy => Hsub y (or_intror Hy)) Hin).
    destruct (q x) eqn:Q.
    + rewrite (Hsub x (or_introl eq_refl) Q). simpl. lia.
    + destruct (p x); simpl; lia.
Qed.

Lemma regions_above_advances regions n allocated origin ao :
  In (n, allocated) regions ->
  SoCRegion.origin allocated = Some ao ->
  origin < ao + SoCRegion.size allocated ->
  (regions_above regions (ao + SoCRegion.size allocated)
   < regions_above regions origin)%nat.
Proof.
  intros Hin Hao Hlt. unfold regions_above.
  apply filter_length_lt with (a := (n, allocated)); try assumption.
  - intros [m r] _. unfold ends_above. simpl.
    destruct (SoCRegion.origin r); [|discriminate].
    intros H. apply Z.ltb_lt in H. apply Z.ltb_lt. lia.
  - unfold ends_above. simpl. rewrite Hao. now apply Z.ltb_lt.
  - unfold ends_above. simpl. rewrite Hao. apply Z.ltb_ge. lia.
Qed.

Lemma regions_above_le regions origin :
  (regions_above regions origin <= List.length regions)%nat.
Proof. unfold regions_above. apply filter_length_le. Qed.

(** One iteration per allocated region still above the origin, and one
    more, are enough. *)
Lemma scan_enough_fuel fuel regions search_end size cached :
  forall origin,
    (regions_above regions origin < fuel)%nat ->
    SoCBusHandler.scan fuel regions search_end size cached origin <> None.
Proof.
  induction fuel as [|fuel IH]; intros origin Hfuel; [lia|].
  cbn [SoCBusHandler.scan]. destruct (origin + size <? search_end); [|discriminate].
  destruct (SoCBusHandler.first_overlap regions
              (SoCBusHandler.candidate_at origin size cached))
    as [[allocated|]|e] eqn:E; try discriminate.
  destruct (first_overlap_advances _ _ _ _ _ E) as (ao & Hao & Hlt).
  rewrite Hao. apply IH.
  apply first_overlap_some in E. destruct E as [[n Hin] _].
  pose proof (regions_above_advances _ _ _ _ _ Hin Hao Hlt). lia.
Qed.

(** The loop is also bounded by the distance to the end of the search
    region. *)
Lemma scan_bounded_by_search_end fuel regions search_end size cached :
  forall origin,
    (Z.to_nat (search_end - (origin + size)) < fuel)%nat ->
    SoCBusHandler.scan fuel regions search_end size cached origin <> None.
Proof.
  induction fuel as [|fuel IH]; intros origin Hfuel; [lia|].
  cbn [SoCBusHandler.scan]. destruct (origin + size <? search_end) eqn:C; [|discriminate].
  apply Z.ltb_lt in C.
  destruct (SoCBusHandler.first_overlap regions
              (SoCBusHandler.candidate_at origin size cached))
    as [[allocated|]|e] eqn:E; try discriminate.
  destruct (first_overlap_advances _ _ _ _ _ E) as (ao & Hao & Hlt).
  rewrite Hao. apply IH. lia.
Qed.

(** More fuel does not change a result. *)
Lemma scan_fuel_mono fuel regions search_end size cached :
  forall fuel' origin r,
    SoCBusHandler.scan fuel regions search_end size cached origin = Some r ->
    (fuel <= fuel')%nat ->
    SoCBusHandler.scan fuel' regions search_end size cached origin = Some r.
Proof.
  induction fuel as [|fuel IH]; intros fuel' origin r H Hle; [discriminate|].
  destruct fuel' as [|fuel']; [lia|].
  cbn [SoCBusHandler.scan] in *. destruct (origin + size <? search_end); [|assumption].
  destruct (SoCBusHandler.first_overlap regions
              (SoCBusHandler.candidate_at origin size cached))
    as [[allocated|]|e]; try assumption.
  destruct (SoCRegion.origin allocated); [|assumption].
  apply IH; [assumption | lia].
Qed.

Lemma scan_fuel_irrelevant regions search_end size cached origin f1 f2 :
  (regions_above regions origin < f1)%nat ->
  (regions_above regions origin < f2)%nat ->
  SoCBusHandler.scan f1 regions search_end size cached origin =
  SoCBusHandler.scan f2 regions search_end size cached origin.
Proof.
  intros H1 H2.
  pose proof (scan_enough_fuel f1 regions search_end size cached origin H1) as N1.
  pose proof (scan_enough_fuel f2 regions search_end size cached origin H2) as N2.
  destruct (SoCBusHandler.scan f1 regions search_end size cached origin)
    as [r1|] eqn:E1; [|congruence].
  destruct (SoCBusHandler.scan f2 regions search_end size cached origin)
    as [r2|] eqn:E2; [|congruence].
  destruct (Nat.le_ge_cases f1 f2) as [Hle|Hle].
  - rewrite (scan_fuel_mono _ _ _ _ _ _ _ _ E1 Hle) in E2. congruence.
  - rewrite (scan_fuel_mono _ _ _ _ _ _ _ _ E2 Hle) in E1. congruence.
Qed.

Lemma search_enough_fuel regions size cached search_regions :
  forall f1 f2,
    (List.length regions < f1)%nat -> (List.length regions < f2)%nat ->
    SoCBusHandler.search f1 regions search_regions size cached =
    SoCBusHandler.search f2 regions search_regions size cached /\
    SoCBusHandler.search f1 regions search_regions size cached <> None.
Proof.
  intros f1 f2 H1 H2.
  induction search_regions as [|[n sr] rest IH];
    cbn [SoCBusHandler.search]; [split; congruence|].
  destruct (SoCRegion.origin sr) as [so|]; [|split; congruence].
  assert (A1 : (regions_above regions so < f1)%nat)
    by (pose proof (regions_above_le regions so); lia).
  assert (A2 : (regions_above regions so < f2)%nat)
    by (pose proof (regions_above_le regions so); lia).
  rewrite (scan_fuel_irrelevant regions (so + SoCRegion.size sr) size cached so
             f1 f2 A1 A2).
  pose proof (scan_enough_fuel f2 regions (so + SoCRegion.size sr) size cached
                so A2) as N.
  destruct (SoCBusHandler.scan f2 regions (so + SoCRegion.size sr) size cached so)
    as [[c| |e]|]; try (split; congruence).
  exact IH.
Qed.

(** What a selected candidate looks like. *)
Lemma scan_selected fuel regions search_end size cached :
  forall origin candidate,
    SoCBusHandler.scan fuel regions search_end size cached origin
      = Some (SoCBusHandler.Selected candidate) ->
    exists o, origin <= o /\ o + size < search_end /\
      candidate = SoCBusHandler.candidate_at o size cached /\
      SoCBusHandler.first_overlap regions candidate = Ok None.
Proof.
  induction fuel as [|fuel IH]; intros origin candidate H; [discriminate|].
  cbn [SoCBusHandler.scan] in H.
  destruct (origin + size <? search_end) eqn:C; [|discriminate].
  apply Z.ltb_lt in C.
  destruct (SoCBusHandler.first_overlap regions
              (SoCBusHandler.candidate_at origin size cached))
    as [[allocated|]|e] eqn:E; try discriminate.
  - destruct (first_overlap_advances _ _ _ _ _ E) as (ao & Hao & Hlt).
    rewrite Hao in H. destruct (IH _ _ H) as (o & Ho & Hr).
    exists o. split; [lia | exact Hr].
  - injection H as <-. exists origin. repeat split; [lia | assumption..].
Qed.

Lemma search_selected fuel regions size cached search_regions candidate :
  SoCBusHandler.search fuel regions search_regions size cached
    = Some (Ok candidate) ->
  exists n search_region so o,
    In (n, search_region) search_regions /\
    SoCRegion.origin search_region = Some so /\
    so <= o /\ o + size < so + SoCRegion.size search_region /\
    candidate = SoCBusHandler.candidate_at o size cached /\
    SoCBusHandler.first_overlap regions candidate = Ok None.
Proof.
  induction search_regions as [|[n sr] rest IH];
    cbn [SoCBusHandler.search]; intros H; [discriminate|].
  destruct (SoCRegion.origin sr) as [so|] eqn:Eso; [|discriminate].
  destruct (SoCBusHandler.scan fuel regions (so + SoCRegion.size sr) size cached so)
    as [[c| |e]|] eqn:E; try discriminate.
  - injection H as <-.
    destruct (scan_selected _ _ _ _ _ _ _ E) as (o & H1 & H2 & H3 & H4).
    exists n, sr, so, o. repeat split; try assumption. now left.
  - destruct (IH H) as (n' & sr' & so' & o & Hin & Hr).
    exists n', sr', so', o. split; [now right | exact Hr].
Qed.

(** The allocator never reaches the iteration bound of its model. *)
Lemma alloc_region_within_bound self name size cached fuel :
  (List.length (SoCBusHandler.regions self) < fuel)%nat ->
  SoCBusHandler.alloc_region_within fuel self name size cached
  = Some (SoCBusHandler.alloc_region self name size cached).
Proof.
  intros Hfuel. unfold SoCBusHandler.alloc_region, SoCBusHandler.alloc_region_within,
    SoCBusHandler.scan_bound.
  destruct (search_enough_fuel (SoCBusHandler.regions self) size cached
              (SoCBusHandler.search_regions self cached)
              fuel (S (List.length (SoCBusHandler.regions self))) Hfuel
              (Nat.lt_succ_diag_r _)) as [Heq Hsome].
  rewrite <- Heq.
  destruct (SoCBusHandler.search fuel (SoCBusHandler.regions self)
              (SoCBusHandler.search_regions self cached) size cached);
    congruence.
Qed.

(** A region returned by the allocator is a plain region of the requested
    size, placed inside a search region, that overlaps no region of the
    table. *)
Lemma alloc_region_ok self name size cached region :
  SoCBusHandler.alloc_region self name size cached = Ok region ->
  exists o,
    region = SoCBusHandler.candidate_at o size cached /\
    forall e, In e (SoCBusHandler.regions self) -> compatible e (name, region).
Proof.
  unfold SoCBusHandler.alloc_region, SoCBusHandler.alloc_region_within.
  destruct (SoCBusHandler.search _ _ _ _ _) as [[c|e]|] eqn:E; try discriminate.
  intros [= ->].
  destruct (search_selected _ _ _ _ _ _ E)
    as (n & sr & so & o & _ & _ & _ & _ & Hc & Hfree).
  exists o. split; [assumption|].
  intros e He. exact (first_overlap_none _ _ Hfree e He).
Qed.

(** ** Running a method *)

Ltac unfold_method H :=
  unfold bind, get, modify, lift, ret, raise in H; cbn beta iota zeta in H.

Ltac case_split H :=
  match type of H with
  | context [if ?b then _ else _] => destruct b eqn:?
  | context [match ?x with Ok _ => _ | Err _ => _ end] => destruct x eqn:?
  | context [match ?x with Some _ => _ | None => _ end] => destruct x eqn:?
  | context [match ?x with Done _ _ => _ | Raised _ _ => _ end] =>
      destruct x eqn:?
  end.

Ltac run_method H :=
  unfold_method H; try discriminate H;
  repeat (case_split H; cbn beta iota in H; try discriminate H).

Lemma raise_overlap_raises c found self :
  exists e, SoCBusHandler.raise_overlap c found self = Raised e self.
Proof.
  unfold SoCBusHandler.raise_overlap.
  destruct (dict_get (fst found) (SoCBusHandler.regions self)); [|eauto].
  destruct (dict_get (snd found) (SoCBusHandler.regions self)); eauto.
Qed.

(** ** The tables stay free of overlaps *)

Lemma add_region_keeps_tables_ok name region h h' :
  SoCBusHandler.add_region name region h = Done tt h' ->
  tables_ok h -> tables_ok h'.
Proof.
  intros H [Hr Hio]. unfold SoCBusHandler.add_region in H.
  destruct (SoCRegion.cls region).
  - destruct (SoCRegion.origin region) as [o|] eqn:Eo.
    + run_method H.
      all: try (destruct (raise_overlap_raises PlainRegion p
                  (SoCBusHandler.set_regions (dict_set name region) h))
                  as [e He]; congruence).
      all: injection H as <-; split; [|assumption].
      all: match goal with
           | E : SoCBusHandler.check_regions_overlap _ = Ok None |- _ =>
               exact (check_regions_overlap_none _ E)
           end.
    + run_method H. injection H as <-. split; [|assumption].
      match goal with
      | E : SoCBusHandler.alloc_region _ _ _ _ = Ok ?r |- _ =>
          destruct (alloc_region_ok _ _ _ _ _ E) as (o & _ & Hfree)
      end.
      cbn. apply ForallOrdPairs_dict_set; [assumption|].
      intros e He. split; [apply compatible_sym|]; now apply Hfree.
  - run_method H.
    + destruct (raise_overlap_raises IORegion p
                  (SoCBusHandler.set_io_regions (dict_set name region) h))
        as [e He]; congruence.
    + injection H as <-. split; [assumption|].
      match goal with
      | E : SoCBusHandler.check_regions_overlap _ = Ok None |- _ =>
          exact (check_regions_overlap_none _ E)
      end.
  - run_method H.
    + destruct (raise_overlap_raises LinkerRegion p
                  (SoCBusHandler.set_ld_regions (dict_set name region) h))
        as [e He]; congruence.
    + injection H as <-. split; assumption.
Qed.

Lemma add_adapter_tables name interface h i h' :
  SoCBusHandler.add_adapter name interface h = Done i h' ->
  SoCBusHandler.regions h' = SoCBusHandler.regions h /\
  SoCBusHandler.io_regions h' = SoCBusHandler.io_regions h /\
  SoCBusHandler.ld_regions h' = SoCBusHandler.ld_regions h /\
  SoCBusHandler.masters h' = SoCBusHandler.masters h /\
  SoCBusHandler.slaves h' = SoCBusHandler.slaves h.
Proof.
  unfold SoCBusHandler.add_adapter. intros H.
  destruct interface as [i0|]; run_method H; injection H as _ <-; now cbn.
Qed.

Lemma add_master_region_tables name master h h' :
  SoCBusHandler.add_master name master h = Done tt h' ->
  SoCBusHandler.regions h' = SoCBusHandler.regions h /\
  SoCBusHandler.io_regions h' = SoCBusHandler.io_regions h /\
  SoCBusHandler.ld_regions h' = SoCBusHandler.ld_regions h.
Proof.
  unfold SoCBusHandler.add_master. intros H. run_method H.
  all: injection H as <-; cbn.
  all: match goal with
  | E : SoCBusHandler.add_adapter _ _ _ = Done _ _ |- _ =>
      apply add_adapter_tables in E; tauto
  end.
Qed.

(** [add_slave] changes the region tables only through [add_region]. *)
Lemma add_slave_region_tables name slave region h h' :
  SoCBusHandler.add_slave name slave region h = Done tt h' ->
  (SoCBusHandler.regions h' = SoCBusHandler.regions h /\
   SoCBusHandler.io_regions h' = SoCBusHandler.io_regions h /\
   SoCBusHandler.ld_regions h' = SoCBusHandler.ld_regions h) \/
  exists n r h1,
    SoCBusHandler.add_region n r h = Done tt h1 /\
    SoCBusHandler.regions h' = SoCBusHandler.regions h1 /\
    SoCBusHandler.io_regions h' = SoCBusHandler.io_regions h1 /\
    SoCBusHandler.ld_regions h' = SoCBusHandler.ld_regions h1.
Proof.
  unfold SoCBusHandler.add_slave. intros H.
  destruct name as [name|], region as [region|]; run_method H;
    injection H as <-;
    match goal with
    | E : SoCBusHandler.add_adapter _ _ _ = Done _ _ |- _ =>
        apply add_adapter_tables in E; destruct E as (E1 & E2 & E3 & _)
    end; cbn;
    match goal with
    | E : SoCBusHandler.add_region ?n ?r h = Done ?u ?h1 |- _ =>
        destruct u; right; exists n, r, h1; tauto
    | _ => left; tauto
    end.
Qed.

(** An invariant of the three region tables that the fresh handler has and
    [add_region] keeps holds in every reachable state. *)
Section ReachableInvariant.
Variable P : dict SoCRegion.t -> dict SoCRegion.t -> dict SoCRegion.t -> Prop.

Local Abbreviation holds h :=
  (P (SoCBusHandler.regions h) (SoCBusHandler.io_regions h)
     (SoCBusHandler.ld_regions h)).

Hypothesis P_empty : P [] [] [].
Hypothesis P_add_region :
  forall name region h h',
    SoCBusHandler.add_region name region h = Done tt h' -> holds h -> holds h'.

Lemma add_reserved_invariant reserved :
  forall h h',
    SoCBusHandler.add_reserved reserved h = Done tt h' -> holds h -> holds h'.
Proof.
  induction reserved as [|[name r] rest IH]; cbn [SoCBusHandler.add_reserved];
    intros h h' H Hok.
  - injection H as <-. assumption.
  - unfold bind in H.
    destruct (SoCBusHandler.add_region name (SoCBusHandler.reserved_region r) h)
      as [[] h1|e h1] eqn:E; [|discriminate].
    apply (IH h1 h' H). exact (P_add_region _ _ _ _ E Hok).
Qed.

Lemma reachable_invariant h : reachable h -> holds h.
Proof.
  induction 1 as [std dw aw reserved h Hinit
                 | h name region h' _ IH Hadd
                 | h name master h' _ IH Hadd
                 | h name slave region h' _ IH Hadd].
  - unfold SoCBusHandler.init in Hinit.
    repeat match type of Hinit with
           | context [if ?b then _ else _] => destruct b; try discriminate
           end.
    apply (add_reserved_invariant _ _ _ Hinit). exact P_empty.
  - exact (P_add_region _ _ _ _ Hadd IH).
  - destruct (add_master_region_tables _ _ _ _ Hadd) as (E1 & E2 & E3).
    now rewrite E1, E2, E3.
  - destruct (add_slave_region_tables _ _ _ _ _ Hadd)
      as [(E1 & E2 & E3)|(n & r & h1 & Hr & E1 & E2 & E3)];
      rewrite E1, E2, E3.
    + assumption.
    + exact (P_add_region _ _ _ _ Hr IH).
Qed.
End ReachableInvariant.

Lemma reachable_tables_ok h : reachable h -> tables_ok h.
Proof.
  apply (reachable_invariant
           (fun r io _ => pairwise_compatible r /\ pairwise_compatible io)).
  - split; constructor.
  - intros name region h0 h'. apply add_region_keeps_tables_ok.
Qed.

(** ** What a call to add_region leaves behind *)

(** A successful call stores one region under [name]: the given one, or
    the allocated one when no origin was given. *)
Lemma add_region_done name region h h' :
  SoCBusHandler.add_region name region h = Done tt h' ->
  (SoCRegion.origin region <> None \/ SoCRegion.cls region <> PlainRegion) /\
  h' = store_region name region h
  \/
  SoCRegion.cls region = PlainRegion /\ SoCRegion.origin region = None /\
  exists allocated,
    SoCBusHandler.alloc_region h name (SoCRegion.size region)
      (SoCRegion.cached region) = Ok allocated /\
    h' = store_region name allocated h.
Proof.
  intros H. unfold SoCBusHandler.add_region, store_region in *.
  destruct (SoCRegion.cls region) eqn:C.
  - destruct (SoCRegion.origin region) as [o|] eqn:Eo.
    + left. split; [left; discriminate|]. run_method H.
      all: try (destruct (raise_overlap_raises PlainRegion p
                  (SoCBusHandler.set_regions (dict_set name region) h))
                  as [e He]; congruence).
      all: now injection H as <-.
    + right. repeat split. run_method H. injection H as <-.
      eexists. split; [reflexivity|].
      match goal with
      | E : SoCBusHandler.alloc_region _ _ _ _ = Ok ?r |- _ =>
          destruct (alloc_region_ok _ _ _ _ _ E) as (o & -> & _)
      end.
      reflexivity.
  - left. split; [right; discriminate|]. run_method H.
    + destruct (raise_overlap_raises IORegion p
                  (SoCBusHandler.set_io_regions (dict_set name region) h))
        as [e He]; congruence.
    + now injection H as <-.
  - left. split; [right; discriminate|]. run_method H.
    + destruct (raise_overlap_raises LinkerRegion p
                  (SoCBusHandler.set_ld_regions (dict_set name region) h))
        as [e He]; congruence.
    + now injection H as <-.
Qed.

Lemma overlap_after_linker n0 r0 rest :
  SoCRegion.is_linker r0 = true ->
  SoCBusHandler.overlap_after n0 r0 rest = Ok None.
Proof.
  intros L. induction rest as [|[n1 r1] rest IH]; simpl; [reflexivity|].
  now rewrite L.
Qed.

Lemma check_regions_overlap_linker_only regions :
  linker_only regions -> SoCBusHandler.check_regions_overlap regions = Ok None.
Proof.
  induction 1 as [|[n0 r0] rest L _ IH]; simpl; [reflexivity|].
  now rewrite (overlap_after_linker n0 r0 rest L).
Qed.

Lemma linker_only_dict_set name region regions :
  SoCRegion.is_linker region = true ->
  linker_only regions -> linker_only (dict_set name region regions).
Proof.
  intros L H. apply Forall_forall. intros e He.
  destruct (In_dict_set _ _ _ _ He) as [->|Hin]; [exact L|].
  unfold linker_only in H. rewrite Forall_forall in H. now apply H.
Qed.

Lemma add_region_keeps_linker_only name region h h' :
  SoCBusHandler.add_region name region h = Done tt h' ->
  linker_only (SoCBusHandler.ld_regions h) ->
  linker_only (SoCBusHandler.ld_regions h').
Proof.
  intros H L.
  destruct (add_region_done _ _ _ _ H)
    as [[_ ->]|(C & _ & allocated & Ha & ->)]; unfold store_region.
  - destruct (SoCRegion.cls region) eqn:C; cbn; try assumption.
    apply linker_only_dict_set; [|assumption].
    unfold SoCRegion.is_linker. now rewrite C.
  - destruct (alloc_region_ok _ _ _ _ _ Ha) as (o & -> & _). now cbn.
Qed.

Lemma reachable_linker_only h :
  reachable h -> linker_only (SoCBusHandler.ld_regions h).
Proof.
  apply (reachable_invariant (fun _ _ ld => linker_only ld)).
  - constructor.
  - intros name region h0 h'. apply add_region_keeps_linker_only.
Qed.

(** ** No two registered regions overlap *)

(** C1. After any sequence of successful registration calls on a bus
    handler ([add_region], and also [add_master] and [add_slave]), no two
    regions of the plain table overlap and no two regions of the I/O table
    overlap, where two regions overlap when each starts below the end of the
    other.  Linker regions are exempt: registering one never fails on an
    overlap, it is stored whatever the linker table already holds. *)
Theorem registered_regions_never_overlap (h : SoCBusHandler.t) :
  reachable h ->
  overlap_free (SoCBusHandler.regions h) /\
  overlap_free (SoCBusHandler.io_regions h) /\
  (forall name region,
      SoCRegion.cls region = LinkerRegion ->
      dict_mem name (SoCBusHandler.masters h) = false ->
      SoCBusHandler.add_region name region h
      = Done tt (SoCBusHandler.set_ld_regions (dict_set name region) h)).
Proof.
  intros Hreach.
  destruct (reachable_tables_ok h Hreach) as [Hr Hio].
  split; [now apply pairwise_compatible_overlap_free|].
  split; [now apply pairwise_compatible_overlap_free|].
  intros name region C Hm.
  unfold SoCBusHandler.add_region. rewrite C.
  unfold bind, get, modify, lift, ret, raise. rewrite Hm. cbn.
  rewrite check_regions_overlap_linker_only; [reflexivity|].
  apply linker_only_dict_set.
  - unfold SoCRegion.is_linker. now rewrite C.
  - now apply reachable_linker_only.
Qed.

Lemma bus_rom_sram_reachable : reachable bus_rom_sram.
Proof.
  apply (reach_add_region (store_region "rom" rom fresh_bus) "sram" sram);
    [|reflexivity].
  apply (reach_add_region fresh_bus "rom" rom); [|reflexivity].
  now apply (reach_init "wishbone" 32 32 []).
Defined.

Lemma registered_regions_never_overlap_witness :
  reachable bus_rom_sram /\
  overlap_free (SoCBusHandler.regions bus_rom_sram) /\
  overlap_free (SoCBusHandler.io_regions bus_rom_sram) /\
  (forall name region,
      SoCRegion.cls region = LinkerRegion ->
      dict_mem name (SoCBusHandler.masters bus_rom_sram) = false ->
      SoCBusHandler.add_region name region bus_rom_sram
      = Done tt (SoCBusHandler.set_ld_regions (dict_set name region)
                   bus_rom_sram)).
Proof.
  split; [exact bus_rom_sram_reachable|].
  exact (registered_regions_never_overlap bus_rom_sram bus_rom_sram_reachable).
Defined.

(** ** The allocator terminates *)

(** C10. [alloc_region] terminates, for every state of the region tables
    and every size (in particular every size above zero): any iteration
    budget above the number of allocated regions yields the same definite
    result, the one [alloc_region] gives.  The reasons are the ones the loop
    shows: a candidate that conflicts with an allocated region moves the
    search origin to that region's end, which is strictly above the current
    origin, and the loop only runs while the candidate ends below the end of
    the search region, so a budget above that distance is enough as well. *)
Theorem alloc_region_terminates (self : SoCBusHandler.t) (name : string)
  (size : Z) (cached : bool) :
  (forall fuel,
      (List.length (SoCBusHandler.regions self) < fuel)%nat ->
      SoCBusHandler.alloc_region_within fuel self name size cached
      = Some (SoCBusHandler.alloc_region self name size cached)) /\
  (forall origin allocated,
      SoCBusHandler.first_overlap (SoCBusHandler.regions self)
        (SoCBusHandler.candidate_at origin size cached) = Ok (Some allocated) ->
      exists ao, SoCRegion.origin allocated = Some ao /\
                 origin < ao + SoCRegion.size allocated) /\
  (forall fuel search_end origin,
      (Z.to_nat (search_end - (origin + size)) < fuel)%nat ->
      SoCBusHandler.scan fuel (SoCBusHandler.regions self) search_end size
        cached origin <> None).
Proof.
  split; [|split].
  - intros fuel Hfuel. now apply alloc_region_within_bound.
  - intros origin allocated. apply first_overlap_advances.
  - intros fuel search_end origin. apply scan_bounded_by_search_end.
Qed.

(** ** Alignment of allocated regions *)

Lemma bus_small_rom_reachable : reachable bus_small_rom.
Proof.
  apply (reach_add_region fresh_bus "rom" (plain (Some 0) 0x1000 true));
    [|reflexivity].
  now apply (reach_init "wishbone" 32 32 []).
Qed.

(** A region returned by [alloc_region] has the requested size and overlaps
    no region of the plain table. *)
Lemma alloc_region_overlaps_nothing self name size cached region :
  SoCBusHandler.alloc_region self name size cached = Ok region ->
  SoCRegion.size region = size /\
  forall n r, In (n, r) (SoCBusHandler.regions self) ->
              SoCRegion.cls r <> LinkerRegion -> ~ overlap r region.
Proof.
  intros H. destruct (alloc_region_ok _ _ _ _ _ H) as (o & -> & Hfree).
  split; [reflexivity|].
  intros n r Hin L. apply (Hfree (n, r) Hin L). discriminate.
Qed.

(** C2. The code departs from the claim on alignment.  On the bus that
    holds one region of size [0x1000] at address [0] (a reachable state), a
    request for a cached region of the power-of-two size [0x2000] is first
    tried at [0], conflicts, and is then placed at the end of the conflicting
    region: [alloc_region] returns origin [0x1000], which is not a multiple
    of [0x2000], and [decoder] rejects the returned region. *)
Theorem alloc_region_returns_misaligned_origin :
  reachable bus_small_rom /\
  power_of_two 0x2000 /\
  SoCBusHandler.alloc_region bus_small_rom "ram" 0x2000 true
  = Ok (plain (Some 0x1000) 0x2000 true) /\
  ~ aligned 0x1000 0x2000 /\
  SoCRegion.decoder (plain (Some 0x1000) 0x2000 true)
  = Err UnalignedDecoderRegion.
Proof.
  split; [exact bus_small_rom_reachable|].
  split; [exists 13; split; [lia | reflexivity]|].
  split; [reflexivity|].
  split; [intros [q Hq]; lia | reflexivity].
Qed.

(** ** Tables with distinct names and placed regions *)

Section DictKeys.
Context {V : Type}.
Implicit Types (d : dict V) (k : string) (v : V).

Lemma In_keys k v d : In (k, v) d -> In k (keys d).
Proof. intros H. apply (in_map fst) in H. exact H. Qed.

Lemma keys_dict_set k v d :
  keys (dict_set k v d) = if dict_mem k d then keys d else keys d ++ [k].
Proof.
  unfold dict_mem.
  induction d as [|[k' v'] d IH]; simpl; [reflexivity|].
  destruct (String.eqb_spec k k') as [->|Hne]; simpl; [reflexivity|].
  rewrite IH. now destruct (dict_get k d).
Qed.

Lemma dict_get_None_keys k d : dict_get k d = None -> ~ In k (keys d).
Proof.
  induction d as [|[k' v'] d IH]; simpl; [tauto|].
  destruct (String.eqb_spec k k') as [->|Hne]; [discriminate|].
  intros H [E|Hin]; [congruence | now apply IH].
Qed.

Lemma NoDup_keys_dict_set k v d :
  NoDup (keys d) -> NoDup (keys (dict_set k v d)).
Proof.
  intros H. rewrite keys_dict_set. unfold dict_mem.
  destruct (dict_get k d) eqn:E; [assumption|].
  apply NoDup_app; [assumption | repeat constructor; simpl; tauto |].
  intros x Hx [<-|[]]. exact (dict_get_None_keys _ _ E Hx).
Qed.

Lemma In_dict_get k v d : NoDup (keys d) -> In (k, v) d -> dict_get k d = Some v.
Proof.
  induction d as [|[k' v'] d IH]; simpl; intros Hnd Hin; [contradiction|].
  inversion Hnd as [|? ? Hfresh Hnd']; subst.
  destruct Hin as [[= -> ->]|Hin].
  - now rewrite String.eqb_refl.
  - destruct (String.eqb_spec k k') as [->|_]; [|now apply IH].
    exfalso. apply Hfresh. exact (In_keys _ _ _ Hin).
Qed.

(** Storing under [k] only has to agree with the entries of other names. *)
Lemma ForallOrdPairs_dict_set_fresh (R : string * V -> string * V -> Prop)
  k v d :
  NoDup (keys d) ->
  ForallOrdPairs R d ->
  (forall e, In e d -> fst e <> k -> R (k, v) e /\ R e (k, v)) ->
  ForallOrdPairs R (dict_set k v d).
Proof.
  induction d as [|[k' v'] d IH]; simpl; intros Hnd Hd Hnew.
  - repeat constructor.
  - inversion Hd as [|? ? Hhd Htl]; subst.
    inversion Hnd as [|? ? Hfresh Hnd']; subst.
    destruct (String.eqb_spec k k') as [->|Hne].
    + constructor; [|assumption].
      apply Forall_forall. intros [k0 v0] He. apply Hnew; [now right|].
      simpl. intros ->. apply Hfresh. exact (In_keys _ _ _ He).
    + constructor.
      * apply Forall_forall. intros e He.
        destruct (In_dict_set _ _ _ _ He) as [->|He'].
        -- apply Hnew; [now left | simpl; congruence].
        -- rewrite Forall_forall in Hhd. now apply Hhd.
      * apply IH; try assumption. intros e He. apply Hnew. now right.
Qed.
End DictKeys.

Lemma placed_dict_set name region regions :
  SoCRegion.origin region <> None ->
  placed regions -> placed (dict_set name region regions).
Proof.
  intros Ho H. apply Forall_forall. intros e He.
  destruct (In_dict_set _ _ _ _ He) as [->|Hin]; [exact Ho|].
  unfold placed in H. rewrite Forall_forall in H. now apply H.
Qed.

(** In a reachable state the plain table has distinct names and only
    regions with an origin. *)
Lemma reachable_regions_wf h :
  reachable h ->
  NoDup (keys (SoCBusHandler.regions h)) /\ placed (SoCBusHandler.regions h).
Proof.
  apply (reachable_invariant (fun r _ _ => NoDup (keys r) /\ placed r)).
  - split; constructor.
  - intros name region h0 h' H [Hnd Hpl].
    destruct (add_region_done _ _ _ _ H)
      as [[Hor ->]|(C & _ & allocated & Ha & ->)]; unfold store_region.
    + destruct (SoCRegion.cls region) eqn:C; cbn; try (split; assumption).
      split; [now apply NoDup_keys_dict_set|].
      apply placed_dict_set; [|assumption]. destruct Hor; congruence.
    + destruct (alloc_region_ok _ _ _ _ _ Ha) as (o & -> & _). cbn.
      split; [now apply NoDup_keys_dict_set|].
      apply placed_dict_set; [discriminate | assumption].
Qed.

(** The overlap check passes on a table of placed, pairwise compatible
    regions. *)
Lemma overlap_after_complete n0 r0 rest :
  SoCRegion.origin r0 <> None -> placed rest ->
  Forall (compatible (n0, r0)) rest ->
  SoCBusHandler.overlap_after n0 r0 rest = Ok None.
Proof.
  intros H0 Hpl Hc.
  induction rest as [|[n1 r1] rest IH]; simpl; [reflexivity|].
  inversion Hpl as [|? ? H1 Hpl']; subst.
  inversion Hc as [|? ? Hc1 Hc']; subst.
  specialize (IH Hpl' Hc'). simpl in H1.
  destruct (SoCRegion.is_linker r0 || SoCRegion.is_linker r1) eqn:L;
    [assumption|].
  apply orb_false_iff in L. destruct L as [L0 L1].
  destruct (SoCRegion.origin r0) as [o0|] eqn:E0; [|congruence].
  destruct (SoCRegion.origin r1) as [o1|] eqn:E1; [|congruence].
  destruct (o0 >=? o1 + SoCRegion.size r1) eqn:C0; [assumption|].
  destruct (o1 >=? o0 + SoCRegion.size r0) eqn:C1; [assumption|].
  exfalso. apply (Hc1 (proj1 (is_linker_false r0) L0)
                      (proj1 (is_linker_false r1) L1)).
  exists o0, o1. simpl. repeat split; try assumption; lia.
Qed.

Lemma check_regions_overlap_complete regions :
  placed regions -> pairwise_compatible regions ->
  SoCBusHandler.check_regions_overlap regions = Ok None.
Proof.
  intros Hpl Hc.
  induction regions as [|[n0 r0] rest IH]; simpl; [reflexivity|].
  inversion Hpl as [|? ? H0 Hpl']; subst.
  inversion Hc as [|? ? Hhd Htl]; subst.
  rewrite (overlap_after_complete n0 r0 rest H0 Hpl' Hhd).
  now apply IH.
Qed.

(** A cached plain region with an origin that overlaps no region stored
    under another name is accepted. *)
Lemma add_region_cached_accepted h name region o :
  reachable h ->
  SoCRegion.cls region = PlainRegion ->
  SoCRegion.origin region = Some o ->
  SoCRegion.cached region = true ->
  (forall n r, n <> name -> dict_get n (SoCBusHandler.regions h) = Some r ->
               ~ overlap r region) ->
  SoCBusHandler.add_region name region h = Done tt (store_region name region h).
Proof.
  intros Hreach C Ho Hc Hfree.
  destruct (reachable_regions_wf h Hreach) as [Hnd Hpl].
  destruct (reachable_tables_ok h Hreach) as [Hpc _].
  unfold SoCBusHandler.add_region, store_region. rewrite C, Ho.
  unfold bind, get, modify, lift, ret, raise. rewrite Hc. cbn.
  rewrite check_regions_overlap_complete; [reflexivity | |].
  - apply placed_dict_set; [congruence | assumption].
  - apply ForallOrdPairs_dict_set_fresh; try assumption.
    intros [n r] Hin Hne. simpl in Hne.
    assert (Hno : ~ overlap r region)
      by (apply (Hfree n r Hne); now apply In_dict_get).
    split; intros _ _ Hov; apply Hno; [now apply overlap_sym | exact Hov].
Qed.

(** ** Arithmetic of the decoder *)

Lemma bit_length_pred_pow2 k : 0 <= k -> bit_length (2 ^ k - 1) = k.
Proof.
  intros Hk. unfold bit_length.
  destruct (Z.eq_dec k 0) as [->|Hne]; [reflexivity|].
  assert (Hdouble : 2 ^ k = 2 * 2 ^ (k - 1)).
  { rewrite <- Z.pow_succ_r by lia. f_equal. lia. }
  pose proof (Z.pow_pos_nonneg 2 (k - 1)) as Hpos.
  destruct (Z.eqb_spec (2 ^ k - 1) 0); [lia|].
  rewrite Z.abs_eq by lia.
  rewrite (Z.log2_unique (2 ^ k - 1) (k - 1)); [lia | lia |].
  replace (Z.succ (k - 1)) with k by lia. lia.
Qed.

Lemma log2_int_pow2 k need_pow2 : 0 <= k -> log2_int (2 ^ k) need_pow2 = Ok k.
Proof.
  intros Hk. unfold log2_int.
  pose proof (Z.pow_pos_nonneg 2 k).
  destruct (Z.eqb_spec (2 ^ k) 0); [lia|].
  rewrite bit_length_pred_pow2 by assumption.
  rewrite Z.shiftl_1_l, Z.eqb_refl. now rewrite andb_false_r.
Qed.

(** Clearing bit 31 does not change the bits below [k <= 31]. *)
Lemma land_clear_bit31_low o k :
  0 <= k <= 31 ->
  Z.land (Z.land o (Z.lnot 0x80000000)) (2 ^ k - 1) = o mod 2 ^ k.
Proof.
  intros Hk.
  replace (2 ^ k - 1) with (Z.ones k) by (rewrite Z.ones_equiv; lia).
  rewrite <- Z.land_ones by lia.
  apply Z.bits_inj'. intros i Hi.
  rewrite !Z.land_spec, Z.lnot_spec by assumption.
  destruct (Z.lt_ge_cases i k) as [Hlt|Hge].
  - rewrite Z.ones_spec_low by lia.
    change 0x80000000 with (2 ^ 31).
    rewrite Z.pow2_bits_false by lia. now rewrite !andb_true_r.
  - rewrite Z.ones_spec_high by lia. now rewrite !andb_false_r.
Qed.

Lemma not_aligned_mod o k : 0 <= k -> ~ aligned o (2 ^ k) -> o mod 2 ^ k <> 0.
Proof.
  intros Hk Hna Hmod. apply Hna. exists (o / 2 ^ k).
  pose proof (Z.pow_pos_nonneg 2 k).
  pose proof (Z.div_mod o (2 ^ k)). lia.
Qed.

(** [decoder] is where a misplaced origin is detected. *)
Lemma decoder_rejects_misaligned region o k :
  SoCRegion.origin region = Some o ->
  SoCRegion.size region = 2 ^ k -> 0 <= k <= 31 ->
  ~ aligned o (2 ^ k) ->
  SoCRegion.decoder region = Err UnalignedDecoderRegion.
Proof.
  intros Ho Hs Hk Hna. unfold SoCRegion.decoder.
  rewrite Ho, Hs, log2_int_pow2 by lia. cbn [rbind].
  rewrite land_clear_bit31_low by assumption.
  destruct (Z.eqb_spec (o mod 2 ^ k) 0) as [E|_]; [|reflexivity].
  exfalso. exact (not_aligned_mod o k (proj1 Hk) Hna E).
Qed.

Lemma odd_size_not_power_of_two : ~ power_of_two 0x3000.
Proof.
  intros (k & Hk & E).
  assert (Hlt : k < 14).
  { destruct (Z.lt_ge_cases k 14) as [|Hge]; [assumption|].
    pose proof (Z.pow_le_mono_r 2 14 k). change (2 ^ 14) with 16384 in *. lia. }
  assert (Hcases : k = 0 \/ k = 1 \/ k = 2 \/ k = 3 \/ k = 4 \/ k = 5 \/ k = 6 \/
                   k = 7 \/ k = 8 \/ k = 9 \/ k = 10 \/ k = 11 \/ k = 12 \/
                   k = 13) by lia.
  repeat (destruct Hcases as [->|Hcases]; [discriminate E|]).
  subst k. discriminate E.
Qed.

(** ** Alignment of regions given with an origin *)

(** C3, as stated, fails: on a fresh bus, [add_region] accepts and stores a
    cached region at [0x1000] of size [0x3000], although the size is not a
    power of two and the origin is not a multiple of the size. *)
Lemma add_region_accepts_misaligned_region :
  ~ power_of_two (SoCRegion.size odd_region) /\
  ~ aligned 0x1000 (SoCRegion.size odd_region) /\
  SoCRegion.origin odd_region = Some 0x1000 /\
  SoCBusHandler.add_region "ram" odd_region fresh_bus
  = Done tt (store_region "ram" odd_region fresh_bus) /\
  dict_get "ram" (SoCBusHandler.regions (store_region "ram" odd_region fresh_bus))
  = Some odd_region.
Proof.
  split; [exact odd_size_not_power_of_two|].
  split; [intros [q Hq]; cbn in Hq; lia|].
  repeat split.
Qed.

(** C3, amended.  [add_region] validates neither the size nor the alignment
    of a region given with an origin: in every reachable state, a cached
    plain region that overlaps no region stored under another name is
    accepted and stored, whatever its size and origin.  A misplaced origin
    is only detected later by [decoder], which fails when the origin is not
    a multiple of the (power-of-two, at most [2^31]) size. *)
Theorem add_region_does_not_validate_alignment (h : SoCBusHandler.t)
  (name : string) (region : SoCRegion.t) (o : Z) :
  reachable h ->
  SoCRegion.cls region = PlainRegion ->
  SoCRegion.origin region = Some o ->
  SoCRegion.cached region = true ->
  (forall n r, n <> name -> dict_get n (SoCBusHandler.regions h) = Some r ->
               ~ overlap r region) ->
  SoCBusHandler.add_region name region h
  = Done tt (SoCBusHandler.set_regions (dict_set name region) h) /\
  dict_get name
    (SoCBusHandler.regions (SoCBusHandler.set_regions (dict_set name region) h))
  = Some region /\
  (forall k, SoCRegion.size region = 2 ^ k -> 0 <= k <= 31 ->
             ~ aligned o (2 ^ k) ->
             SoCRegion.decoder region = Err UnalignedDecoderRegion).
Proof.
  intros Hreach C Ho Hc Hfree.
  split; [|split].
  - rewrite (add_region_cached_accepted h name region o Hreach C Ho Hc Hfree).
    unfold store_region. now rewrite C.
  - cbn. apply dict_get_set_same.
  - intros k Hs Hk Hna. exact (decoder_rejects_misaligned region o k Ho Hs Hk Hna).
Qed.

Lemma add_region_does_not_validate_alignment_witness :
  reachable bus_rom_sram /\
  SoCBusHandler.add_region "ram" (plain (Some 0x21000) 0x3000 true) bus_rom_sram
  = Done tt (SoCBusHandler.set_regions
               (dict_set "ram" (plain (Some 0x21000) 0x3000 true)) bus_rom_sram).
Proof.
  split; [exact bus_rom_sram_reachable|].
  refine (proj1 (add_region_does_not_validate_alignment bus_rom_sram "ram"
                   (plain (Some 0x21000) 0x3000 true) 0x21000
                   bus_rom_sram_reachable eq_refl eq_refl eq_refl _)).
  intros n r Hne Hget (oa & ob & Ha & Hb & H1 & H2).
  cbn in Hget.
  destruct (String.eqb n "rom"); [injection Hget as <-|];
    [|destruct (String.eqb n "sram"); [injection Hget as <-|discriminate]];
    cbn in Ha, Hb, H1, H2; injection Ha as <-; injection Hb as <-; lia.
Defined.

(** ** Uncached regions and I/O space *)

Lemma check_region_is_in_true region container :
  SoCBusHandler.check_region_is_in region container = Ok true ->
  contained_in region container.
Proof.
  unfold SoCBusHandler.check_region_is_in.
  destruct (SoCRegion.origin region) as [ro|] eqn:Er; [|discriminate].
  destruct (SoCRegion.origin container) as [co|] eqn:Ec; [|discriminate].
  intros [= H]. apply andb_true_iff in H. destruct H as [H1 H2].
  exists ro, co. repeat split; try assumption; lia.
Qed.

Lemma check_region_is_in_false region container ro co :
  SoCRegion.origin region = Some ro ->
  SoCRegion.origin container = Some co ->
  ~ contained_in region container ->
  SoCBusHandler.check_region_is_in region container = Ok false.
Proof.
  intros Er Ec Hn. unfold SoCBusHandler.check_region_is_in. rewrite Er, Ec.
  destruct ((ro >=? co) && (ro + SoCRegion.size region
                            <? co + SoCRegion.size container)) eqn:E;
    [|reflexivity].
  exfalso. apply Hn. apply andb_true_iff in E. destruct E as [H1 H2].
  exists ro, co. repeat split; try assumption; lia.
Qed.

Lemma check_region_is_io_from_true ios region :
  forall is_io,
    SoCBusHandler.check_region_is_io_from is_io ios region = Ok true ->
    is_io = true \/
    exists n io_region, In (n, io_region) ios /\ contained_in region io_region.
Proof.
  induction ios as [|[n io_region] rest IH]; simpl; intros is_io H.
  - left. congruence.
  - destruct (SoCBusHandler.check_region_is_in region io_region)
      as [[|]|e] eqn:E; [| |discriminate].
    + right. exists n, io_region. split; [now left|].
      now apply check_region_is_in_true.
    + destruct (IH _ H) as [->|(n' & io' & Hin & Hc)]; [now left|].
      right. exists n', io'. split; [now right | assumption].
Qed.

Lemma check_region_is_io_from_false ios region ro :
  SoCRegion.origin region = Some ro ->
  placed ios ->
  (forall n io_region, In (n, io_region) ios -> ~ contained_in region io_region) ->
  forall is_io,
    SoCBusHandler.check_region_is_io_from is_io ios region = Ok is_io.
Proof.
  intros Er Hpl Hnone.
  induction ios as [|[n io_region] rest IH]; simpl; intros is_io; [reflexivity|].
  inversion Hpl as [|? ? Hp Hpl']; subst. simpl in Hp.
  destruct (SoCRegion.origin io_region) as [co|] eqn:Ec; [|congruence].
  rewrite (check_region_is_in_false region io_region ro co Er Ec
             (Hnone n io_region (or_introl eq_refl))).
  apply IH; [assumption|]. intros n' io' Hin. apply (Hnone n' io'). now right.
Qed.

(** An I/O region declared without an origin makes the containment test
    raise: the loop of [check_region_is_io] visits every I/O region, and
    comparing an origin with [None] is a [TypeError]. *)
Lemma check_region_is_io_from_unplaced ios region ro :
  SoCRegion.origin region = Some ro ->
  (exists n io_region, In (n, io_region) ios /\
                       SoCRegion.origin io_region = None) ->
  forall is_io,
    SoCBusHandler.check_region_is_io_from is_io ios region = Err TypeError.
Proof.
  intros Er. induction ios as [|[n io_region] rest IH];
    intros (n' & io' & Hin & Hnone) is_io; [destruct Hin|].
  cbn [SoCBusHandler.check_region_is_io_from].
  unfold SoCBusHandler.check_region_is_in at 1. rewrite Er.
  destruct (SoCRegion.origin io_region) as [co|] eqn:Ec; [|reflexivity].
  assert (Hrest : exists n io_region,
             In (n, io_region) rest /\ SoCRegion.origin io_region = None).
  { destruct Hin as [[= <- <-]|Hin]; [congruence|]. now exists n', io'. }
  destruct ((ro >=? co) &&
            (ro + SoCRegion.size region <? co + SoCRegion.size io_region));
    now apply IH.
Qed.

Lemma bus_with_unplaced_io_reachable : reachable bus_with_unplaced_io.
Proof.
  apply (reach_add_region fresh_bus "io1" io_without_origin);
    [|vm_compute; reflexivity].
  now apply (reach_init "wishbone" 32 32 []).
Qed.

(** C4, as stated, fails in its error: [add_region] accepts an
    [SoCIORegion] declared without an origin on a fresh bus, and from then
    on an uncached region that no I/O region contains is refused with a
    [TypeError], raised by the comparison in [check_region_is_in], not with
    the "not cached but not in IO region" error. *)
Lemma uncached_region_can_fail_with_type_error :
  reachable bus_with_unplaced_io /\
  SoCRegion.cls csr_upper_half = PlainRegion /\
  SoCRegion.origin csr_upper_half = Some 0x80000000 /\
  SoCRegion.cached csr_upper_half = false /\
  ~ (exists n io_region,
        In (n, io_region) (SoCBusHandler.io_regions bus_with_unplaced_io) /\
        contained_in csr_upper_half io_region) /\
  SoCBusHandler.add_region "csr" csr_upper_half bus_with_unplaced_io
  = Raised TypeError bus_with_unplaced_io /\
  TypeError <> UncachedRegionOutsideIO "csr".
Proof.
  split; [exact bus_with_unplaced_io_reachable|].
  repeat (split; [reflexivity|]).
  split; [|split; [vm_compute; reflexivity | discriminate]].
  intros (n & io_region & Hin & ro & co & _ & Hco & _).
  destruct Hin as [[= <- <-]|[]]. discriminate.
Qed.

(** C4. An uncached plain region given with an origin is stored only if
    some declared I/O region contains it, where containment is
    [io.origin <= region.origin] and
    [region.origin + region.size < io.origin + io.size] (strictly): a call
    that returns, or that leaves the handler changed, had such an I/O region.
    When no I/O region contains the region -- a region that coincides with
    an I/O region is not contained in it -- the call raises and leaves the
    handler as it was.  The exception is the "not cached but not in IO
    region" one when every declared I/O region has an origin; when some
    declared I/O region has no origin, the call raises a [TypeError]
    instead, whether or not another I/O region contains the region. *)
Theorem uncached_region_must_lie_in_io_region (h : SoCBusHandler.t)
  (name : string) (region : SoCRegion.t) (o : Z) :
  SoCRegion.cls region = PlainRegion ->
  SoCRegion.origin region = Some o ->
  SoCRegion.cached region = false ->
  let contained :=
    exists n io_region,
      In (n, io_region) (SoCBusHandler.io_regions h) /\
      contained_in region io_region in
  (forall h', SoCBusHandler.add_region name region h = Done tt h' -> contained) /\
  (forall e h', SoCBusHandler.add_region name region h = Raised e h' ->
                h' <> h -> contained) /\
  (~ contained ->
   (exists e, SoCBusHandler.add_region name region h = Raised e h) /\
   (placed (SoCBusHandler.io_regions h) ->
    SoCBusHandler.add_region name region h
    = Raised (UncachedRegionOutsideIO name) h)) /\
  ((exists n io_region,
       In (n, io_region) (SoCBusHandler.io_regions h) /\
       SoCRegion.origin io_region = None) ->
   SoCBusHandler.add_region name region h = Raised TypeError h) /\
  (forall n io_region,
      In (n, io_region) (SoCBusHandler.io_regions h) ->
      SoCRegion.origin io_region = Some o ->
      SoCRegion.size io_region = SoCRegion.size region ->
      ~ contained_in region io_region).
Proof.
  intros C Ho Hc contained.
  assert (Hrun : SoCBusHandler.check_region_is_io h region = Ok true \/
                 exists e, SoCBusHandler.add_region name region h = Raised e h).
  { unfold SoCBusHandler.add_region. rewrite C, Ho.
    unfold bind, get, modify, lift, ret, raise. rewrite Hc. cbn [negb].
    destruct (SoCBusHandler.check_region_is_io h region) as [[|]|e];
      [now left | right; eexists; reflexivity | right; eexists; reflexivity]. }
  assert (Hcontained : SoCBusHandler.check_region_is_io h region = Ok true ->
                       contained).
  { intros H. apply check_region_is_io_from_true in H.
    destruct H as [|H]; [discriminate | exact H]. }
  split; [|split; [|split; [|split]]].
  - intros h' Hdone. destruct Hrun as [H|[e He]];
      [exact (Hcontained H) | congruence].
  - intros e h' Hraised Hchanged.
    destruct Hrun as [H|[e' He]]; [exact (Hcontained H)|].
    rewrite He in Hraised. injection Hraised as _ Hh. congruence.
  - intros Hnot. split.
    + destruct Hrun as [H|H]; [contradiction (Hnot (Hcontained H)) | exact H].
    + intros Hpl. unfold SoCBusHandler.add_region. rewrite C, Ho.
      unfold bind, get, modify, lift, ret, raise. rewrite Hc. cbn [negb].
      unfold SoCBusHandler.check_region_is_io.
      rewrite (check_region_is_io_from_false _ region o Ho Hpl); [reflexivity|].
      intros n io_region Hin Hcon. apply Hnot. now exists n, io_region.
  - intros Hunplaced. unfold SoCBusHandler.add_region. rewrite C, Ho.
    unfold bind, get, modify, lift, ret, raise. rewrite Hc. cbn [negb].
    unfold SoCBusHandler.check_region_is_io.
    now rewrite (check_region_is_io_from_unplaced _ region o Ho Hunplaced).
  - intros n io_region _ Hio Hsize (ro & co & Hr & Hco & _ & Hlt).
    rewrite Ho in Hr. rewrite Hio in Hco. injection Hr as <-. injection Hco as <-.
    lia.
Qed.

Lemma uncached_region_must_lie_in_io_region_witness :
  SoCBusHandler.add_region "csr" csr_upper_half bus_with_io
  = Raised (UncachedRegionOutsideIO "csr") bus_with_io.
Proof.
  destruct (uncached_region_must_lie_in_io_region bus_with_io "csr"
              csr_upper_half 0x80000000 eq_refl eq_refl eq_refl)
    as (_ & _ & Hfail & _ & Hsame).
  apply Hfail.
  - intros (n & io_region & Hin & Hcon).
    apply (Hsame n io_region Hin); [|  | exact Hcon];
      destruct Hin as [[= <- <-]|[]]; reflexivity.
  - repeat constructor. discriminate.
Defined.

(** ** The location table *)

Lemma find_range_some (p : Z -> bool) k :
  forall a n,
    find p (map Z.of_nat (seq a k)) = Some n ->
    Z.of_nat a <= n < Z.of_nat (a + k) /\ p n = true /\
    forall m, Z.of_nat a <= m < n -> p m = false.
Proof.
  induction k as [|k IH]; simpl; intros a n H; [discriminate|].
  destruct (p (Z.of_nat a)) eqn:E.
  - injection H as <-. split; [lia|]. split; [assumption|]. intros m Hm. lia.
  - destruct (IH _ _ H) as (Hr & Hp & Hbelow).
    split; [lia|]. split; [assumption|].
    intros m Hm. destruct (Z.eq_dec m (Z.of_nat a)) as [->|Hne]; [assumption|].
    apply Hbelow. lia.
Qed.

Lemma find_range_none (p : Z -> bool) k :
  forall a,
    find p (map Z.of_nat (seq a k)) = None ->
    forall m, Z.of_nat a <= m < Z.of_nat (a + k) -> p m = false.
Proof.
  induction k as [|k IH]; simpl; intros a H m Hm; [lia|].
  destruct (p (Z.of_nat a)) eqn:E; [discriminate|].
  destruct (Z.eq_dec m (Z.of_nat a)) as [->|Hne]; [assumption|].
  apply (IH _ H). lia.
Qed.

Lemma loc_used_In self n :
  SoCLocHandler.loc_used self n = true <->
  In n (values (SoCLocHandler.locs self)).
Proof.
  unfold SoCLocHandler.loc_used. rewrite existsb_exists. split.
  - intros (x & Hin & E). apply Z.eqb_eq in E. now subst.
  - intros H. exists n. split; [assumption | apply Z.eqb_refl].
Qed.

Lemma loc_unused_In self n :
  negb (SoCLocHandler.loc_used self n) = true <->
  ~ In n (values (SoCLocHandler.locs self)).
Proof.
  rewrite negb_true_iff, <- loc_used_In.
  destruct (SoCLocHandler.loc_used self n); split; congruence.
Qed.

Lemma alloc_ok self name n :
  SoCLocHandler.alloc self name = Ok n ->
  0 <= n < SoCLocHandler.n_locs self /\
  ~ In n (values (SoCLocHandler.locs self)) /\
  forall m, 0 <= m < n -> In m (values (SoCLocHandler.locs self)).
Proof.
  unfold SoCLocHandler.alloc, SoCLocHandler.range.
  destruct (find _ _) as [n'|] eqn:E; [|discriminate]. intros [= ->].
  destruct (find_range_some _ _ _ _ E) as (Hr & Hp & Hbelow).
  split; [lia|]. split; [now apply loc_unused_In|].
  intros m Hm. apply loc_used_In.
  specialize (Hbelow m ltac:(lia)). now apply negb_false_iff in Hbelow.
Qed.

Lemma alloc_full self name :
  (forall m, 0 <= m < SoCLocHandler.n_locs self ->
             In m (values (SoCLocHandler.locs self))) ->
  SoCLocHandler.alloc self name = Err CapacityExhausted.
Proof.
  intros Hfull. unfold SoCLocHandler.alloc.
  destruct (find _ _) as [n|] eqn:E; [|reflexivity].
  assert (H : SoCLocHandler.alloc self name = Ok n)
    by (unfold SoCLocHandler.alloc; now rewrite E).
  destruct (alloc_ok _ _ _ H) as (Hr & Hfree & _).
  contradiction (Hfree (Hfull n Hr)).
Qed.

Lemma alloc_free self name m :
  0 <= m < SoCLocHandler.n_locs self ->
  ~ In m (values (SoCLocHandler.locs self)) ->
  exists n, SoCLocHandler.alloc self name = Ok n.
Proof.
  intros Hm Hfree. unfold SoCLocHandler.alloc, SoCLocHandler.range.
  destruct (find _ _) as [n|] eqn:E; [now exists n|].
  pose proof (find_range_none _ _ _ E m ltac:(lia)) as H.
  apply negb_false_iff, loc_used_In in H. contradiction.
Qed.

(** ** Allocation of slots *)

(** C5, as stated, fails in its second part: with every slot of the table
    taken, a call of [add] without a slot number still succeeds when the
    name is registered and [use_loc_if_exists] is set. *)
Lemma add_on_full_table_can_succeed :
  (forall m, 0 <= m < SoCLocHandler.n_locs full_csr ->
             In m (values (SoCLocHandler.locs full_csr))) /\
  SoCLocHandler.add "ctrl" None true full_csr
  = Done (SoCLocHandler.mkReport "ctrl" false 0) full_csr.
Proof.
  split; [|reflexivity].
  intros m Hm. cbn in *. left. lia.
Qed.

(** C5, amended.  [alloc] returns the smallest slot number of
    [[0, n_locs)] that is not a slot value of the table, and it does return
    one whenever such a number exists.  Once every slot of [[0, n_locs)] is
    taken, [alloc] fails with the "not enough locations" error, and so does
    every call of [add] without a slot number for a name that is not yet in
    the table; the table is left as it was. *)
Theorem alloc_returns_first_free_slot (self : SoCLocHandler.t) (name : string) :
  (forall n, SoCLocHandler.alloc self name = Ok n ->
             0 <= n < SoCLocHandler.n_locs self /\
             ~ In n (values (SoCLocHandler.locs self)) /\
             forall m, 0 <= m < n -> In m (values (SoCLocHandler.locs self))) /\
  (forall m, 0 <= m < SoCLocHandler.n_locs self ->
             ~ In m (values (SoCLocHandler.locs self)) ->
             exists n, SoCLocHandler.alloc self name = Ok n) /\
  ((forall m, 0 <= m < SoCLocHandler.n_locs self ->
              In m (values (SoCLocHandler.locs self))) ->
   SoCLocHandler.alloc self name = Err CapacityExhausted /\
   forall use_loc_if_exists,
     dict_mem name (SoCLocHandler.locs self) = false ->
     SoCLocHandler.add name None use_loc_if_exists self
     = Raised CapacityExhausted self).
Proof.
  split; [|split].
  - intros n. apply alloc_ok.
  - intros m. apply alloc_free.
  - intros Hfull. pose proof (alloc_full self name Hfull) as Ha.
    split; [assumption|].
    intros u Hfresh. unfold SoCLocHandler.add, bind, get, modify, lift, ret, raise.
    rewrite Hfresh, andb_false_r, Ha. reflexivity.
Qed.

Lemma alloc_returns_first_free_slot_witness :
  SoCLocHandler.add "timer0" None true full_csr = Raised CapacityExhausted full_csr.
Proof.
  refine (proj2 (proj2 (proj2 (alloc_returns_first_free_slot full_csr "timer0"))
                   _) true eq_refl).
  intros m Hm. cbn in *. left. lia.
Defined.

(** ** Range of explicit slot numbers *)

(** C6. The code departs from the claim at the upper bound: the test is
    [n > self.n_locs], so the slot number [n_locs] itself is accepted.  On
    the IRQ table of capacity 32, [add("uart", 32)] stores slot 32, which is
    outside [[0, 32)]; [33] and [-1] are refused, and [alloc] never returns
    [n_locs]. *)
Theorem add_accepts_slot_equal_to_capacity :
  SoCLocHandler.add "uart" (Some 32) false irq32
  = Done (SoCLocHandler.mkReport "uart" false 32)
         (SoCLocHandler.mk "IRQ" [("uart"%string, 32)] 32) /\
  ~ (0 <= 32 < SoCLocHandler.n_locs irq32) /\
  SoCLocHandler.add "uart" (Some 33) false irq32
  = Raised (AttributeError "n_csrs") irq32 /\
  SoCLocHandler.add "uart" (Some (-1)) false irq32
  = Raised (LocationOutOfRange (-1)) irq32 /\
  (forall self name n, SoCLocHandler.alloc self name = Ok n ->
                       n < SoCLocHandler.n_locs self).
Proof.
  split; [reflexivity|]. split; [cbn; lia|].
  split; [reflexivity|]. split; [reflexivity|].
  intros self name n H. destruct (alloc_ok _ _ _ H) as (Hr & _). lia.
Qed.

(** ** Re-registration of a name *)

Lemma add_done_registers name n use self r self' :
  SoCLocHandler.add name n use self = Done r self' ->
  dict_get name (SoCLocHandler.locs self') = Some (SoCLocHandler.location r).
Proof.
  unfold SoCLocHandler.add. intros H.
  destruct n as [n|]; run_method H; injection H as <- <-; cbn;
    try apply dict_get_set_same; assumption.
Qed.

(** C7, as stated, fails in what the call returns: for the registered name
    ["ctrl"], whose slot is 0, [add("ctrl", use_loc_if_exists=True)]
    succeeds and evaluates to [None], not to the slot. *)
Lemma add_returns_none_not_the_slot :
  dict_get "ctrl" (SoCLocHandler.locs full_csr) = Some 0 /\
  SoCLocHandler.add_value "ctrl" None true full_csr
  = Done SoCLocHandler.PyNone full_csr /\
  SoCLocHandler.PyNone <> SoCLocHandler.PyInt 0.
Proof.
  split; [reflexivity|]. split; [reflexivity | discriminate].
Qed.

(** C7. For a name that is registered, [add(name, use_loc_if_exists=True)]
    (with or without a slot number) succeeds and leaves the table as it is:
    the name keeps the slot it has and no slot is consumed.  The call
    evaluates to [None]; the slot the name already has is what its closing
    log line names, the same slot when the call is made twice, and what
    [locs[name]] holds afterwards.  The same holds right after any call of
    [add] that registered the name.  No call of [add] evaluates to anything
    but [None]. *)
Theorem add_use_loc_if_exists_idempotent (self : SoCLocHandler.t)
  (name : string) (n : option Z) (slot : Z) :
  dict_get name (SoCLocHandler.locs self) = Some slot ->
  SoCLocHandler.add name n true self
  = Done (SoCLocHandler.mkReport name false slot) self /\
  SoCLocHandler.add_value name n true self
  = Done SoCLocHandler.PyNone self /\
  bind (SoCLocHandler.add name n true) (fun first =>
  bind (SoCLocHandler.add name n true) (fun second =>
  ret (SoCLocHandler.location first, SoCLocHandler.location second))) self
  = Done (slot, slot) self /\
  bind (SoCLocHandler.add_value name n true) (fun first =>
  bind (SoCLocHandler.add_value name n true) (fun second =>
  s <- get ;; ret (first, second, dict_get name (SoCLocHandler.locs s))))%method
    self
  = Done (SoCLocHandler.PyNone, SoCLocHandler.PyNone, Some slot) self /\
  (forall n0 use self0 r,
      SoCLocHandler.add name n0 use self0 = Done r self ->
      SoCLocHandler.location r = slot) /\
  (forall name0 n0 use self0 v self1,
      SoCLocHandler.add_value name0 n0 use self0 = Done v self1 ->
      v = SoCLocHandler.PyNone).
Proof.
  intros Hget.
  assert (Hadd : SoCLocHandler.add name n true self
                 = Done (SoCLocHandler.mkReport name false slot) self).
  { unfold SoCLocHandler.add, bind, get, modify, lift, ret, raise.
    unfold dict_mem. now rewrite Hget. }
  assert (Hval : SoCLocHandler.add_value name n true self
                 = Done SoCLocHandler.PyNone self).
  { unfold SoCLocHandler.add_value. unfold bind at 1. now rewrite Hadd. }
  split; [assumption|]. split; [assumption|]. split; [|split; [|split]].
  - unfold bind at 1. rewrite Hadd. unfold bind at 1. rewrite Hadd. reflexivity.
  - unfold bind at 1. rewrite Hval. unfold bind at 1. rewrite Hval.
    unfold bind, get, ret. now rewrite Hget.
  - intros n0 u self0 r H. apply add_done_registers in H. congruence.
  - intros name0 n0 u self0 v self1. unfold SoCLocHandler.add_value.
    unfold bind at 1.
    destruct (SoCLocHandler.add name0 n0 u self0); [|discriminate].
    unfold ret. congruence.
Qed.

Lemma add_use_loc_if_exists_idempotent_witness :
  SoCLocHandler.add "ctrl" None true full_csr
  = Done (SoCLocHandler.mkReport "ctrl" false 0) full_csr /\
  SoCLocHandler.add_value "ctrl" None true full_csr
  = Done SoCLocHandler.PyNone full_csr.
Proof.
  destruct (add_use_loc_if_exists_idempotent full_csr "ctrl" None 0 eq_refl)
    as (Hadd & Hval & _).
  split; assumption.
Defined.

(** ** Failed calls *)

Lemma add_adapter_raised name interface h e h' :
  SoCBusHandler.add_adapter name interface h = Raised e h' -> h' = h.
Proof.
  unfold SoCBusHandler.add_adapter. intros H.
  destruct interface as [i|]; run_method H. now injection H as _ <-.
Qed.

(** A failed [add_region] either changed nothing, or raised at the overlap
    check, after the region had been stored. *)
Lemma add_region_raised name region h e h' :
  SoCBusHandler.add_region name region h = Raised e h' ->
  h' = h \/
  (h' = store_region name region h /\
   SoCBusHandler.check_regions_overlap (table_of (SoCRegion.cls region) h')
   <> Ok None).
Proof.
  intros H. unfold SoCBusHandler.add_region, store_region in *.
  destruct (SoCRegion.cls region) eqn:C;
    [destruct (SoCRegion.origin region) as [o|] eqn:Eo| |];
    run_method H;
    try (injection H as _ <-; left; reflexivity);
    right;
    try match type of H with
        | SoCBusHandler.raise_overlap ?c ?p ?s = _ =>
            let He := fresh "He" in
            destruct (raise_overlap_raises c p s) as [? He]; rewrite He in H
        end;
    injection H as _ <-; (split; [reflexivity|]);
    cbn [table_of]; congruence.
Qed.

Lemma add_slave_raised name slave region h e h' :
  SoCBusHandler.add_slave name slave region h = Raised e h' ->
  h' = h \/
  exists n r, region = Some r /\
              h' = final_state (SoCBusHandler.add_region n r h).
Proof.
  unfold SoCBusHandler.add_slave. intros H.
  destruct name as [name|], region as [region|]; run_method H;
    try match goal with
        | E : SoCBusHandler.add_adapter _ _ _ = Raised _ _ |- _ =>
            apply add_adapter_raised in E; subst
        end;
    injection H as _ <-;
    first [ left; reflexivity
          | right;
            match goal with
            | E : SoCBusHandler.add_region ?n ?r h = _ |- _ =>
                exists n, r; rewrite E; split; reflexivity
            end ].
Qed.

Lemma add_master_raised name master h e h' :
  SoCBusHandler.add_master name master h = Raised e h' -> h' = h.
Proof.
  unfold SoCBusHandler.add_master. intros H.
  run_method H;
    try match goal with
        | E : SoCBusHandler.add_adapter _ _ _ = Raised _ _ |- _ =>
            apply add_adapter_raised in E; subst
        end;
    now injection H as _ <-.
Qed.

Lemma loc_add_raised name n use self e self' :
  SoCLocHandler.add name n use self = Raised e self' -> self' = self.
Proof.
  unfold SoCLocHandler.add. intros H.
  destruct n as [n|]; run_method H; now injection H as _ <-.
Qed.

(** C8, as stated, fails: adding a region that overlaps [rom] raises the
    overlap error, and the plain table now holds the rejected region. *)
Lemma failed_add_region_keeps_the_region :
  SoCBusHandler.add_region "bad" over_rom bus_rom_sram
  = Raised (RegionOverlap PlainRegion "rom" "bad")
           (store_region "bad" over_rom bus_rom_sram) /\
  SoCBusHandler.regions (store_region "bad" over_rom bus_rom_sram)
  <> SoCBusHandler.regions bus_rom_sram /\
  dict_get "bad" (SoCBusHandler.regions (store_region "bad" over_rom bus_rom_sram))
  = Some over_rom.
Proof.
  split; [reflexivity|]. split; [discriminate | reflexivity].
Qed.

(** C8, amended.  A failed [add_master] and a failed [SoCLocHandler.add]
    leave the handler exactly as it was.  A failed [add_region] leaves the
    handler as it was when it raises before its store; when it raises at the
    overlap check that follows the store, the region stays stored under its
    name in the table of its class and nothing else has changed.  A failed
    [add_slave] leaves the handler as it was, or as its inner [add_region]
    call left it. *)
Theorem failed_calls_and_the_tables :
  (forall name master h e h',
      SoCBusHandler.add_master name master h = Raised e h' -> h' = h) /\
  (forall name n use_loc_if_exists self e self',
      SoCLocHandler.add name n use_loc_if_exists self = Raised e self' ->
      self' = self) /\
  (forall name region h e h',
      SoCBusHandler.add_region name region h = Raised e h' ->
      h' = h \/
      (h' = store_region name region h /\
       SoCBusHandler.check_regions_overlap (table_of (SoCRegion.cls region) h')
       <> Ok None)) /\
  (forall name slave region h e h',
      SoCBusHandler.add_slave name slave region h = Raised e h' ->
      h' = h \/
      exists n r, region = Some r /\
                  h' = final_state (SoCBusHandler.add_region n r h)).
Proof.
  split; [exact add_master_raised|].
  split; [exact loc_add_raised|].
  split; [exact add_region_raised | exact add_slave_raised].
Qed.

Lemma failed_calls_and_the_tables_witness :
  store_region "bad" over_rom bus_rom_sram = bus_rom_sram \/
  (store_region "bad" over_rom bus_rom_sram
   = store_region "bad" over_rom bus_rom_sram /\
   SoCBusHandler.check_regions_overlap
     (table_of (SoCRegion.cls over_rom) (store_region "bad" over_rom bus_rom_sram))
   <> Ok None).
Proof.
  exact (proj1 (proj2 (proj2 failed_calls_and_the_tables))
           "bad"%string over_rom bus_rom_sram
           (RegionOverlap PlainRegion "rom" "bad")
           (store_region "bad" over_rom bus_rom_sram) eq_refl).
Defined.

(** ** The decoder's window *)

(** Below [2^32], clearing bit 31 is reduction modulo [2^31]. *)
Lemma land_clear_bit31 o :
  0 <= o < 2 ^ 32 -> Z.land o (Z.lnot 0x80000000) = o mod 2 ^ 31.
Proof.
  intros Ho. rewrite <- Z.land_ones by lia.
  apply Z.bits_inj'. intros i Hi.
  rewrite !Z.land_spec, Z.lnot_spec by assumption.
  change 0x80000000 with (2 ^ 31).
  destruct (Z.lt_ge_cases i 31) as [Hlt|Hge].
  - rewrite Z.ones_spec_low, Z.pow2_bits_false by lia. reflexivity.
  - rewrite Z.ones_spec_high by lia.
    destruct (Z.eq_dec i 31) as [->|Hne].
    + rewrite Z.pow2_bits_true by lia. reflexivity.
    + rewrite <- (Z.mod_small o (2 ^ 32)) by assumption.
      rewrite Z.mod_pow2_bits_high by lia. reflexivity.
Qed.

Lemma mod_pow2_div_pow2 a k :
  0 <= k <= 31 -> (a mod 2 ^ 31) / 2 ^ k = (a / 2 ^ k) mod 2 ^ (31 - k).
Proof.
  intros Hk.
  pose proof (Z.pow_pos_nonneg 2 k ltac:(lia) ltac:(lia)) as Hpk.
  pose proof (Z.pow_pos_nonneg 2 (31 - k) ltac:(lia) ltac:(lia)) as Hpm.
  replace (2 ^ 31) with (2 ^ k * 2 ^ (31 - k))
    by (rewrite <- Z.pow_add_r by lia; f_equal; lia).
  rewrite Z.rem_mul_r by lia.
  rewrite (Z.mul_comm (2 ^ k)), Z.div_add by lia.
  rewrite Z.div_small by (apply Z.mod_pos_bound; lia). lia.
Qed.

Lemma shiftr_pow2_2 k : 2 <= k -> Z.shiftr (2 ^ k) 2 = 2 ^ (k - 2).
Proof.
  intros Hk. rewrite Z.shiftr_div_pow2 by lia.
  replace (2 ^ k) with (2 ^ (k - 2) * 2 ^ 2)
    by (rewrite <- Z.pow_add_r by lia; f_equal; lia).
  apply Z.div_mul. discriminate.
Qed.

(** On a region of size [2^k] at an aligned origin below [2^32], the
    decoder compares the address bits [k .. 30]. *)
Lemma decoder_at_window region o k a :
  SoCRegion.origin region = Some o ->
  SoCRegion.size region = 2 ^ k ->
  2 <= k <= 31 -> 0 <= o < 2 ^ 32 -> aligned o (2 ^ k) ->
  decoder_at region a
  = Ok ((a / 2 ^ k) mod 2 ^ (31 - k) =? (o / 2 ^ k) mod 2 ^ (31 - k)).
Proof.
  intros Ho Hs Hk Hrange [q Hq].
  pose proof (Z.pow_pos_nonneg 2 k ltac:(lia) ltac:(lia)) as Hpk.
  unfold decoder_at, SoCRegion.decoder.
  rewrite Ho, Hs, log2_int_pow2 by lia. cbn [rbind].
  rewrite land_clear_bit31_low by lia.
  replace (o mod 2 ^ k) with 0 by (subst o; now rewrite Z.mod_mul by lia).
  cbn [Z.eqb negb]. rewrite shiftr_pow2_2, log2_int_pow2 by lia. cbn [rbind].
  f_equal. f_equal.
  - unfold slice_below_msb, word_address. cbn [nbits value].
    rewrite Z.min_l, (Z.max_l (30 - 1)), Z.max_r by lia.
    rewrite Z.land_ones by lia.
    rewrite Z.shiftr_shiftr by lia.
    rewrite Z.shiftr_div_pow2 by lia.
    f_equal; [f_equal|]; f_equal; lia.
  - rewrite Z.shiftr_shiftr by lia.
    rewrite Z.shiftr_div_pow2 by lia.
    rewrite land_clear_bit31 by assumption.
    replace (2 + (k - 2)) with k by lia.
    apply mod_pow2_div_pow2. lia.
Qed.

Lemma succ_mod_neq q m : 2 <= m -> (q + 1) mod m <> q mod m.
Proof.
  intros Hm E.
  assert (H : (q + 1 - q) mod m = 0).
  { rewrite Zminus_mod, E, Z.sub_diag. apply Z.mod_0_l. lia. }
  replace (q + 1 - q) with 1 in H by lia.
  rewrite Z.mod_1_l in H by lia. discriminate.
Qed.

(** C9, as stated, fails at both ends of the range of sizes.  A region of
    the power-of-two size 2 at the aligned origin 4 is not claimed at the
    word address of [O + S - 4] and is claimed at the word address of
    [O + S]: sizes below the word size shift to zero.  A region of size
    [2^31] at origin 0 is claimed at the word address of [O + S]: the
    decoder leaves address bit 31 out of the comparison. *)
Lemma decoder_round_trip_fails_outside_window :
  (power_of_two 2 /\ aligned 4 2 /\
   decoder_at half_word_region (4 + 2 - 4) = Ok false /\
   decoder_at half_word_region (4 + 2) = Ok true) /\
  (power_of_two 0x80000000 /\ aligned 0 0x80000000 /\
   decoder_at lower_half_region (0 + 0x80000000) = Ok true).
Proof.
  split.
  - split; [exists 1; split; [lia | reflexivity]|].
    split; [exists 2; reflexivity|]. split; reflexivity.
  - split; [exists 31; split; [lia | reflexivity]|].
    split; [exists 0; reflexivity | reflexivity].
Qed.

(** C9, amended.  For a region of the 32-bit address space
    ([0 <= O], [O + S <= 2^32]) whose size [S = 2^k] is a power of two of at
    least the word size 4 and at most [2^31], and whose origin is a multiple
    of [S], the predicate returned by [decoder] is true at the word address
    of [O] and at the word address of [O + S - 4]; it is false at the word
    address of [O + S] when [S <= 2^30] (and true there when [S = 2^31]). *)
Theorem decoder_round_trip (region : SoCRegion.t) (o k : Z) :
  SoCRegion.origin region = Some o ->
  SoCRegion.size region = 2 ^ k ->
  2 <= k <= 31 ->
  0 <= o -> o + 2 ^ k <= 2 ^ 32 ->
  aligned o (2 ^ k) ->
  decoder_at region o = Ok true /\
  decoder_at region (o + 2 ^ k - 4) = Ok true /\
  (k <= 30 -> decoder_at region (o + 2 ^ k) = Ok false) /\
  (k = 31 -> decoder_at region (o + 2 ^ k) = Ok true).
Proof.
  intros Ho Hs Hk Hlow Hhigh Hal.
  pose proof (Z.pow_pos_nonneg 2 k ltac:(lia) ltac:(lia)) as Hpk.
  assert (H4 : 4 <= 2 ^ k)
    by (change 4 with (2 ^ 2); apply Z.pow_le_mono_r; lia).
  assert (Hrange : 0 <= o < 2 ^ 32) by lia.
  rewrite !(decoder_at_window region o k _ Ho Hs Hk Hrange Hal).
  destruct Hal as [q ->].
  assert (D0 : q * 2 ^ k / 2 ^ k = q) by (apply Z.div_mul; lia).
  assert (D1 : (q * 2 ^ k + 2 ^ k - 4) / 2 ^ k = q).
  { replace (q * 2 ^ k + 2 ^ k - 4) with (q * 2 ^ k + (2 ^ k - 4)) by lia.
    rewrite Z.div_add_l by lia. rewrite Z.div_small by lia. lia. }
  assert (D2 : (q * 2 ^ k + 2 ^ k) / 2 ^ k = q + 1).
  { replace (q * 2 ^ k + 2 ^ k) with ((q + 1) * 2 ^ k) by lia.
    apply Z.div_mul. lia. }
  rewrite D0, D1, D2, Z.eqb_refl.
  split; [reflexivity|]. split; [reflexivity|]. split.
  - intros Hk30. f_equal. apply Z.eqb_neq. apply succ_mod_neq.
    change 2 with (2 ^ 1) at 1. apply Z.pow_le_mono_r; lia.
  - intros ->. change (2 ^ (31 - 31)) with 1. now rewrite !Z.mod_1_r.
Qed.

Lemma decoder_round_trip_witness :
  decoder_at sram 0x10000000 = Ok true /\
  decoder_at sram (0x10000000 + 2 ^ 13 - 4) = Ok true /\
  (13 <= 30 -> decoder_at sram (0x10000000 + 2 ^ 13) = Ok false) /\
  (13 = 31 -> decoder_at sram (0x10000000 + 2 ^ 13) = Ok true).
Proof.
  apply (decoder_round_trip sram 0x10000000 13);
    [reflexivity | reflexivity | lia | lia | vm_compute; discriminate
    | exists 0x8000; reflexivity].
Defined.

Lemma alloc_region_terminates_witness :
  SoCBusHandler.alloc_region_within 2 bus_small_rom "ram" 0x2000 true
  = Some (SoCBusHandler.alloc_region bus_small_rom "ram" 0x2000 true).
Proof.
  apply (proj1 (alloc_region_terminates bus_small_rom "ram" 0x2000 true)).
  cbn. lia.
Defined.

(** * Further properties of the modelled code *)

(** ** The overlap check *)

Lemma overlap_after_first n0 r0 rest m0 m1 :
  SoCBusHandler.overlap_after n0 r0 rest = Ok (Some (m0, m1)) ->
  m0 = n0 /\
  exists j r1,
    nth_error rest j = Some (m1, r1) /\ overlap r0 r1 /\
    SoCRegion.cls r0 <> LinkerRegion /\ SoCRegion.cls r1 <> LinkerRegion /\
    forall j' e, (j' < j)%nat -> nth_error rest j' = Some e ->
                 compatible (n0, r0) e.
Proof.
  induction rest as [|[n1 r1] rest IH]; simpl; intros H; [discriminate|].
  assert (Hskip : compatible (n0, r0) (n1, r1) ->
                  SoCBusHandler.overlap_after n0 r0 rest = Ok (Some (m0, m1)) ->
                  m0 = n0 /\
                  exists j r2,
                    nth_error ((n1, r1) :: rest) j = Some (m1, r2) /\
                    overlap r0 r2 /\ SoCRegion.cls r0 <> LinkerRegion /\
                    SoCRegion.cls r2 <> LinkerRegion /\
                    forall j' e, (j' < j)%nat ->
                                 nth_error ((n1, r1) :: rest) j' = Some e ->
                                 compatible (n0, r0) e).
  { intros Hc H'. destruct (IH H') as (-> & j & r2 & Hj & Ho & L0 & L2 & Hbefore).
    split; [reflexivity|]. exists (S j), r2. repeat (split; [assumption|]).
    intros [|j'] e Hlt He; simpl in He.
    - injection He as <-. exact Hc.
    - apply (Hbefore j' e); [lia | assumption]. }
  destruct (SoCRegion.is_linker r0 || SoCRegion.is_linker r1) eqn:L.
  - apply Hskip; [|assumption]. intros L0 L1 _. simpl in *.
    apply is_linker_false in L0, L1. rewrite L0, L1 in L. discriminate.
  - apply orb_false_iff in L. destruct L as [L0 L1].
    destruct (SoCRegion.origin r0) as [o0|] eqn:E0; [|discriminate].
    destruct (SoCRegion.origin r1) as [o1|] eqn:E1; [|discriminate].
    assert (Hapart : o0 >= o1 + SoCRegion.size r1 \/ o1 >= o0 + SoCRegion.size r0 ->
                     compatible (n0, r0) (n1, r1)).
    { intros Hge _ _ (oa & ob & Ha & Hb & H1 & H2). simpl in *.
      rewrite E0 in Ha. rewrite E1 in Hb.
      injection Ha as <-. injection Hb as <-. lia. }
    destruct (o0 >=? o1 + SoCRegion.size r1) eqn:C0;
      [apply Hskip; [apply Hapart; lia | assumption]|].
    destruct (o1 >=? o0 + SoCRegion.size r0) eqn:C1;
      [apply Hskip; [apply Hapart; lia | assumption]|].
    injection H as <- <-. split; [reflexivity|].
    exists 0%nat, r1. split; [reflexivity|]. split.
    + exists o0, o1. repeat split; try assumption; lia.
    + split; [now apply is_linker_false|]. split; [now apply is_linker_false|].
      intros j' e Hlt. lia.
Qed.

(** X1. A pair reported by [check_regions_overlap] is a real conflict, and
    the first one in insertion order: the two names are those of entries at
    positions [i < j] whose regions overlap and are not Linker regions;
    every entry before position [i] is compatible with all entries after
    it, and entry [i] is compatible with the entries between [i] and [j]. *)
Theorem check_regions_overlap_reports_first_overlap
  (regions : dict SoCRegion.t) (n0 n1 : string) :
  SoCBusHandler.check_regions_overlap regions = Ok (Some (n0, n1)) ->
  exists i j r0 r1,
    (i < j)%nat /\
    nth_error regions i = Some (n0, r0) /\
    nth_error regions j = Some (n1, r1) /\
    overlap r0 r1 /\
    SoCRegion.cls r0 <> LinkerRegion /\ SoCRegion.cls r1 <> LinkerRegion /\
    forall i' j' e0 e1,
      (i' < j')%nat -> (i' < i \/ (i' = i /\ j' < j))%nat ->
      nth_error regions i' = Some e0 -> nth_error regions j' = Some e1 ->
      compatible e0 e1.
Proof.
  induction regions as [|[m0 r0] rest IH]; simpl; intros H; [discriminate|].
  destruct (SoCBusHandler.overlap_after m0 r0 rest) as [[[a b]|]|e] eqn:E;
    try discriminate.
  - injection H as -> ->.
    destruct (overlap_after_first _ _ _ _ _ E)
      as (-> & j & r1 & Hj & Ho & L0 & L1 & Hbefore).
    exists 0%nat, (S j), r0, r1.
    split; [lia|]. repeat (split; [assumption || reflexivity|]).
    intros i' j' e0 e1 Hlt [Hi|[-> Hj']] H0 H1; [lia|].
    simpl in H0. injection H0 as <-.
    destruct j' as [|j']; [lia|]. simpl in H1.
    apply (Hbefore j' e1); [lia | assumption].
  - destruct (IH H) as (i & j & ra & rb & Hlt & Hi & Hj & Ho & La & Lb & Hfirst).
    exists (S i), (S j), ra, rb.
    split; [lia|]. repeat (split; [assumption|]).
    intros i' j' e0 e1 Hlt' Hord H0 H1.
    destruct j' as [|j']; [lia|]. simpl in H1.
    destruct i' as [|i']; simpl in H0.
    + injection H0 as <-.
      pose proof (overlap_after_none _ _ _ E) as Hall.
      rewrite Forall_forall in Hall. apply Hall. exact (nth_error_In _ _ H1).
    + apply (Hfirst i' j' e0 e1); [lia | lia | assumption..].
Qed.

Lemma check_regions_overlap_reports_first_overlap_witness :
  exists i j r0 r1,
    (i < j)%nat /\
    nth_error (SoCBusHandler.regions (store_region "bad" over_rom bus_rom_sram)) i
    = Some ("rom"%string, r0) /\
    nth_error (SoCBusHandler.regions (store_region "bad" over_rom bus_rom_sram)) j
    = Some ("bad"%string, r1) /\
    overlap r0 r1.
Proof.
  destruct (check_regions_overlap_reports_first_overlap
              (SoCBusHandler.regions (store_region "bad" over_rom bus_rom_sram))
              "rom" "bad" eq_refl)
    as (i & j & r0 & r1 & Hlt & Hi & Hj & Ho & _).
  exists i, j, r0, r1. repeat split; assumption.
Defined.

Lemma overlap_free_pairwise_compatible regions :
  overlap_free regions -> pairwise_compatible regions.
Proof.
  induction regions as [|[n0 r0] rest IH]; intros Hfree; constructor.
  - apply Forall_forall. intros [n1 r1] Hin L0 L1.
    destruct (In_nth_error _ _ Hin) as [j Hj].
    exact (Hfree 0%nat (S j) n0 r0 n1 r1 ltac:(lia) eq_refl Hj L0 L1).
  - apply IH. intros i j m0 a m1 b Hne Hi Hj.
    apply (Hfree (S i) (S j) m0 a m1 b); [lia | assumption..].
Qed.

(** X2. On a table whose regions all have an origin, [check_regions_overlap]
    returns [None] exactly when no two entries overlap (Linker regions set
    aside): it misses no overlap and reports none that is not there. *)
Theorem check_regions_overlap_passes_iff_overlap_free
  (regions : dict SoCRegion.t) :
  placed regions ->
  (SoCBusHandler.check_regions_overlap regions = Ok None <->
   overlap_free regions).
Proof.
  intros Hpl. split.
  - intros H. apply pairwise_compatible_overlap_free.
    now apply check_regions_overlap_none.
  - intros H. apply check_regions_overlap_complete; [assumption|].
    now apply overlap_free_pairwise_compatible.
Qed.

Lemma check_regions_overlap_passes_iff_overlap_free_witness :
  SoCBusHandler.check_regions_overlap (SoCBusHandler.regions bus_rom_sram)
  = Ok None <-> overlap_free (SoCBusHandler.regions bus_rom_sram).
Proof.
  apply (check_regions_overlap_passes_iff_overlap_free
           (SoCBusHandler.regions bus_rom_sram)).
  repeat constructor; discriminate.
Defined.

(** ** Where the allocator places a region *)

(** X3. A region returned by [alloc_region] is a plain region of the
    requested size and caching mode that lies inside the search space: for a
    cached request, inside [[0, 2^address_width - 1)]; for an uncached
    request, inside a declared I/O region, in the strict sense of
    [check_region_is_in], so that it also passes the I/O test of
    [add_region]. *)
Theorem alloc_region_inside_search_space (self : SoCBusHandler.t)
  (name : string) (size : Z) (cached : bool) (region : SoCRegion.t) :
  SoCBusHandler.alloc_region self name size cached = Ok region ->
  exists o,
    region = SoCBusHandler.candidate_at o size cached /\
    (cached = true ->
     0 <= o /\ o + size < 2 ^ SoCBusHandler.address_width self - 1) /\
    (cached = false ->
     exists n io_region,
       In (n, io_region) (SoCBusHandler.io_regions self) /\
       contained_in region io_region /\
       SoCBusHandler.check_region_is_in region io_region = Ok true).
Proof.
  unfold SoCBusHandler.alloc_region, SoCBusHandler.alloc_region_within.
  destruct (SoCBusHandler.search _ _ _ _ _) as [[c|e]|] eqn:E; try discriminate.
  intros [= ->].
  destruct (search_selected _ _ _ _ _ _ E)
    as (n & sr & so & o & Hin & Hso & Hlow & Hhigh & -> & _).
  exists o. split; [reflexivity|].
  unfold SoCBusHandler.search_regions in Hin. split; intros ->; simpl in Hin.
  - destruct Hin as [[= <- <-]|[]]. cbn in Hso, Hhigh.
    assert (so = 0) by congruence. lia.
  - exists n, sr. split; [assumption|]. split.
    + exists o, so. simpl. repeat split; assumption.
    + unfold SoCBusHandler.check_region_is_in. simpl. rewrite Hso.
      do 2 f_equal. apply andb_true_iff. split; [lia|]. now apply Z.ltb_lt.
Qed.

Lemma alloc_region_inside_search_space_witness :
  exists o,
    plain (Some 0x1000) 0x2000 true = SoCBusHandler.candidate_at o 0x2000 true /\
    (true = true ->
     0 <= o /\ o + 0x2000 < 2 ^ SoCBusHandler.address_width bus_small_rom - 1).
Proof.
  destruct (alloc_region_inside_search_space bus_small_rom "ram" 0x2000 true
              (plain (Some 0x1000) 0x2000 true) eq_refl) as (o & Ho & Hc & _).
  exists o. split; assumption.
Defined.

Lemma scan_selected_position fuel regions search_end size cached :
  forall origin candidate,
    SoCBusHandler.scan fuel regions search_end size cached origin
      = Some (SoCBusHandler.Selected candidate) ->
    exists o,
      candidate = SoCBusHandler.candidate_at o size cached /\
      (o = origin \/
       exists n allocated ao,
         In (n, allocated) regions /\ SoCRegion.origin allocated = Some ao /\
         o = ao + SoCRegion.size allocated).
Proof.
  induction fuel as [|fuel IH]; intros origin candidate H; [discriminate|].
  cbn [SoCBusHandler.scan] in H.
  destruct (origin + size <? search_end); [|discriminate].
  destruct (SoCBusHandler.first_overlap regions
              (SoCBusHandler.candidate_at origin size cached))
    as [[allocated|]|e] eqn:E; try discriminate.
  - destruct (first_overlap_advances _ _ _ _ _ E) as (ao & Hao & _).
    apply first_overlap_some in E. destruct E as [[n Hin] _].
    rewrite Hao in H. destruct (IH _ _ H) as (o & Hc & [->|Hend]).
    + exists (ao + SoCRegion.size allocated). split; [assumption|].
      right. now exists n, allocated, ao.
    + exists o. split; [assumption | now right].
  - injection H as <-. exists origin. split; [reflexivity | now left].
Qed.

(** X4. The origin of a region returned by [alloc_region] is the origin of
    a search region or the end of an already allocated region: these are the
    only positions the scan tries. *)
Theorem alloc_region_origin_is_a_boundary (self : SoCBusHandler.t)
  (name : string) (size : Z) (cached : bool) (region : SoCRegion.t) :
  SoCBusHandler.alloc_region self name size cached = Ok region ->
  exists o,
    region = SoCBusHandler.candidate_at o size cached /\
    ((exists n search_region,
         In (n, search_region) (SoCBusHandler.search_regions self cached) /\
         SoCRegion.origin search_region = Some o) \/
     (exists n allocated ao,
         In (n, allocated) (SoCBusHandler.regions self) /\
         SoCRegion.origin allocated = Some ao /\
         o = ao + SoCRegion.size allocated)).
Proof.
  unfold SoCBusHandler.alloc_region, SoCBusHandler.alloc_region_within.
  generalize (SoCBusHandler.scan_bound self). intros fuel.
  induction (SoCBusHandler.search_regions self cached) as [|[n sr] rest IH];
    cbn [SoCBusHandler.search]; [discriminate|].
  destruct (SoCRegion.origin sr) as [so|] eqn:Eso; [|discriminate].
  destruct (SoCBusHandler.scan fuel (SoCBusHandler.regions self)
              (so + SoCRegion.size sr) size cached so)
    as [[c| |e]|] eqn:E; try discriminate.
  - intros [= ->].
    destruct (scan_selected_position _ _ _ _ _ _ _ E) as (o & -> & [->|Hend]).
    + exists so. split; [reflexivity|]. left. exists n, sr.
      split; [now left | assumption].
    + exists o. split; [reflexivity | now right].
  - intros H. destruct (IH H) as (o & Hc & [(n' & sr' & Hin & Ho)|Hend]).
    + exists o. split; [assumption|]. left. exists n', sr'.
      split; [now right | assumption].
    + exists o. split; [assumption | now right].
Qed.

Lemma alloc_region_origin_is_a_boundary_witness :
  exists o,
    plain (Some 0x1000) 0x2000 true = SoCBusHandler.candidate_at o 0x2000 true /\
    ((exists n search_region,
         In (n, search_region) (SoCBusHandler.search_regions bus_small_rom true) /\
         SoCRegion.origin search_region = Some o) \/
     (exists n allocated ao,
         In (n, allocated) (SoCBusHandler.regions bus_small_rom) /\
         SoCRegion.origin allocated = Some ao /\
         o = ao + SoCRegion.size allocated)).
Proof.
  exact (alloc_region_origin_is_a_boundary bus_small_rom "ram" 0x2000 true
           (plain (Some 0x1000) 0x2000 true) eq_refl).
Defined.

(** X5. With no region allocated yet, a cached request is placed at address
    0 when [size < 2^address_width - 1], and fails for lack of address space
    otherwise; a request for the whole address space therefore fails. *)
Theorem alloc_region_on_empty_table (self : SoCBusHandler.t) (name : string)
  (size : Z) :
  SoCBusHandler.regions self = [] ->
  SoCBusHandler.alloc_region self name size true
  = if size <? 2 ^ SoCBusHandler.address_width self - 1
    then Ok (SoCBusHandler.candidate_at 0 size true)
    else Err InsufficientAddressSpace.
Proof.
  intros Hempty.
  unfold SoCBusHandler.alloc_region, SoCBusHandler.alloc_region_within,
    SoCBusHandler.scan_bound, SoCBusHandler.search_regions.
  rewrite Hempty. cbn.
  now destruct (size <? 2 ^ SoCBusHandler.address_width self - 1).
Qed.

Lemma alloc_region_on_empty_table_witness :
  SoCBusHandler.alloc_region fresh_bus "ram" (2 ^ 32) true
  = Err InsufficientAddressSpace.
Proof.
  exact (alloc_region_on_empty_table fresh_bus "ram" (2 ^ 32) eq_refl).
Defined.

Lemma first_overlap_placed regions origin size cached :
  placed regions ->
  exists r,
    SoCBusHandler.first_overlap regions
      (SoCBusHandler.candidate_at origin size cached) = Ok r.
Proof.
  intros Hpl.
  induction regions as [|[n a] rest IH];
    cbn [SoCBusHandler.first_overlap]; [now exists None|].
  inversion Hpl as [|? ? Ha Hpl']; subst. simpl in Ha.
  cbn [SoCBusHandler.check_regions_overlap SoCBusHandler.overlap_after].
  destruct (SoCRegion.is_linker a
            || SoCRegion.is_linker (SoCBusHandler.candidate_at origin size cached));
    [now apply IH|].
  destruct (SoCRegion.origin a) as [ao|]; [|congruence].
  cbn [SoCRegion.origin SoCBusHandler.candidate_at SoCRegion.size].
  destruct (ao >=? origin + size); [now apply IH|].
  destruct (origin >=? ao + SoCRegion.size a); [now apply IH|].
  now exists (Some a).
Qed.

Lemma scan_placed fuel regions search_end size cached :
  placed regions ->
  forall origin e,
    SoCBusHandler.scan fuel regions search_end size cached origin
    <> Some (SoCBusHandler.ScanRaised e).
Proof.
  intros Hpl. induction fuel as [|fuel IH]; intros origin e; [discriminate|].
  cbn [SoCBusHandler.scan].
  destruct (origin + size <? search_end); [|discriminate].
  destruct (first_overlap_placed regions origin size cached Hpl) as [r Hr].
  rewrite Hr. destruct r as [allocated|]; [|discriminate].
  destruct (first_overlap_advances _ _ _ _ _ Hr) as (ao & Hao & _).
  rewrite Hao. apply IH.
Qed.

Lemma search_placed_errors fuel regions search_regions size cached e :
  placed regions ->
  SoCBusHandler.search fuel regions search_regions size cached = Some (Err e) ->
  e = InsufficientAddressSpace \/
  (e = TypeError /\
   exists n search_region,
     In (n, search_region) search_regions /\
     SoCRegion.origin search_region = None).
Proof.
  intros Hpl.
  induction search_regions as [|[n sr] rest IH];
    cbn [SoCBusHandler.search]; intros H.
  - left. congruence.
  - destruct (SoCRegion.origin sr) as [so|] eqn:Eso.
    + pose proof (scan_placed fuel regions (so + SoCRegion.size sr) size cached
                    Hpl so) as Hscan.
      destruct (SoCBusHandler.scan fuel regions (so + SoCRegion.size sr) size
                  cached so) as [[c| |e']|]; try discriminate.
      * destruct (IH H) as [->|(-> & n' & sr' & Hin & Ho)]; [now left|].
        right. split; [reflexivity|]. exists n', sr'. split; [now right | assumption].
      * now contradiction (Hscan e').
    + injection H as <-. right. split; [reflexivity|].
      exists n, sr. split; [now left | assumption].
Qed.

(** X6. In a state reached by successful registration calls, the only way
    [alloc_region] fails for a cached request is lack of address space; an
    uncached request can in addition fail with a [TypeError], and only when
    a declared I/O region has no origin. *)
Theorem alloc_region_failures (h : SoCBusHandler.t) (name : string) (size : Z)
  (cached : bool) (e : error) :
  reachable h ->
  SoCBusHandler.alloc_region h name size cached = Err e ->
  e = InsufficientAddressSpace \/
  (cached = false /\ e = TypeError /\
   exists n io_region,
     In (n, io_region) (SoCBusHandler.io_regions h) /\
     SoCRegion.origin io_region = None).
Proof.
  intros Hreach.
  destruct (reachable_regions_wf h Hreach) as [_ Hpl].
  pose proof (alloc_region_within_bound h name size cached
                (SoCBusHandler.scan_bound h) (Nat.lt_succ_diag_r _)) as Hbound.
  unfold SoCBusHandler.alloc_region_within in Hbound.
  intros H. rewrite H in Hbound.
  destruct (search_placed_errors _ _ _ _ _ _ Hpl Hbound)
    as [->|(-> & n & sr & Hin & Ho)]; [now left|].
  right. unfold SoCBusHandler.search_regions in Hin.
  destruct cached; simpl in Hin.
  - destruct Hin as [[= <- <-]|[]]. discriminate.
  - split; [reflexivity|]. split; [reflexivity|]. now exists n, sr.
Qed.

Lemma alloc_region_failures_witness :
  InsufficientAddressSpace = InsufficientAddressSpace \/
  (true = false /\ InsufficientAddressSpace = TypeError /\
   exists n io_region,
     In (n, io_region) (SoCBusHandler.io_regions bus_rom_sram) /\
     SoCRegion.origin io_region = None).
Proof.
  exact (alloc_region_failures bus_rom_sram "ram" (2 ^ 32) true
           InsufficientAddressSpace bus_rom_sram_reachable eq_refl).
Defined.

(** ** Looking a region up after it was added *)

Lemma add_region_then_lookup_aux (h h' : SoCBusHandler.t) (name : string)
  (region : SoCRegion.t) :
  SoCBusHandler.add_region name region h = Done tt h' ->
  SoCRegion.origin region <> None \/ SoCRegion.cls region <> PlainRegion ->
  dict_get name (table_of (SoCRegion.cls region) h') = Some region /\
  (forall n, n <> name ->
             dict_get n (table_of (SoCRegion.cls region) h')
             = dict_get n (table_of (SoCRegion.cls region) h)) /\
  (forall c, c <> SoCRegion.cls region -> table_of c h' = table_of c h) /\
  SoCBusHandler.masters h' = SoCBusHandler.masters h /\
  SoCBusHandler.slaves h' = SoCBusHandler.slaves h.
Proof.
  intros H Hgiven.
  destruct (add_region_done _ _ _ _ H) as [[_ ->]|(C & Ho & _)];
    [|destruct Hgiven; congruence].
  unfold store_region.
  destruct (SoCRegion.cls region) eqn:C; cbn;
    (split; [apply dict_get_set_same|]);
    (split; [intros n Hn; now apply dict_get_set_other|]);
    (split; [|split; reflexivity]);
    intros c Hc; destruct c; try reflexivity; congruence.
Qed.

(** X7. After a successful [add_region] of a region given with an origin
    (or of an I/O or Linker region), the table of the region's class maps the
    name to exactly that region, every other name of that table keeps its
    region, and the other two region tables, the masters and the slaves are
    unchanged.  An existing entry of the same name is replaced. *)
Theorem add_region_then_lookup (h h' : SoCBusHandler.t) (name : string)
  (region : SoCRegion.t) :
  SoCBusHandler.add_region name region h = Done tt h' ->
  SoCRegion.origin region <> None \/ SoCRegion.cls region <> PlainRegion ->
  dict_get name (table_of (SoCRegion.cls region) h') = Some region /\
  (forall n, n <> name ->
             dict_get n (table_of (SoCRegion.cls region) h')
             = dict_get n (table_of (SoCRegion.cls region) h)) /\
  (forall c, c <> SoCRegion.cls region -> table_of c h' = table_of c h) /\
  SoCBusHandler.masters h' = SoCBusHandler.masters h /\
  SoCBusHandler.slaves h' = SoCBusHandler.slaves h.
Proof. apply add_region_then_lookup_aux. Qed.

Lemma add_region_then_lookup_witness :
  dict_get "sram" (table_of (SoCRegion.cls sram) bus_rom_sram) = Some sram /\
  (forall n, n <> "sram"%string ->
             dict_get n (table_of (SoCRegion.cls sram) bus_rom_sram)
             = dict_get n (table_of (SoCRegion.cls sram)
                             (store_region "rom" rom fresh_bus))).
Proof.
  assert (Hadd : SoCBusHandler.add_region "sram" sram
                   (store_region "rom" rom fresh_bus) = Done tt bus_rom_sram)
    by (vm_compute; reflexivity).
  assert (Hgiven : SoCRegion.origin sram <> None \/
                   SoCRegion.cls sram <> PlainRegion)
    by (left; discriminate).
  destruct (add_region_then_lookup (store_region "rom" rom fresh_bus)
              bus_rom_sram "sram" sram Hadd Hgiven) as (H1 & H2 & _).
  split; assumption.
Defined.

(** ** What the registration calls keep *)

Lemma add_region_frame name region h h' :
  SoCBusHandler.add_region name region h = Done tt h' ->
  SoCBusHandler.standard h' = SoCBusHandler.standard h /\
  SoCBusHandler.data_width h' = SoCBusHandler.data_width h /\
  SoCBusHandler.address_width h' = SoCBusHandler.address_width h /\
  SoCBusHandler.masters h' = SoCBusHandler.masters h /\
  SoCBusHandler.slaves h' = SoCBusHandler.slaves h /\
  SoCBusHandler.converters h' = SoCBusHandler.converters h.
Proof.
  intros H.
  destruct (add_region_done _ _ _ _ H) as [[_ ->]|(_ & _ & a & _ & ->)];
    unfold store_region;
    match goal with
    | |- context [match SoCRegion.cls ?r with _ => _ end] =>
        destruct (SoCRegion.cls r)
    end; now cbn.
Qed.

Lemma dict_mem_set_mono {V} n k (v : V) d :
  dict_mem n d = true -> dict_mem n (dict_set k v d) = true.
Proof.
  intros H. destruct (String.eqb_spec n k) as [->|Hne].
  - apply dict_mem_set_same.
  - unfold dict_mem in *. now rewrite dict_get_set_other.
Qed.

(** Names are never removed from a region table. *)
Lemma add_region_keeps_names name region h h' c n :
  SoCBusHandler.add_region name region h = Done tt h' ->
  dict_mem n (table_of c h) = true -> dict_mem n (table_of c h') = true.
Proof.
  intros H Hn.
  destruct (add_region_done _ _ _ _ H) as [[_ ->]|(_ & _ & a & _ & ->)];
    unfold store_region;
    match goal with
    | |- context [match SoCRegion.cls ?r with _ => _ end] =>
        destruct (SoCRegion.cls r)
    end; destruct c; cbn in *; try assumption; now apply dict_mem_set_mono.
Qed.

(** The name a successful [add_region] stores under is in one of the
    tables afterwards. *)
Lemma add_region_registers_name name region h h' :
  SoCBusHandler.add_region name region h = Done tt h' ->
  exists c, dict_mem name (table_of c h') = true.
Proof.
  intros H.
  destruct (add_region_done _ _ _ _ H) as [[_ ->]|(_ & _ & a & Ha & ->)];
    unfold store_region.
  - exists (SoCRegion.cls region).
    destruct (SoCRegion.cls region); cbn; apply dict_mem_set_same.
  - exists PlainRegion. destruct (alloc_region_ok _ _ _ _ _ Ha) as (o & -> & _).
    cbn. apply dict_mem_set_same.
Qed.

Lemma add_adapter_done name interface h i h' :
  SoCBusHandler.add_adapter name interface h = Done i h' ->
  interface_data_width i = SoCBusHandler.data_width h /\
  SoCBusHandler.standard h' = SoCBusHandler.standard h /\
  SoCBusHandler.data_width h' = SoCBusHandler.data_width h /\
  SoCBusHandler.address_width h' = SoCBusHandler.address_width h.
Proof.
  unfold SoCBusHandler.add_adapter. intros H.
  destruct interface as [i0|]; run_method H; injection H as <- <-; cbn.
  - repeat split; reflexivity.
  - match goal with
    | E : negb (_ =? _) = false |- _ =>
        apply negb_false_iff, Z.eqb_eq in E; now rewrite E
    end.
Qed.

Lemma add_master_done name master h h' :
  SoCBusHandler.add_master name master h = Done tt h' ->
  exists nm i,
    interface_data_width i = SoCBusHandler.data_width h /\
    dict_mem nm (SoCBusHandler.masters h) = false /\
    SoCBusHandler.masters h' = dict_set nm i (SoCBusHandler.masters h) /\
    SoCBusHandler.slaves h' = SoCBusHandler.slaves h /\
    SoCBusHandler.standard h' = SoCBusHandler.standard h /\
    SoCBusHandler.data_width h' = SoCBusHandler.data_width h /\
    SoCBusHandler.address_width h' = SoCBusHandler.address_width h.
Proof.
  unfold SoCBusHandler.add_master. intros H. run_method H.
  all: injection H as <-.
  all: match goal with
       | E : SoCBusHandler.add_adapter ?n _ _ = Done ?i ?s |- _ =>
           pose proof (add_adapter_done _ _ _ _ _ E) as (Hw & Hs & Hd & Ha);
           apply add_adapter_tables in E;
           destruct E as (_ & _ & _ & Em & Es);
           exists n, i; cbn; rewrite Em, Es, Hs, Hd, Ha;
           repeat split; assumption
       end.
Qed.

Lemma add_slave_done name slave region h h' :
  SoCBusHandler.add_slave name slave region h = Done tt h' ->
  exists nm i h1,
    (h1 = h /\ region = None /\
     dict_mem nm (SoCBusHandler.regions h) = true \/
     exists r, region = Some r /\
               SoCBusHandler.add_region nm r h = Done tt h1) /\
    interface_data_width i = SoCBusHandler.data_width h1 /\
    dict_mem nm (SoCBusHandler.slaves h1) = false /\
    SoCBusHandler.slaves h' = dict_set nm i (SoCBusHandler.slaves h1) /\
    SoCBusHandler.masters h' = SoCBusHandler.masters h1 /\
    SoCBusHandler.standard h' = SoCBusHandler.standard h1 /\
    SoCBusHandler.data_width h' = SoCBusHandler.data_width h1 /\
    SoCBusHandler.address_width h' = SoCBusHandler.address_width h1 /\
    SoCBusHandler.regions h' = SoCBusHandler.regions h1 /\
    SoCBusHandler.io_regions h' = SoCBusHandler.io_regions h1 /\
    SoCBusHandler.ld_regions h' = SoCBusHandler.ld_regions h1.
Proof.
  unfold SoCBusHandler.add_slave. intros H.
  destruct name as [name|], region as [region|]; run_method H.
  all: injection H as <-.
  all: match goal with
       | E : SoCBusHandler.add_adapter ?n _ ?s0 = Done ?i ?s |- _ =>
           pose proof (add_adapter_done _ _ _ _ _ E) as (Hw & Hs & Hd & Ha);
           apply add_adapter_tables in E;
           destruct E as (E1 & E2 & E3 & Em & Es);
           exists n, i, s0; cbn; rewrite E1, E2, E3, Em, Es, Hs, Hd, Ha
       end.
  all: split;
    [ first [ left; repeat split; unfold dict_mem;
              match goal with
              | E : dict_get _ _ = Some _ |- _ => now rewrite E
              end
            | right;
              match goal with
              | E : SoCBusHandler.add_region _ ?r _ = Done ?u _ |- _ =>
                  destruct u; exists r; split; [reflexivity | exact E]
              end ]
    | repeat split; assumption ].
Qed.

Lemma dict_mem_set_inv {V} n k (v : V) d :
  dict_mem n (dict_set k v d) = true -> n = k \/ dict_mem n d = true.
Proof.
  intros H. destruct (String.eqb_spec n k) as [->|Hne]; [now left|].
  right. unfold dict_mem in *. now rewrite dict_get_set_other in H.
Qed.

Lemma In_keys_dict_mem {V} n (d : dict V) : In n (keys d) -> dict_mem n d = true.
Proof.
  unfold dict_mem.
  induction d as [|[k v] d IH]; simpl; [contradiction|].
  destruct (String.eqb_spec n k) as [->|Hne]; [reflexivity|].
  intros [E|Hin]; [congruence | now apply IH].
Qed.

Lemma add_reserved_keeps (Q : SoCBusHandler.t -> Prop) :
  (forall name region h h',
      SoCBusHandler.add_region name region h = Done tt h' -> Q h -> Q h') ->
  forall reserved h h',
    SoCBusHandler.add_reserved reserved h = Done tt h' -> Q h -> Q h'.
Proof.
  intros Hstep reserved.
  induction reserved as [|[name r] rest IH]; cbn [SoCBusHandler.add_reserved];
    intros h h' H Hq.
  - injection H as <-. assumption.
  - unfold bind in H.
    destruct (SoCBusHandler.add_region name (SoCBusHandler.reserved_region r) h)
      as [[] h1|e h1] eqn:E; [|discriminate].
    apply (IH h1 h' H). exact (Hstep _ _ _ _ E Hq).
Qed.

(** What holds of the configuration, the masters and the slaves in every
    reachable state. *)
Lemma reachable_handler_ok h :
  reachable h ->
  (SoCBusHandler.standard h = "wishbone"%string /\
   (SoCBusHandler.data_width h = 32 \/ SoCBusHandler.data_width h = 64) /\
   SoCBusHandler.address_width h = 32) /\
  Forall (fun e => interface_data_width (snd e) = SoCBusHandler.data_width h)
         (SoCBusHandler.masters h) /\
  Forall (fun e => interface_data_width (snd e) = SoCBusHandler.data_width h)
         (SoCBusHandler.slaves h) /\
  (forall n, dict_mem n (SoCBusHandler.slaves h) = true ->
             exists c, dict_mem n (table_of c h) = true).
Proof.
  set (Q := fun h : SoCBusHandler.t =>
    (SoCBusHandler.standard h = "wishbone"%string /\
     (SoCBusHandler.data_width h = 32 \/ SoCBusHandler.data_width h = 64) /\
     SoCBusHandler.address_width h = 32) /\
    Forall (fun e => interface_data_width (snd e) = SoCBusHandler.data_width h)
           (SoCBusHandler.masters h) /\
    Forall (fun e => interface_data_width (snd e) = SoCBusHandler.data_width h)
           (SoCBusHandler.slaves h) /\
    (forall n, dict_mem n (SoCBusHandler.slaves h) = true ->
               exists c, dict_mem n (table_of c h) = true)).
  assert (Hregion : forall name region h h',
             SoCBusHandler.add_region name region h = Done tt h' -> Q h -> Q h').
  { intros name region h0 h' H (Hcfg & Hm & Hs & Hn).
    destruct (add_region_frame _ _ _ _ H) as (E1 & E2 & E3 & E4 & E5 & _).
    unfold Q. rewrite E1, E2, E3, E4, E5.
    repeat (split; [assumption|]).
    intros n Hin. destruct (Hn n Hin) as [c Hc]. exists c.
    exact (add_region_keeps_names _ _ _ _ _ _ H Hc). }
  change (reachable h -> Q h).
  induction 1 as [std dw aw reserved h Hinit
                 | h name region h' _ IH Hadd
                 | h name master h' _ IH Hadd
                 | h name slave region h' _ IH Hadd].
  - unfold SoCBusHandler.init in Hinit.
    destruct (String.eqb_spec std "wishbone") as [->|]; [|discriminate].
    destruct ((dw =? 32) || (dw =? 64)) eqn:Edw; [|discriminate].
    destruct (Z.eqb_spec aw 32) as [->|]; [|discriminate].
    cbn [negb] in Hinit.
    apply (add_reserved_keeps Q Hregion _ _ _ Hinit).
    unfold Q. cbn. split; [|split; [constructor|split; [constructor|]]].
    + split; [reflexivity|]. split; [|reflexivity].
      apply orb_true_iff in Edw. destruct Edw as [E|E]; apply Z.eqb_eq in E; auto.
    + intros n Hn. discriminate.
  - exact (Hregion _ _ _ _ Hadd IH).
  - destruct IH as (Hcfg & Hm & Hs & Hn).
    destruct (add_master_done _ _ _ _ Hadd)
      as (nm & i & Hw & _ & Em & Es & E1 & E2 & E3).
    destruct (add_master_region_tables _ _ _ _ Hadd) as (R1 & R2 & R3).
    unfold Q. rewrite Em, Es, E1, E2, E3.
    split; [assumption|]. split; [|split; [assumption|]].
    + apply Forall_forall. intros e He.
      destruct (In_dict_set _ _ _ _ He) as [->|Hin]; [exact Hw|].
      rewrite Forall_forall in Hm. now apply Hm.
    + intros n Hin. destruct (Hn n Hin) as [c Hc]. exists c.
      destruct c; cbn in *; congruence.
  - destruct (add_slave_done _ _ _ _ _ Hadd)
      as (nm & i & h1 & Hh1 & Hw & _ & Es & Em & E1 & E2 & E3 & R1 & R2 & R3).
    assert (Q1 : Q h1).
    { destruct Hh1 as [(-> & _ & _)|(r & _ & Hr)];
        [assumption | exact (Hregion _ _ _ _ Hr IH)]. }
    assert (Hnm : exists c, dict_mem nm (table_of c h1) = true).
    { destruct Hh1 as [(-> & _ & Hin)|(r & _ & Hr)].
      - now exists PlainRegion.
      - exact (add_region_registers_name _ _ _ _ Hr). }
    destruct Q1 as (Hcfg & Hm & Hs & Hn).
    assert (Htab : forall c, table_of c h' = table_of c h1)
      by (intros c; destruct c; cbn; assumption).
    unfold Q. rewrite Em, Es, E1, E2, E3.
    split; [assumption|]. split; [assumption|]. split.
    + apply Forall_forall. intros e He.
      destruct (In_dict_set _ _ _ _ He) as [->|Hin]; [exact Hw|].
      rewrite Forall_forall in Hs. now apply Hs.
    + intros n Hin. destruct (dict_mem_set_inv _ _ _ _ Hin) as [->|Hold].
      * destruct Hnm as [c Hc]. exists c. now rewrite Htab.
      * destruct (Hn n Hold) as [c Hc]. exists c. now rewrite Htab.
Qed.

(** X8. The configuration of a bus handler is fixed when it is created and
    is a supported one in every state that successful calls lead to: the
    standard is wishbone, the data width 32 or 64, the address width 32. *)
Theorem reachable_bus_configuration (h : SoCBusHandler.t) :
  reachable h ->
  SoCBusHandler.standard h = "wishbone"%string /\
  (SoCBusHandler.data_width h = 32 \/ SoCBusHandler.data_width h = 64) /\
  SoCBusHandler.address_width h = 32.
Proof. intros H. exact (proj1 (reachable_handler_ok h H)). Qed.

Lemma reachable_bus_configuration_witness :
  SoCBusHandler.standard bus_rom_sram = "wishbone"%string /\
  (SoCBusHandler.data_width bus_rom_sram = 32 \/
   SoCBusHandler.data_width bus_rom_sram = 64) /\
  SoCBusHandler.address_width bus_rom_sram = 32.
Proof.
  exact (reachable_bus_configuration bus_rom_sram bus_rom_sram_reachable).
Defined.

(** X9. Every master and every slave held by a bus handler has the data
    width of the bus: [add_master] and [add_slave] store the interface they
    are given only when its width is the bus width, and the adapted
    interface otherwise. *)
Theorem registered_interfaces_have_bus_width (h : SoCBusHandler.t)
  (name : string) (interface : Interface) :
  reachable h ->
  dict_get name (SoCBusHandler.masters h) = Some interface \/
  dict_get name (SoCBusHandler.slaves h) = Some interface ->
  interface_data_width interface = SoCBusHandler.data_width h.
Proof.
  intros Hreach Hget.
  destruct (reachable_handler_ok h Hreach) as (_ & Hm & Hs & _).
  rewrite Forall_forall in Hm, Hs.
  destruct Hget as [Hget|Hget]; apply dict_get_In in Hget;
    [exact (Hm _ Hget) | exact (Hs _ Hget)].
Qed.

Lemma every_slave_region h name :
  reachable h ->
  dict_mem name (SoCBusHandler.slaves h) = true ->
  dict_mem name (SoCBusHandler.regions h) = true \/
  dict_mem name (SoCBusHandler.io_regions h) = true \/
  dict_mem name (SoCBusHandler.ld_regions h) = true.
Proof.
  intros Hreach Hin.
  destruct (reachable_handler_ok h Hreach) as (_ & _ & _ & Hn).
  destruct (Hn name Hin) as [[] Hc]; cbn in Hc; auto.
Qed.

(** X10. Every slave of a bus handler goes by a name under which a region
    is registered, in the plain, the I/O or the Linker table. *)
Theorem every_slave_has_a_region (h : SoCBusHandler.t) (name : string) :
  reachable h ->
  dict_mem name (SoCBusHandler.slaves h) = true ->
  dict_mem name (SoCBusHandler.regions h) = true \/
  dict_mem name (SoCBusHandler.io_regions h) = true \/
  dict_mem name (SoCBusHandler.ld_regions h) = true.
Proof. intros Hreach Hin. exact (every_slave_region h name Hreach Hin). Qed.

Lemma bus_with_slave_reachable : reachable bus_with_slave.
Proof.
  apply (reach_add_slave fresh_bus (Some "rom"%string) (Some wide_rom_interface)
           (Some rom)); [|vm_compute; reflexivity].
  now apply (reach_init "wishbone" 32 32 []).
Defined.

Lemma registered_interfaces_have_bus_width_witness :
  interface_data_width (Adapted wide_rom_interface 32)
  = SoCBusHandler.data_width bus_with_slave.
Proof.
  apply (registered_interfaces_have_bus_width bus_with_slave "rom"
           (Adapted wide_rom_interface 32) bus_with_slave_reachable).
  right. vm_compute. reflexivity.
Defined.

Lemma every_slave_has_a_region_witness :
  dict_mem "rom" (SoCBusHandler.regions bus_with_slave) = true \/
  dict_mem "rom" (SoCBusHandler.io_regions bus_with_slave) = true \/
  dict_mem "rom" (SoCBusHandler.ld_regions bus_with_slave) = true.
Proof.
  apply (every_slave_has_a_region bus_with_slave "rom" bus_with_slave_reachable).
  vm_compute. reflexivity.
Defined.

(** ** The decoders built at finalization *)

Lemma log2_int_round_up n : exists k, log2_int n false = Ok k.
Proof.
  unfold log2_int. destruct (n =? 0); [now exists 0|].
  cbn [andb]. now eexists.
Qed.

Lemma decoder_errors region e :
  SoCRegion.decoder region = Err e ->
  e = UnalignedDecoderRegion \/ (e = TypeError /\ SoCRegion.origin region = None).
Proof.
  unfold SoCRegion.decoder.
  destruct (SoCRegion.origin region) as [o|]; [|intros [= <-]; now right].
  destruct (log2_int_round_up (SoCRegion.size region)) as [k ->]. cbn [rbind].
  destruct (negb _); [intros [= <-]; now left | discriminate].
Qed.

Lemma slave_decoders_errors regions slaves e :
  slave_decoders regions slaves = Err e ->
  exists n,
    In n (keys slaves) /\
    (e = KeyError n /\ dict_get n regions = None \/
     exists region, dict_get n regions = Some region /\
                    SoCRegion.decoder region = Err e).
Proof.
  induction slaves as [|[n s] rest IH]; cbn [slave_decoders]; [discriminate|].
  destruct (dict_get n regions) as [region|] eqn:Eget.
  - destruct (SoCRegion.decoder region) as [d|e'] eqn:Ed; cbn [rbind].
    + destruct (slave_decoders regions rest) as [ds|e'] eqn:Er; cbn [rbind];
        [discriminate|].
      intros [= ->]. destruct (IH eq_refl) as (n' & Hin & Hn').
      exists n'. split; [now right | assumption].
    + intros [= ->]. exists n. split; [now left|]. right. now exists region.
  - intros [= <-]. exists n. split; [now left|]. now left.
Qed.

Lemma slave_decoders_length regions slaves ds :
  slave_decoders regions slaves = Ok ds ->
  List.length ds = List.length slaves /\ map snd ds = map snd slaves.
Proof.
  revert ds.
  induction slaves as [|[n s] rest IH]; cbn [slave_decoders]; intros ds.
  - intros [= <-]. now split.
  - destruct (dict_get n regions) as [region|]; [|discriminate].
    destruct (SoCRegion.decoder region) as [d|e']; cbn [rbind]; [|discriminate].
    destruct (slave_decoders regions rest) as [ds'|e']; cbn [rbind];
      [|discriminate].
    intros [= <-]. destruct (IH ds' eq_refl) as [Hl Hm].
    simpl. now rewrite Hl, Hm.
Qed.

(** X11. In a state reached by successful registration calls, building the
    list of slave decoders at finalization either yields one decoder per
    slave, in the order of the slaves, or fails in one of two ways: with the
    alignment error of [decoder], or with a [KeyError] for a slave whose
    name is in the I/O or Linker table but not in the plain table (a slave
    that was added with an I/O or Linker region). *)
Theorem bus_slaves_outcomes (h : SoCBusHandler.t) :
  reachable h ->
  match bus_slaves h with
  | Ok decoders =>
      List.length decoders = List.length (SoCBusHandler.slaves h) /\
      map snd decoders = map snd (SoCBusHandler.slaves h)
  | Err e =>
      e = UnalignedDecoderRegion \/
      exists name,
        e = KeyError name /\
        dict_mem name (SoCBusHandler.slaves h) = true /\
        dict_mem name (SoCBusHandler.regions h) = false /\
        (dict_mem name (SoCBusHandler.io_regions h) = true \/
         dict_mem name (SoCBusHandler.ld_regions h) = true)
  end.
Proof.
  intros Hreach. unfold bus_slaves.
  destruct (slave_decoders _ _) as [ds|e] eqn:E.
  - now apply slave_decoders_length in E.
  - destruct (slave_decoders_errors _ _ _ E) as (n & Hin & [[-> Hget]|Hdec]).
    + right. exists n. apply In_keys_dict_mem in Hin.
      assert (Hplain : dict_mem n (SoCBusHandler.regions h) = false)
        by (unfold dict_mem; now rewrite Hget).
      repeat split; try assumption.
      destruct (every_slave_region h n Hreach Hin) as [H|H]; [congruence | exact H].
    + destruct Hdec as (region & Hget & Hd).
      destruct (decoder_errors _ _ Hd) as [->|[-> Ho]]; [now left|].
      exfalso. destruct (reachable_regions_wf h Hreach) as [_ Hpl].
      unfold placed in Hpl. rewrite Forall_forall in Hpl.
      exact (Hpl _ (dict_get_In _ _ _ Hget) Ho).
Qed.

Lemma bus_slaves_outcomes_witness :
  match bus_slaves bus_with_slave with
  | Ok decoders =>
      List.length decoders = List.length (SoCBusHandler.slaves bus_with_slave) /\
      map snd decoders = map snd (SoCBusHandler.slaves bus_with_slave)
  | Err e =>
      e = UnalignedDecoderRegion \/
      exists name,
        e = KeyError name /\
        dict_mem name (SoCBusHandler.slaves bus_with_slave) = true /\
        dict_mem name (SoCBusHandler.regions bus_with_slave) = false /\
        (dict_mem name (SoCBusHandler.io_regions bus_with_slave) = true \/
         dict_mem name (SoCBusHandler.ld_regions bus_with_slave) = true)
  end.
Proof. exact (bus_slaves_outcomes bus_with_slave bus_with_slave_reachable). Defined.

(** ** What the decoder claims *)

Lemma bit_length_nonneg n : 0 <= bit_length n.
Proof.
  unfold bit_length. destruct (n =? 0); [lia|].
  pose proof (Z.log2_nonneg (Z.abs n)). lia.
Qed.

Lemma log2_int_nonneg n need_pow2 k : log2_int n need_pow2 = Ok k -> 0 <= k.
Proof.
  unfold log2_int. destruct (n =? 0); [intros [= <-]; lia|].
  destruct (need_pow2 && _); [discriminate|].
  intros [= <-]. apply bit_length_nonneg.
Qed.

Lemma word_address_plus_2GiB a :
  value (word_address 30 (a + 2 ^ 31)) = value (word_address 30 a) + 2 ^ 29.
Proof.
  unfold word_address. cbn [value]. rewrite !Z.shiftr_div_pow2 by lia.
  change (2 ^ 31) with (2 ^ 29 * 2 ^ 2). apply Z.div_add. discriminate.
Qed.

(** The slice [a[k:-1]] of a 30-bit address does not see bit 29. *)
Lemma slice_below_msb_ignores_msb v k :
  0 <= k ->
  slice_below_msb (mkSignal 30 (v + 2 ^ 29)) k = slice_below_msb (mkSignal 30 v) k.
Proof.
  intros Hk. unfold slice_below_msb. cbn [nbits value].
  rewrite (Z.max_l (30 - 1) 0) by lia.
  destruct (Z.le_gt_cases k 29) as [Hle|Hgt].
  - rewrite Z.min_l, Z.max_r by lia.
    rewrite !Z.land_ones, !Z.shiftr_div_pow2 by lia.
    replace (2 ^ 29) with (2 ^ (30 - 1 - k) * 2 ^ k)
      by (rewrite <- Z.pow_add_r by lia; f_equal; lia).
    rewrite Z.div_add by (pose proof (Z.pow_pos_nonneg 2 k); lia).
    rewrite <- (Z.mul_1_l (2 ^ (30 - 1 - k))) at 1. apply Z_mod_plus_full.
  - assert (Hzero : Z.max 0 (30 - 1 - Z.min k 30) = 0) by lia.
    rewrite Hzero. cbn [Z.ones]. now rewrite !Z.land_0_r.
Qed.

(** X12. The decoder does not see address bit 31: whatever the region, the
    predicate returned by [decoder] gives the same answer at the word address
    of a byte address and at the word address 2 GiB above it. *)
Theorem decoder_ignores_address_bit_31 (region : SoCRegion.t) (a : Z) :
  decoder_at region (a + 2 ^ 31) = decoder_at region a.
Proof.
  unfold decoder_at, SoCRegion.decoder.
  destruct (SoCRegion.origin region) as [o|]; [|reflexivity].
  destruct (log2_int (SoCRegion.size region) false) as [k|e]; [|reflexivity].
  cbn [rbind]. destruct (negb _); [reflexivity|]. cbn [rbind].
  destruct (log2_int (Z.shiftr (2 ^ k) 2) true) as [k'|e] eqn:E; [|reflexivity].
  cbn [rbind]. do 2 f_equal.
  pose proof (log2_int_nonneg _ _ _ E) as Hk'.
  pose proof (word_address_plus_2GiB a) as Hw.
  unfold word_address in *. cbn [value] in Hw. rewrite Hw.
  now apply slice_below_msb_ignores_msb.
Qed.

Lemma mod_pow2_multiple q k :
  0 <= k <= 31 -> (q * 2 ^ k) mod 2 ^ 31 = (q mod 2 ^ (31 - k)) * 2 ^ k.
Proof.
  intros Hk.
  pose proof (Z.pow_pos_nonneg 2 k ltac:(lia) ltac:(lia)) as Hpk.
  pose proof (Z.pow_pos_nonneg 2 (31 - k) ltac:(lia) ltac:(lia)) as Hpm.
  replace (2 ^ 31) with (2 ^ (31 - k) * 2 ^ k)
    by (rewrite <- Z.pow_add_r by lia; f_equal; lia).
  rewrite Z.mul_mod_distr_r by lia. reflexivity.
Qed.

(** The window of a region, read modulo [2^31]. *)
Lemma decoder_at_interval region o k a :
  SoCRegion.origin region = Some o ->
  SoCRegion.size region = 2 ^ k ->
  2 <= k <= 31 -> 0 <= o < 2 ^ 32 -> aligned o (2 ^ k) ->
  decoder_at region a = Ok true <->
  o mod 2 ^ 31 <= a mod 2 ^ 31 < o mod 2 ^ 31 + 2 ^ k.
Proof.
  intros Ho Hs Hk Hrange Hal.
  rewrite (decoder_at_window region o k a Ho Hs Hk Hrange Hal).
  pose proof (Z.pow_pos_nonneg 2 k ltac:(lia) ltac:(lia)) as Hpk.
  rewrite <- !mod_pow2_div_pow2 by lia.
  destruct Hal as [q ->].
  rewrite mod_pow2_multiple by lia.
  set (q' := q mod 2 ^ (31 - k)). set (a' := a mod 2 ^ 31).
  rewrite Z.div_mul by lia.
  pose proof (Z.div_mod a' (2 ^ k) ltac:(lia)) as Hdm.
  pose proof (Z.mod_pos_bound a' (2 ^ k) Hpk) as Hb.
  split.
  - intros [= H]. apply Z.eqb_eq in H. rewrite H in Hdm. lia.
  - intros [Hlo Hhi]. do 2 f_equal. apply Z.eqb_eq.
    symmetry. apply (Z.div_unique a' (2 ^ k) q' (a' - q' * 2 ^ k)); lia.
Qed.

(** X13. For a region of the 32-bit address space whose size [2^k] is a
    power of two between the word size and [2^31] and whose origin is a
    multiple of the size, the decoder claims exactly the addresses whose low
    31 bits fall into the window of the region's low 31 bits. *)
Theorem decoder_claims_window_modulo_2GiB (region : SoCRegion.t) (o k a : Z) :
  SoCRegion.origin region = Some o ->
  SoCRegion.size region = 2 ^ k ->
  2 <= k <= 31 -> 0 <= o < 2 ^ 32 -> aligned o (2 ^ k) ->
  (decoder_at region a = Ok true <->
   o mod 2 ^ 31 <= a mod 2 ^ 31 < o mod 2 ^ 31 + 2 ^ k) /\
  (decoder_at region a = Ok true \/ decoder_at region a = Ok false).
Proof.
  intros Ho Hs Hk Hrange Hal.
  split; [now apply decoder_at_interval|].
  rewrite (decoder_at_window region o k a Ho Hs Hk Hrange Hal).
  destruct (_ =? _); auto.
Qed.

Lemma decoder_claims_window_modulo_2GiB_witness :
  decoder_at sram 0x90000004 = Ok true <->
  0x10000000 mod 2 ^ 31 <= 0x90000004 mod 2 ^ 31 < 0x10000000 mod 2 ^ 31 + 2 ^ 13.
Proof.
  apply (decoder_claims_window_modulo_2GiB sram 0x10000000 13 0x90000004);
    [reflexivity | reflexivity | lia | lia | exists 0x8000; reflexivity].
Defined.

(** X14. Two non-overlapping regions that lie in the same half of the
    32-bit address space, each of a power-of-two size of at least a word
    with an origin that is a multiple of its size, are never claimed
    together: no address is claimed by the decoders of both. *)
Theorem decoders_of_separate_regions_are_exclusive
  (r1 r2 : SoCRegion.t) (o1 k1 o2 k2 a : Z) :
  SoCRegion.origin r1 = Some o1 -> SoCRegion.size r1 = 2 ^ k1 ->
  SoCRegion.origin r2 = Some o2 -> SoCRegion.size r2 = 2 ^ k2 ->
  2 <= k1 -> 2 <= k2 ->
  aligned o1 (2 ^ k1) -> aligned o2 (2 ^ k2) ->
  (0 <= o1 /\ o1 + 2 ^ k1 <= 2 ^ 31 /\ 0 <= o2 /\ o2 + 2 ^ k2 <= 2 ^ 31) \/
  (2 ^ 31 <= o1 /\ o1 + 2 ^ k1 <= 2 ^ 32 /\
   2 ^ 31 <= o2 /\ o2 + 2 ^ k2 <= 2 ^ 32) ->
  ~ overlap r1 r2 ->
  ~ (decoder_at r1 a = Ok true /\ decoder_at r2 a = Ok true).
Proof.
  intros Ho1 Hs1 Ho2 Hs2 Hk1 Hk2 Ha1 Ha2 Hhalf Hno [H1 H2].
  assert (Hp1 : 0 < 2 ^ k1) by (apply Z.pow_pos_nonneg; lia).
  assert (Hp2 : 0 < 2 ^ k2) by (apply Z.pow_pos_nonneg; lia).
  assert (Hk1' : k1 <= 31).
  { destruct (Z.le_gt_cases k1 31) as [|Hgt]; [assumption|].
    pose proof (Z.pow_le_mono_r 2 32 k1 ltac:(lia) ltac:(lia)). lia. }
  assert (Hk2' : k2 <= 31).
  { destruct (Z.le_gt_cases k2 31) as [|Hgt]; [assumption|].
    pose proof (Z.pow_le_mono_r 2 32 k2 ltac:(lia) ltac:(lia)). lia. }
  apply (decoder_at_interval r1 o1 k1 a Ho1 Hs1) in H1; try lia; try assumption.
  apply (decoder_at_interval r2 o2 k2 a Ho2 Hs2) in H2; try lia; try assumption.
  apply Hno. exists o1, o2. rewrite Hs1, Hs2.
  repeat (split; [assumption|]).
  destruct Hhalf as [(L1 & U1 & L2 & U2)|(L1 & U1 & L2 & U2)].
  - rewrite (Z.mod_small o1), (Z.mod_small o2) in * by lia. lia.
  - assert (E1 : o1 mod 2 ^ 31 = o1 - 2 ^ 31).
    { symmetry. apply (Z.mod_unique o1 (2 ^ 31) 1); lia. }
    assert (E2 : o2 mod 2 ^ 31 = o2 - 2 ^ 31).
    { symmetry. apply (Z.mod_unique o2 (2 ^ 31) 1); lia. }
    rewrite E1 in H1. rewrite E2 in H2. lia.
Qed.

Lemma decoders_of_separate_regions_are_exclusive_witness :
  ~ (decoder_at rom 0x4000 = Ok true /\ decoder_at sram 0x4000 = Ok true).
Proof.
  apply (decoders_of_separate_regions_are_exclusive rom sram 0 16 0x10000000 13);
    try reflexivity; try lia.
  - exists 0. reflexivity.
  - exists 0x8000. reflexivity.
  - intros (oa & ob & Ha & Hb & H1 & H2). cbn in Ha, Hb, H1, H2.
    injection Ha as <-. injection Hb as <-. lia.
Defined.




(** ** The location table over a sequence of calls *)

Lemma dict_set_fresh {V} k (v : V) d :
  dict_mem k d = false -> dict_set k v d = d ++ [(k, v)].
Proof.
  unfold dict_mem.
  induction d as [|[k' v'] d IH]; simpl; [reflexivity|].
  destruct (String.eqb k k'); [discriminate|].
  intros H. now rewrite IH.
Qed.

Lemma dict_mem_false_keys {V} k (d : dict V) :
  dict_mem k d = false <-> ~ In k (keys d).
Proof.
  split.
  - intros H Hin. apply In_keys_dict_mem in Hin. congruence.
  - intros H. unfold dict_mem. destruct (dict_get k d) eqn:E; [|reflexivity].
    exfalso. apply H. exact (In_keys _ _ _ (dict_get_In _ _ _ E)).
Qed.

(** The two ways a call of [add] returns: the name was registered and is
    reused, or the name was new and is stored with a free slot number. *)
Lemma add_done_cases name n use h r h' :
  SoCLocHandler.add name n use h = Done r h' ->
  (h' = h /\ use = true /\
   dict_get name (SoCLocHandler.locs h) = Some (SoCLocHandler.location r)) \/
  (dict_mem name (SoCLocHandler.locs h) = false /\
   ~ In (SoCLocHandler.location r) (values (SoCLocHandler.locs h)) /\
   0 <= SoCLocHandler.location r <= SoCLocHandler.n_locs h /\
   h' = SoCLocHandler.set_locs
          (fun locs => locs ++ [(name, SoCLocHandler.location r)]) h /\
   match n with
   | Some n => SoCLocHandler.location r = n
   | None => SoCLocHandler.alloc h name = Ok (SoCLocHandler.location r)
   end).
Proof.
  unfold SoCLocHandler.add, bind, get, modify, lift, ret, raise. intros H.
  destruct (dict_mem name (SoCLocHandler.locs h)) eqn:Hm.
  - destruct use; cbn [andb negb] in H.
    + left. destruct (dict_get name (SoCLocHandler.locs h)) as [s|] eqn:Eg;
        [|discriminate].
      injection H as <- <-. now repeat split.
    + discriminate.
  - right. rewrite andb_false_r in H. cbn [negb] in H.
    split; [reflexivity|].
    destruct n as [n|].
    + destruct (SoCLocHandler.loc_used h n) eqn:Hu; [discriminate|].
      destruct (n <? 0) eqn:Hneg; [discriminate|].
      destruct (n >? SoCLocHandler.n_locs h) eqn:Hhigh; [discriminate|].
      injection H as <- <-. cbn. unfold SoCLocHandler.set_locs.
      rewrite (dict_set_fresh name n (SoCLocHandler.locs h) Hm).
      split; [intros Hin; apply loc_used_In in Hin; congruence|].
      split; [lia|]. split; reflexivity.
    + destruct (SoCLocHandler.alloc h name) as [a|e] eqn:Ea; [|discriminate].
      injection H as <- <-. cbn. unfold SoCLocHandler.set_locs.
      rewrite (dict_set_fresh name a (SoCLocHandler.locs h) Hm).
      destruct (alloc_ok _ _ _ Ea) as (Hr & Hfree & _).
      split; [assumption|]. split; [lia|]. split; reflexivity.
Qed.

Lemma values_app {V} (d1 d2 : dict V) : values (d1 ++ d2) = values d1 ++ values d2.
Proof. apply map_app. Qed.

Lemma keys_app {V} (d1 d2 : dict V) : keys (d1 ++ d2) = keys d1 ++ keys d2.
Proof. apply map_app. Qed.

Lemma NoDup_snoc {A} (l : list A) (a : A) : NoDup l -> ~ In a l -> NoDup (l ++ [a]).
Proof.
  intros Hl Ha. apply NoDup_app; [assumption | repeat constructor; simpl; tauto |].
  intros x Hx [<-|[]]. contradiction.
Qed.

(** X16. In every state of a location handler reached from the empty table
    by successful calls of [add]: the names are pairwise distinct, the slot
    numbers are pairwise distinct, and every slot number lies between 0 and
    [n_locs], both included. *)
Theorem loc_table_invariant (h : SoCLocHandler.t) :
  loc_reachable h ->
  NoDup (keys (SoCLocHandler.locs h)) /\
  NoDup (values (SoCLocHandler.locs h)) /\
  Forall (fun n => 0 <= n <= SoCLocHandler.n_locs h)
         (values (SoCLocHandler.locs h)).
Proof.
  induction 1 as [name n_locs|h name n use r h' _ IH Hadd].
  - cbn. repeat split; constructor.
  - destruct IH as (Hk & Hv & Hr).
    destruct (add_done_cases _ _ _ _ _ _ Hadd)
      as [(-> & _)|(Hfresh & Hfree & Hrange & -> & _)]; [tauto|].
    unfold SoCLocHandler.set_locs.
    cbn [SoCLocHandler.locs SoCLocHandler.n_locs].
    rewrite keys_app, values_app. cbn [keys values map fst snd].
    split; [|split].
    + apply NoDup_snoc; [assumption|]. now apply dict_mem_false_keys.
    + now apply NoDup_snoc.
    + apply Forall_app. split; [assumption|]. now repeat constructor.
Qed.

Lemma loc_table_invariant_witness :
  NoDup (keys (SoCLocHandler.locs full_csr)) /\
  NoDup (values (SoCLocHandler.locs full_csr)) /\
  Forall (fun n => 0 <= n <= SoCLocHandler.n_locs full_csr)
         (values (SoCLocHandler.locs full_csr)).
Proof.
  apply (loc_table_invariant full_csr).
  apply (loc_reach_add (SoCLocHandler.init "CSR" 1) "ctrl" None false
           (SoCLocHandler.mkReport "ctrl" true 0));
    [apply loc_reach_init | reflexivity].
Defined.

Lemma In_prefix_numbers n k :
  In n (map Z.of_nat (seq 0 k)) <-> 0 <= n < Z.of_nat k.
Proof.
  rewrite in_map_iff. split.
  - intros (x & <- & Hx). apply in_seq in Hx. lia.
  - intros Hn. exists (Z.to_nat n). split; [lia|]. apply in_seq. lia.
Qed.

Lemma alloc_after_prefix h name k :
  values (SoCLocHandler.locs h) = map Z.of_nat (seq 0 k) ->
  Z.of_nat k < SoCLocHandler.n_locs h ->
  SoCLocHandler.alloc h name = Ok (Z.of_nat k).
Proof.
  intros Hv Hk.
  assert (Hfree : ~ In (Z.of_nat k) (values (SoCLocHandler.locs h)))
    by (rewrite Hv, In_prefix_numbers; lia).
  destruct (alloc_free h name (Z.of_nat k) ltac:(lia) Hfree) as [n Hn].
  destruct (alloc_ok _ _ _ Hn) as (Hr & Hnfree & Hbelow).
  rewrite Hn. f_equal.
  destruct (Z.lt_trichotomy n (Z.of_nat k)) as [Hlt|[->|Hgt]]; [|reflexivity|].
  - exfalso. apply Hnfree. rewrite Hv, In_prefix_numbers. lia.
  - exfalso. apply Hfree. apply Hbelow. lia.
Qed.

Lemma alloc_prefix_full h name k :
  values (SoCLocHandler.locs h) = map Z.of_nat (seq 0 k) ->
  SoCLocHandler.n_locs h <= Z.of_nat k ->
  SoCLocHandler.alloc h name = Err CapacityExhausted.
Proof.
  intros Hv Hk. apply alloc_full. intros m Hm.
  rewrite Hv, In_prefix_numbers. lia.
Qed.

Lemma add_fresh_without_number name use h :
  dict_mem name (SoCLocHandler.locs h) = false ->
  SoCLocHandler.add name None use h
  = match SoCLocHandler.alloc h name with
    | Ok a => Done (SoCLocHandler.mkReport name true a)
                   (SoCLocHandler.mk (SoCLocHandler.name h)
                      (SoCLocHandler.locs h ++ [(name, a)])
                      (SoCLocHandler.n_locs h))
    | Err e => Raised e h
    end.
Proof.
  intros Hm. unfold SoCLocHandler.add, bind, get, modify, lift, ret, raise.
  rewrite Hm, andb_false_r. cbn [negb].
  destruct (SoCLocHandler.alloc h name) as [a|e]; [|reflexivity].
  unfold SoCLocHandler.set_locs. now rewrite (dict_set_fresh name a _ Hm).
Qed.

Lemma prefix_numbers_snoc k :
  map Z.of_nat (seq 0 k) ++ [Z.of_nat k] = map Z.of_nat (seq 0 (S k)).
Proof. rewrite seq_S, map_app. reflexivity. Qed.

Lemma add_each_succeeds nm n_locs names :
  forall locs0 k,
    values locs0 = map Z.of_nat (seq 0 k) ->
    NoDup names ->
    (forall n, In n names -> ~ In n (keys locs0)) ->
    Z.of_nat (k + List.length names) <= n_locs ->
    add_each names (SoCLocHandler.mk nm locs0 n_locs)
    = Done tt (SoCLocHandler.mk nm
                 (locs0 ++ combine names
                             (map Z.of_nat (seq k (List.length names))))
                 n_locs).
Proof.
  induction names as [|name rest IH]; intros locs0 k Hv Hnd Hfresh Hcap.
  - cbn. now rewrite app_nil_r.
  - cbn [add_each]. unfold bind at 1.
    inversion Hnd as [|? ? Hname Hnd']; subst.
    rewrite add_fresh_without_number
      by (apply dict_mem_false_keys; apply Hfresh; now left).
    cbn [SoCLocHandler.locs SoCLocHandler.name SoCLocHandler.n_locs].
    rewrite (alloc_after_prefix _ name k) by (cbn in *; first [assumption | lia]).
    rewrite (IH (locs0 ++ [(name, Z.of_nat k)]) (S k)).
    + cbn [List.length seq map combine]. now rewrite <- app_assoc.
    + rewrite values_app, Hv. apply prefix_numbers_snoc.
    + assumption.
    + intros n Hin. rewrite keys_app, in_app_iff. intros [Hold|[<-|[]]].
      * apply (Hfresh n); [now right | assumption].
      * contradiction.
    + cbn [List.length] in Hcap. lia.
Qed.

Lemma add_each_exhausts nm n_locs names :
  forall locs0 k,
    values locs0 = map Z.of_nat (seq 0 k) ->
    NoDup names ->
    (forall n, In n names -> ~ In n (keys locs0)) ->
    Z.of_nat k <= n_locs < Z.of_nat (k + List.length names) ->
    add_each names (SoCLocHandler.mk nm locs0 n_locs)
    = Raised CapacityExhausted
        (SoCLocHandler.mk nm
           (locs0 ++ combine (firstn (Z.to_nat n_locs - k) names)
                       (map Z.of_nat (seq k (Z.to_nat n_locs - k))))
           n_locs).
Proof.
  induction names as [|name rest IH]; intros locs0 k Hv Hnd Hfresh Hcap.
  - cbn [List.length] in Hcap. lia.
  - cbn [add_each]. unfold bind at 1.
    inversion Hnd as [|? ? Hname Hnd']; subst.
    rewrite add_fresh_without_number
      by (apply dict_mem_false_keys; apply Hfresh; now left).
    cbn [SoCLocHandler.locs SoCLocHandler.name SoCLocHandler.n_locs].
    destruct (Z.lt_ge_cases (Z.of_nat k) n_locs) as [Hlt|Hge].
    + rewrite (alloc_after_prefix _ name k) by (cbn in *; first [assumption | lia]).
      rewrite (IH (locs0 ++ [(name, Z.of_nat k)]) (S k)).
      * replace (Z.to_nat n_locs - k)%nat with (S (Z.to_nat n_locs - S k)) by lia.
        cbn [firstn seq map combine]. now rewrite <- app_assoc.
      * rewrite values_app, Hv. apply prefix_numbers_snoc.
      * assumption.
      * intros n Hin. rewrite keys_app, in_app_iff. intros [Hold|[<-|[]]].
        -- apply (Hfresh n); [now right | assumption].
        -- contradiction.
      * cbn [List.length] in Hcap. lia.
    + rewrite (alloc_prefix_full _ name k) by (cbn in *; first [assumption | lia]).
      replace (Z.to_nat n_locs - k)%nat with 0%nat by lia.
      cbn [firstn seq map combine]. now rewrite app_nil_r.
Qed.

(** X17. Names registered one after the other on an empty table, without
    slot numbers, get the slot numbers 0, 1, 2, ... in the order of the
    calls, as long as there are no more names than [n_locs]. *)
Theorem add_each_numbers_names_in_order (nm : string) (n_locs : Z)
  (names : list string) :
  NoDup names ->
  Z.of_nat (List.length names) <= n_locs ->
  add_each names (SoCLocHandler.init nm n_locs)
  = Done tt (SoCLocHandler.mk nm
               (combine names (map Z.of_nat (seq 0 (List.length names))))
               n_locs).
Proof.
  intros Hnd Hcap.
  apply (add_each_succeeds nm n_locs names [] 0%nat);
    [reflexivity | assumption | intros n _ [] | lia].
Qed.

Lemma add_each_numbers_names_in_order_witness :
  add_each ["ctrl"; "uart"; "timer0"]%string (SoCLocHandler.init "CSR" 32)
  = Done tt (SoCLocHandler.mk "CSR"
               [("ctrl", 0); ("uart", 1); ("timer0", 2)]%string 32).
Proof.
  apply (add_each_numbers_names_in_order "CSR" 32
           ["ctrl"; "uart"; "timer0"]%string).
  - repeat constructor; simpl; intuition discriminate.
  - cbn. lia.
Defined.

(** X18. When more distinct names than [n_locs] are registered one after
    the other on an empty table, without slot numbers, the call for name
    number [n_locs + 1] fails for lack of locations; the table then holds the
    first [n_locs] names with the slot numbers 0 to [n_locs - 1]. *)
Theorem add_each_fails_after_capacity (nm : string) (n_locs : Z)
  (names : list string) :
  NoDup names ->
  0 <= n_locs < Z.of_nat (List.length names) ->
  add_each names (SoCLocHandler.init nm n_locs)
  = Raised CapacityExhausted
      (SoCLocHandler.mk nm
         (combine (firstn (Z.to_nat n_locs) names)
                  (map Z.of_nat (seq 0 (Z.to_nat n_locs))))
         n_locs).
Proof.
  intros Hnd Hcap. unfold SoCLocHandler.init.
  rewrite (add_each_exhausts nm n_locs names [] 0%nat);
    [|reflexivity | assumption | intros n _ [] | lia].
  now rewrite Nat.sub_0_r.
Qed.

Lemma add_each_fails_after_capacity_witness :
  add_each ["ctrl"; "uart"; "timer0"]%string (SoCLocHandler.init "CSR" 2)
  = Raised CapacityExhausted
      (SoCLocHandler.mk "CSR" [("ctrl", 0); ("uart", 1)]%string 2).
Proof.
  apply (add_each_fails_after_capacity "CSR" 2
           ["ctrl"; "uart"; "timer0"]%string).
  - repeat constructor; simpl; intuition discriminate.
  - cbn. lia.
Defined.

(** ** Reserved regions of the bus handler *)

Lemma add_region_other_names name region h h' c n :
  SoCBusHandler.add_region name region h = Done tt h' ->
  n <> name ->
  dict_get n (table_of c h') = dict_get n (table_of c h).
Proof.
  intros H Hne.
  destruct (add_region_done _ _ _ _ H) as [[_ ->]|(_ & _ & a & _ & ->)];
    unfold store_region;
    match goal with
    | |- context [match SoCRegion.cls ?r with _ => _ end] =>
        destruct (SoCRegion.cls r)
    end; destruct c; cbn; try reflexivity; now apply dict_get_set_other.
Qed.

Lemma add_reserved_other_names reserved :
  forall h h' c n,
    SoCBusHandler.add_reserved reserved h = Done tt h' ->
    ~ In n (keys reserved) ->
    dict_get n (table_of c h') = dict_get n (table_of c h).
Proof.
  induction reserved as [|[name r] rest IH]; cbn [SoCBusHandler.add_reserved];
    intros h h' c n H Hn.
  - now injection H as <-.
  - unfold bind in H.
    destruct (SoCBusHandler.add_region name (SoCBusHandler.reserved_region r) h)
      as [[] h1|e h1] eqn:E; [|discriminate].
    simpl in Hn.
    rewrite (IH h1 h' c n H) by tauto.
    apply (add_region_other_names _ _ _ _ _ _ E). intros ->. tauto.
Qed.

Lemma add_reserved_lookup reserved :
  forall h h' name r,
    SoCBusHandler.add_reserved reserved h = Done tt h' ->
    NoDup (keys reserved) ->
    In (name, r) reserved ->
    SoCRegion.origin (SoCBusHandler.reserved_region r) <> None ->
    dict_get name
      (table_of (SoCRegion.cls (SoCBusHandler.reserved_region r)) h')
    = Some (SoCBusHandler.reserved_region r).
Proof.
  induction reserved as [|[name0 r0] rest IH]; cbn [SoCBusHandler.add_reserved];
    intros h h' name r H Hnd Hin Ho; [contradiction|].
  unfold bind in H.
  destruct (SoCBusHandler.add_region name0 (SoCBusHandler.reserved_region r0) h)
    as [[] h1|e h1] eqn:E; [|discriminate].
  inversion Hnd as [|? ? Hfresh Hnd']; subst.
  destruct Hin as [[= -> ->]|Hin].
  - rewrite (add_reserved_other_names rest h1 h' _ name H Hfresh).
    exact (proj1 (add_region_then_lookup_aux _ _ _ _ E (or_introl Ho))).
  - exact (IH h1 h' name r H Hnd' Hin Ho).
Qed.

(** X19. Every reserved region handed to the constructor of the bus handler
    is registered when the constructor returns: its name maps to it in the
    table of its class.  A reserved region given as a bare integer is the
    cached plain region of size [0x1000000] at that origin. *)
Theorem init_registers_reserved_regions (standard : string)
  (data_width address_width : Z) (reserved : dict (Z + SoCRegion.t))
  (h : SoCBusHandler.t) :
  SoCBusHandler.init standard data_width address_width reserved = Done tt h ->
  NoDup (keys reserved) ->
  (forall name region,
      In (name, inr region) reserved ->
      SoCRegion.origin region <> None ->
      dict_get name (table_of (SoCRegion.cls region) h) = Some region) /\
  (forall name origin,
      In (name, inl origin) reserved ->
      dict_get name (SoCBusHandler.regions h)
      = Some (plain (Some origin) 0x1000000 true)).
Proof.
  unfold SoCBusHandler.init. intros Hinit Hnd.
  repeat match type of Hinit with
         | context [if ?b then _ else _] => destruct b; try discriminate
         end.
  split.
  - intros name region Hin Ho.
    exact (add_reserved_lookup _ _ _ name (inr region) Hinit Hnd Hin Ho).
  - intros name origin Hin.
    exact (add_reserved_lookup _ _ _ name (inl origin) Hinit Hnd Hin
             ltac:(discriminate)).
Qed.

Lemma init_registers_reserved_regions_witness :
  dict_get "rom"
    (SoCBusHandler.regions
       (final_state (SoCBusHandler.init "wishbone" 32 32
                       [("rom"%string, inl 0); ("sram"%string, inr sram)])))
  = Some (plain (Some 0) 0x1000000 true).
Proof.
  assert (Hinit : SoCBusHandler.init "wishbone" 32 32
                    [("rom"%string, inl 0); ("sram"%string, inr sram)]
                  = Done tt
                      (final_state
                         (SoCBusHandler.init "wishbone" 32 32
                            [("rom"%string, inl 0); ("sram"%string, inr sram)])))
    by (vm_compute; reflexivity).
  refine (proj2 (init_registers_reserved_regions _ _ _ _ _ Hinit _) "rom"%string 0 _).
  - repeat constructor; simpl; intuition discriminate.
  - now left.
Defined.

(** ** Construction of the CSR and IRQ handlers *)

Lemma add_with_number_ok name n h :
  dict_mem name (SoCLocHandler.locs h) = false ->
  ~ In n (values (SoCLocHandler.locs h)) ->
  0 <= n <= SoCLocHandler.n_locs h ->
  SoCLocHandler.add name (Some n) false h
  = Done (SoCLocHandler.mkReport name false n)
         (SoCLocHandler.mk (SoCLocHandler.name h)
            (SoCLocHandler.locs h ++ [(name, n)]) (SoCLocHandler.n_locs h)).
Proof.
  intros Hm Hfree Hr.
  unfold SoCLocHandler.add, bind, get, modify, lift, ret, raise.
  rewrite Hm. cbn [andb negb].
  destruct (SoCLocHandler.loc_used h n) eqn:Hu;
    [apply loc_used_In in Hu; contradiction|].
  destruct (Z.ltb_spec n 0); [lia|].
  destruct (n >? SoCLocHandler.n_locs h) eqn:Hhigh; [lia|].
  unfold SoCLocHandler.set_locs. now rewrite (dict_set_fresh name n _ Hm).
Qed.

(** The loop over the reserved locations succeeds exactly when it can
    append them all: new names, new numbers, numbers in range. *)
Lemma add_reserved_locs_spec nm n_locs reserved :
  forall locs0 loc,
    add_reserved_locs reserved (SoCLocHandler.mk nm locs0 n_locs) = Succeeded loc
    <->
    loc = SoCLocHandler.mk nm (locs0 ++ reserved) n_locs /\
    NoDup (keys reserved) /\ NoDup (values reserved) /\
    (forall k, In k (keys reserved) -> ~ In k (keys locs0)) /\
    (forall v, In v (values reserved) -> ~ In v (values locs0)) /\
    Forall (fun v => 0 <= v <= n_locs) (values reserved).
Proof.
  induction reserved as [|[name n] rest IH]; intros locs0 loc;
    cbn [add_reserved_locs].
  - rewrite app_nil_r. split.
    + intros [= <-]. repeat split; try constructor; intros ? [].
    + intros [-> _]. reflexivity.
  - split.
    + destruct (SoCLocHandler.add name (Some n) false
                  (SoCLocHandler.mk nm locs0 n_locs)) as [r h'|e h'] eqn:E;
        [|discriminate].
      destruct (add_done_cases _ _ _ _ _ _ E)
        as [(_ & [=] & _)|(Hfresh & Hfree & Hrange & -> & Hloc)].
      cbn in Hfresh, Hfree, Hrange, Hloc. rewrite Hloc in *.
      unfold SoCLocHandler.set_locs. cbn [SoCLocHandler.name SoCLocHandler.locs
                                           SoCLocHandler.n_locs].
      intros H. apply IH in H.
      destruct H as (-> & Hk & Hv & Hkd & Hvd & Hr).
      rewrite <- app_assoc. split; [reflexivity|].
      assert (Hk0 : forall k, In k (keys rest) -> ~ In k (keys locs0) /\ k <> name).
      { intros k Hin. specialize (Hkd k Hin). rewrite keys_app, in_app_iff in Hkd.
        simpl in Hkd. split; [tauto | intros ->; tauto]. }
      assert (Hv0 : forall v, In v (values rest) -> ~ In v (values locs0) /\ v <> n).
      { intros v Hin. specialize (Hvd v Hin). rewrite values_app, in_app_iff in Hvd.
        simpl in Hvd. split; [tauto | intros ->; tauto]. }
      cbn [keys values map fst snd].
      split; [constructor; [intros Hin; now apply (Hk0 name Hin) | exact Hk]|].
      split; [constructor; [intros Hin; now apply (Hv0 n Hin) | exact Hv]|].
      split; [intros k [<-|Hin];
              [now apply dict_mem_false_keys | now apply Hk0]|].
      split; [intros v [<-|Hin]; [assumption | now apply Hv0]|].
      constructor; assumption.
    + intros (-> & Hk & Hv & Hkd & Hvd & Hr).
      cbn [keys values map fst snd] in *.
      inversion Hk as [|? ? Hname Hk']; subst.
      inversion Hv as [|? ? Hn Hv']; subst.
      inversion Hr as [|? ? Hrn Hr']; subst.
      rewrite add_with_number_ok; cbn [SoCLocHandler.locs SoCLocHandler.n_locs
                                           SoCLocHandler.name].
      * apply IH. rewrite <- app_assoc. split; [reflexivity|].
        repeat (split; [assumption|]). split; [|split; [|assumption]].
        -- intros k Hin. rewrite keys_app, in_app_iff. simpl.
           intros [Hold|[<-|[]]]; [|contradiction].
           apply (Hkd k); [now right | assumption].
        -- intros v Hin. rewrite values_app, in_app_iff. simpl.
           intros [Hold|[<-|[]]]; [|contradiction].
           apply (Hvd v); [now right | assumption].
      * apply dict_mem_false_keys. apply Hkd. now left.
      * apply Hvd. now left.
      * assumption.
Qed.

(** X20. The constructor of the IRQ handler succeeds exactly when at most
    32 IRQs are asked for and the reserved IRQs have pairwise distinct names
    and pairwise distinct numbers between 0 and [n_irqs] (both included); the
    handler it returns holds exactly the reserved IRQs, in their order. *)
Theorem irq_handler_construction (n_irqs : Z) (reserved : dict Z)
  (h : SoCLocHandler.t) :
  SoCIRQHandler.init n_irqs reserved = Succeeded h <->
  n_irqs <= 32 /\
  h = SoCLocHandler.mk "IRQ" reserved n_irqs /\
  NoDup (keys reserved) /\ NoDup (values reserved) /\
  Forall (fun n => 0 <= n <= n_irqs) (values reserved).
Proof.
  unfold SoCIRQHandler.init, SoCIRQHandler_init, SoCLocHandler.init.
  destruct (Z.gtb_spec n_irqs 32) as [Hgt|Hle].
  - split; [discriminate | intros [H _]; lia].
  - rewrite (add_reserved_locs_spec "IRQ" n_irqs reserved [] h). cbn [app].
    split.
    + intros (-> & Hk & Hv & _ & _ & Hr). repeat split; assumption.
    + intros (_ & -> & Hk & Hv & Hr).
      repeat split; try assumption; intros ? _ [].
Qed.

Lemma csr_init_succeeded data_width address_width alignment paging reserved h :
  SoCCSRHandler.init data_width address_width alignment paging reserved
  = Succeeded h ->
  (data_width = 8 \/ data_width = 32) /\
  (address_width = 14 \/ address_width = 15) /\
  (alignment = 32 \/ alignment = 64) /\
  paging = 0x800 /\
  exists loc,
    add_reserved_locs reserved
      (SoCLocHandler.init "CSR" (csr_n_locs address_width paging))
    = Succeeded loc /\
    h = SoCCSRHandler.mk loc data_width address_width alignment paging [] [].
Proof.
  unfold SoCCSRHandler.init. intros H.
  destruct (paging =? 0); [discriminate|].
  destruct ((data_width =? 8) || (data_width =? 32)) eqn:Ed; [|discriminate].
  destruct ((address_width =? 14) || (address_width =? 15)) eqn:Ea;
    [|discriminate].
  destruct ((alignment =? 32) || (alignment =? 64)) eqn:El; [|discriminate].
  cbn [negb] in H.
  destruct (data_width >? alignment); [discriminate|].
  destruct (Z.eqb_spec paging 0x800) as [->|]; [|discriminate].
  cbn [negb] in H.
  destruct (add_reserved_locs _ _) as [loc|e] eqn:Er; [|discriminate].
  injection H as <-.
  apply orb_true_iff in Ed, Ea, El. rewrite !Z.eqb_eq in Ed, Ea, El.
  repeat (split; [assumption || reflexivity|]).
  now exists loc.
Qed.

(** X21. A CSR handler that was constructed has a supported configuration:
    data width 8 or 32, address width 14 or 15, alignment 32 or 64, paging
    [0x800].  Its capacity is 32 slots for address width 14 and 64 for 15,
    and capacity times paging is exactly the size [2^(address_width + 2)] of
    the bus region that [add_csr_bridge] gives the CSR bus, so the page of
    slot [n] lies inside that region exactly when [n < n_locs].  Its table
    holds exactly the reserved CSRs, and it has no master and no region. *)
Theorem csr_handler_construction (data_width address_width alignment paging : Z)
  (reserved : dict Z) (h : SoCCSRHandler.t) :
  SoCCSRHandler.init data_width address_width alignment paging reserved
  = Succeeded h ->
  (SoCCSRHandler.data_width h = 8 \/ SoCCSRHandler.data_width h = 32) /\
  (SoCCSRHandler.address_width h = 14 /\
   SoCLocHandler.n_locs (SoCCSRHandler.loc h) = 32 \/
   SoCCSRHandler.address_width h = 15 /\
   SoCLocHandler.n_locs (SoCCSRHandler.loc h) = 64) /\
  (SoCCSRHandler.alignment h = 32 \/ SoCCSRHandler.alignment h = 64) /\
  SoCCSRHandler.paging h = 0x800 /\
  SoCLocHandler.n_locs (SoCCSRHandler.loc h) * SoCCSRHandler.paging h
  = SoC.csr_size h /\
  (forall n, 0 <= n ->
     (SoC.csr_page_offset h n + SoCCSRHandler.paging h <= SoC.csr_size h <->
      n < SoCLocHandler.n_locs (SoCCSRHandler.loc h))) /\
  SoCLocHandler.locs (SoCCSRHandler.loc h) = reserved /\
  SoCCSRHandler.masters h = [] /\ SoCCSRHandler.regions h = [].
Proof.
  intros H.
  destruct (csr_init_succeeded _ _ _ _ _ _ H)
    as (Hd & Ha & Hl & -> & loc & Hloc & ->).
  unfold SoCLocHandler.init in Hloc.
  apply add_reserved_locs_spec in Hloc. destruct Hloc as (-> & _).
  unfold SoC.csr_size, SoC.csr_page_offset.
  cbn [SoCCSRHandler.data_width SoCCSRHandler.address_width SoCCSRHandler.loc
       SoCCSRHandler.alignment SoCCSRHandler.paging SoCCSRHandler.masters
       SoCCSRHandler.regions SoCLocHandler.n_locs SoCLocHandler.locs app].
  split; [assumption|].
  assert (H14 : csr_n_locs 14 2048 = 32) by reflexivity.
  assert (H15 : csr_n_locs 15 2048 = 64) by reflexivity.
  assert (P14 : 2 ^ (14 + 2) = 65536) by reflexivity.
  assert (P15 : 2 ^ (15 + 2) = 131072) by reflexivity.
  destruct Ha as [-> | ->]; rewrite ?H14, ?H15, ?P14, ?P15;
    (split; [auto|]); (split; [assumption|]); (split; [reflexivity|]);
    (split; [reflexivity|]); (split; [|repeat split]);
    intros n Hn; lia.
Qed.

Lemma csr_handler_construction_witness :
  SoCLocHandler.n_locs (SoCCSRHandler.loc default_csr)
  * SoCCSRHandler.paging default_csr = SoC.csr_size default_csr.
Proof.
  destruct (csr_handler_construction 32 14 32 0x800 [] default_csr eq_refl)
    as (_ & _ & _ & _ & H & _).
  exact H.
Defined.

Lemma add_with_number_errors name n h e h' :
  SoCLocHandler.add name (Some n) false h = Raised e h' ->
  e = DuplicateLocationName name \/ e = DuplicateLocationNumber n \/
  e = LocationOutOfRange n \/ e = AttributeError "n_csrs".
Proof.
  unfold SoCLocHandler.add, bind, get. intros H. cbn [andb negb] in H.
  run_method H; injection H as <- _; auto.
Qed.

Lemma add_reserved_locs_errors reserved :
  forall l e,
    add_reserved_locs reserved l = Failed e ->
    exists name n,
      In (name, n) reserved /\
      (e = Base (DuplicateLocationName name) \/
       e = Base (DuplicateLocationNumber n) \/
       e = Base (LocationOutOfRange n) \/
       e = Base (AttributeError "n_csrs")).
Proof.
  induction reserved as [|[name n] rest IH]; intros l e; cbn [add_reserved_locs];
    [discriminate|].
  destruct (SoCLocHandler.add name (Some n) false l) as [r l'|e' l'] eqn:E.
  - intros H. destruct (IH _ _ H) as (name' & n' & Hin & He).
    exists name', n'. split; [now right | assumption].
  - intros [= <-]. exists name, n. split; [now left|].
    destruct (add_with_number_errors _ _ _ _ _ E) as [->|[->|[->| ->]]]; auto.
Qed.

(** X22. The test "alignment should be >= data_width" of the CSR handler's
    constructor can never fail: it is only reached with a data width of 8 or
    32 and an alignment of 32 or 64. *)
Theorem csr_alignment_check_never_fails
  (data_width address_width alignment paging : Z) (reserved : dict Z) :
  SoCCSRHandler.init data_width address_width alignment paging reserved
  <> Failed (Base (UnsupportedConfiguration "alignment >= data_width")).
Proof.
  unfold SoCCSRHandler.init.
  destruct (paging =? 0); [discriminate|].
  destruct ((data_width =? 8) || (data_width =? 32)) eqn:Ed; [|discriminate].
  destruct ((address_width =? 14) || (address_width =? 15)); [|discriminate].
  destruct ((alignment =? 32) || (alignment =? 64)) eqn:El; [|discriminate].
  cbn [negb].
  apply orb_true_iff in Ed, El. rewrite !Z.eqb_eq in Ed, El.
  destruct (Z.gtb_spec data_width alignment) as [Hgt|_]; [lia|].
  destruct (paging =? 0x800); cbn [negb]; [|discriminate].
  destruct (add_reserved_locs _ _) as [loc|e] eqn:Er; [discriminate|].
  intros [= ->].
  destruct (add_reserved_locs_errors _ _ _ Er)
    as (name & n & _ & [H|[H|[H|H]]]); discriminate H.
Qed.

Lemma irq_handler_construction_witness :
  SoCIRQHandler.init 32 [("timer0"%string, 1)]
  = Succeeded (SoCLocHandler.mk "IRQ" [("timer0"%string, 1)] 32).
Proof.
  apply (proj2 (irq_handler_construction 32 [("timer0"%string, 1)] _)).
  split; [lia|]. split; [reflexivity|].
  repeat split; repeat constructor; simpl; try tauto; lia.
Defined.

(** ** Looking a CSR up after it was added *)

(** X23. A name registered with [add] on a CSR handler is found by
    [address_map] at the slot that [add] reported; looking other names up
    gives what it gave before; and a memory is looked up under
    [name + "_" + name_override]. *)
Theorem address_map_finds_added_name (csr csr' : SoCCSRHandler.t)
  (name : string) (n : option Z) (use_loc_if_exists : bool)
  (r : SoCLocHandler.report) :
  SoCCSRHandler.add name n use_loc_if_exists csr = Done r csr' ->
  SoCCSRHandler.address_map name None csr'
  = Succeeded (SoCLocHandler.location r) /\
  (forall other, other <> name ->
     SoCCSRHandler.address_map other None csr'
     = SoCCSRHandler.address_map other None csr) /\
  (forall other name_override,
     SoCCSRHandler.address_map other (Some name_override) csr'
     = SoCCSRHandler.address_map (other ++ "_" ++ name_override) None csr').
Proof.
  unfold SoCCSRHandler.add. intros H.
  destruct (SoCLocHandler.add name n use_loc_if_exists (SoCCSRHandler.loc csr))
    as [r' l|e l] eqn:E; [|discriminate].
  injection H as -> <-.
  unfold SoCCSRHandler.address_map, SoCCSRHandler.set_loc.
  cbn [SoCCSRHandler.loc].
  split; [now rewrite (add_done_registers _ _ _ _ _ _ E)|].
  split; [|reflexivity].
  intros other Hne.
  destruct (add_done_cases _ _ _ _ _ _ E) as [(-> & _)|(Hfresh & _ & _ & -> & _)];
    [reflexivity|].
  unfold SoCLocHandler.set_locs. cbn [SoCLocHandler.locs].
  rewrite <- (dict_set_fresh name (SoCLocHandler.location r) _ Hfresh).
  now rewrite dict_get_set_other.
Qed.

Lemma address_map_finds_added_name_witness :
  SoCCSRHandler.address_map "ctrl" None
    (final_state (SoCCSRHandler.add "ctrl" None true default_csr))
  = Succeeded 0.
Proof.
  assert (Hadd : SoCCSRHandler.add "ctrl" None true default_csr
                 = Done (SoCLocHandler.mkReport "ctrl" true 0)
                     (final_state (SoCCSRHandler.add "ctrl" None true default_csr)))
    by (vm_compute; reflexivity).
  exact (proj1 (address_map_finds_added_name _ _ _ _ _ _ Hadd)).
Defined.

(** ** The constants of the SoC *)

(** X24. A successful [add_constant] appends exactly one constant, under
    the upper-case form of the name, and changes no constant that was there;
    from then on every [add_constant] for a name with the same upper-case
    form fails.  [add_config] does the same under the name [CONFIG_<name>]
    with the value, or, for a string value, under [CONFIG_<name>_<value>]
    with no value. *)
Theorem add_constant_appends_once (upper : string -> string) (name : string)
  (value : SoC.constant_value) (constants constants' : dict SoC.constant_value) :
  SoC.add_constant upper name value constants = Succeeded constants' ->
  dict_mem (upper name) constants = false /\
  constants' = constants ++ [(upper name, value)] /\
  (forall k v, dict_get k constants = Some v -> dict_get k constants' = Some v) /\
  (forall name' value',
      upper name' = upper name ->
      SoC.add_constant upper name' value' constants'
      = Failed (DuplicateConstant (upper name))) /\
  (forall cname v,
      SoC.add_config upper cname (SoC.StrValue v) constants
      = SoC.add_constant upper ("CONFIG_" ++ cname ++ "_" ++ v) SoC.NoValue
          constants) /\
  (forall cname z,
      SoC.add_config upper cname (SoC.IntValue z) constants
      = SoC.add_constant upper ("CONFIG_" ++ cname) (SoC.IntValue z) constants).
Proof.
  unfold SoC.add_constant. intros H.
  destruct (dict_mem (upper name) constants) eqn:Hm; [discriminate|].
  injection H as <-.
  split; [reflexivity|]. split; [now apply dict_set_fresh|].
  split; [|split; [|split]].
  - intros k v Hk. rewrite dict_get_set_other; [assumption|].
    intros ->. unfold dict_mem in Hm. now rewrite Hk in Hm.
  - intros name' value' Hu. rewrite Hu, dict_mem_set_same. reflexivity.
  - reflexivity.
  - reflexivity.
Qed.

Lemma add_constant_appends_once_witness :
  SoC.add_constant ascii_upper "clock_Frequency" (SoC.IntValue 1)
    [("CLOCK_FREQUENCY"%string, SoC.IntValue 100000000)]
  = Failed (DuplicateConstant "CLOCK_FREQUENCY").
Proof.
  refine (proj1 (proj2 (proj2 (proj2
            (add_constant_appends_once ascii_upper "Clock_frequency"
               (SoC.IntValue 100000000) []
               [("CLOCK_FREQUENCY"%string, SoC.IntValue 100000000)] eq_refl))))
            "clock_Frequency"%string (SoC.IntValue 1) eq_refl).
Defined.

(** ** The regions a CPU requires *)

Lemma check_required_regions_spec names bus :
  SoC.check_required_regions names bus = Succeeded tt <->
  forall name, In name names ->
    dict_mem name (SoCBusHandler.regions bus) = true \/
    dict_mem name (SoCBusHandler.ld_regions bus) = true.
Proof.
  assert (Hmem : forall name,
             existsb (String.eqb name)
               (keys (SoCBusHandler.regions bus)
                ++ keys (SoCBusHandler.ld_regions bus)) = true <->
             dict_mem name (SoCBusHandler.regions bus) = true \/
             dict_mem name (SoCBusHandler.ld_regions bus) = true).
  { intros name. rewrite existsb_exists. split.
    - intros (k & Hin & Ek). apply String.eqb_eq in Ek. subst k.
      apply in_app_iff in Hin.
      destruct Hin as [H|H]; [left | right]; now apply In_keys_dict_mem.
    - intros H. exists name. split; [|apply String.eqb_refl].
      apply in_app_iff.
      destruct H as [H|H]; [left | right]; unfold dict_mem in H;
        match type of H with
        | context [dict_get ?n ?d] =>
            destruct (dict_get n d) eqn:E; [|discriminate];
            exact (In_keys _ _ _ (dict_get_In _ _ _ E))
        end. }
  induction names as [|name rest IH]; cbn [SoC.check_required_regions].
  - split; [intros _ ? [] | reflexivity].
  - destruct (existsb _ _) eqn:E; cbn [negb].
    + rewrite IH. split.
      * intros H n [<-|Hin]; [now apply Hmem | now apply H].
      * intros H n Hin. apply H. now right.
    + split; [discriminate|]. intros H.
      specialize (H name (or_introl eq_refl)). apply Hmem in H. congruence.
Qed.

(** X25. The check that a CPU finds its ["rom"] and ["sram"] regions sees
    the plain and the Linker table only, and once it passes it keeps passing:
    no later successful [add_region], [add_master] or [add_slave] makes it
    fail. *)
Theorem cpu_check_stays_satisfied (h h' : SoCBusHandler.t) :
  SoC.cpu_check h = Succeeded tt ->
  (exists name region, SoCBusHandler.add_region name region h = Done tt h') \/
  (exists name master, SoCBusHandler.add_master name master h = Done tt h') \/
  (exists name slave region,
      SoCBusHandler.add_slave name slave region h = Done tt h') ->
  SoC.cpu_check h' = Succeeded tt.
Proof.
  unfold SoC.cpu_check. rewrite !check_required_regions_spec.
  intros Hok Hstep name Hin. specialize (Hok name Hin).
  assert (Hregion : forall n r h0 h1,
             SoCBusHandler.add_region n r h0 = Done tt h1 ->
             dict_mem name (SoCBusHandler.regions h0) = true \/
             dict_mem name (SoCBusHandler.ld_regions h0) = true ->
             dict_mem name (SoCBusHandler.regions h1) = true \/
             dict_mem name (SoCBusHandler.ld_regions h1) = true).
  { intros n r h0 h1 H [Hp|Hl]; [left | right].
    - exact (add_region_keeps_names _ _ _ _ PlainRegion _ H Hp).
    - exact (add_region_keeps_names _ _ _ _ LinkerRegion _ H Hl). }
  destruct Hstep as [(n & r & H)|[(n & m & H)|(n & s & r & H)]].
  - exact (Hregion _ _ _ _ H Hok).
  - destruct (add_master_region_tables _ _ _ _ H) as (E1 & _ & E3).
    now rewrite E1, E3.
  - destruct (add_slave_region_tables _ _ _ _ _ H)
      as [(E1 & _ & E3)|(n' & r' & h1 & Hr & E1 & _ & E3)]; rewrite E1, E3.
    + assumption.
    + exact (Hregion _ _ _ _ Hr Hok).
Qed.

Lemma cpu_check_stays_satisfied_witness :
  SoC.cpu_check
    (final_state (SoCBusHandler.add_master (Some "cpu_bus0"%string)
                    (Some (Native "cpu" 32)) bus_rom_sram))
  = Succeeded tt.
Proof.
  apply (cpu_check_stays_satisfied bus_rom_sram); [reflexivity|].
  right. left. exists (Some "cpu_bus0"%string), (Some (Native "cpu" 32)).
  vm_compute. reflexivity.
Defined.

(** ** Sorting the CSR regions *)

Lemma insert_by_origin_perm e sorted :
  Permutation (SoC.insert_by_origin e sorted) (e :: sorted).
Proof.
  induction sorted as [|e' rest IH]; cbn [SoC.insert_by_origin]; [reflexivity|].
  destruct (_ <=? _); [reflexivity|].
  rewrite IH. apply perm_swap.
Qed.

Lemma insert_by_origin_sorted e sorted :
  StronglySorted origin_le sorted ->
  StronglySorted origin_le (SoC.insert_by_origin e sorted).
Proof.
  induction 1 as [|e' rest Hs IH Hall]; cbn [SoC.insert_by_origin].
  - repeat constructor.
  - destruct (Z.leb_spec (SoCCSRHandler.origin (snd e))
                         (SoCCSRHandler.origin (snd e'))) as [Hle|Hgt].
    + constructor; [now constructor|].
      constructor; [exact Hle|].
      rewrite Forall_forall in *. intros x Hx.
      specialize (Hall x Hx). unfold origin_le in *. lia.
    + constructor; [assumption|].
      rewrite Forall_forall in *. intros x Hx.
      apply (Permutation_in _ (insert_by_origin_perm e rest)) in Hx.
      destruct Hx as [<-|Hx]; [unfold origin_le; lia | now apply Hall].
Qed.

Lemma insert_by_origin_front e sorted :
  Forall (origin_le e) sorted -> SoC.insert_by_origin e sorted = e :: sorted.
Proof.
  intros Hall. destruct sorted as [|e' rest]; cbn [SoC.insert_by_origin];
    [reflexivity|].
  inversion Hall as [|? ? Hle _]; subst. unfold origin_le in Hle.
  destruct (Z.leb_spec (SoCCSRHandler.origin (snd e))
                       (SoCCSRHandler.origin (snd e'))); [reflexivity | lia].
Qed.

(** X26. Sorting the CSR regions at finalization keeps exactly the regions
    that were there (so the names stay distinct), puts them in
    non-decreasing order of origin, and leaves a table that is already in
    that order as it is. *)
Theorem sort_csr_regions_sorts (regions : dict SoCCSRHandler.SoCCSRRegion) :
  Permutation (SoC.sort_csr_regions regions) regions /\
  StronglySorted origin_le (SoC.sort_csr_regions regions) /\
  (NoDup (keys regions) -> NoDup (keys (SoC.sort_csr_regions regions))) /\
  (StronglySorted origin_le regions -> SoC.sort_csr_regions regions = regions).
Proof.
  assert (Hperm : Permutation (SoC.sort_csr_regions regions) regions).
  { induction regions as [|e rest IH]; cbn; [reflexivity|].
    fold (SoC.sort_csr_regions rest).
    rewrite insert_by_origin_perm. now constructor. }
  split; [exact Hperm|]. split; [|split].
  - induction regions as [|e rest IH]; cbn; [constructor|].
    fold (SoC.sort_csr_regions rest).
    apply insert_by_origin_sorted. apply IH.
    clear IH Hperm. induction rest as [|e' rest' IH']; cbn; [reflexivity|].
    fold (SoC.sort_csr_regions rest').
    rewrite insert_by_origin_perm. now constructor.
  - intros Hnd. unfold keys.
    apply (Permutation_NoDup (l := map fst regions)); [|exact Hnd].
    apply Permutation_map. now symmetry.
  - clear Hperm. induction 1 as [|e rest Hs IH Hall]; cbn; [reflexivity|].
    fold (SoC.sort_csr_regions rest). rewrite IH.
    now apply insert_by_origin_front.
Qed.

Lemma sort_csr_regions_sorts_witness :
  StronglySorted origin_le (SoC.sort_csr_regions csr_regions_unsorted) /\
  NoDup (keys (SoC.sort_csr_regions csr_regions_unsorted)).
Proof.
  destruct (sort_csr_regions_sorts csr_regions_unsorted) as (_ & Hs & Hk & _).
  split; [exact Hs|]. apply Hk.
  repeat constructor; simpl; intuition discriminate.
Defined.

(** ** Masters of the CSR handler *)

(** X27. The CSR handler adapts nothing: [add_master] succeeds only for a
    master whose data width is that of the handler and whose name is not
    taken, and then stores that very master under the name, leaving the slot
    table and the regions as they were; a master of another width is
    refused. *)
Theorem csr_add_master_requires_matching_width (csr csr' : SoCCSRHandler.t)
  (name : string) (master : option Interface) :
  SoCCSRHandler.add_master (Some name) master csr = Succeeded csr' ->
  exists m,
    master = Some m /\
    interface_data_width m = SoCCSRHandler.data_width csr /\
    dict_mem name (SoCCSRHandler.masters csr) = false /\
    SoCCSRHandler.masters csr' = SoCCSRHandler.masters csr ++ [(name, m)] /\
    SoCCSRHandler.loc csr' = SoCCSRHandler.loc csr /\
    SoCCSRHandler.regions csr' = SoCCSRHandler.regions csr /\
    (forall other,
        interface_data_width other <> SoCCSRHandler.data_width csr ->
        SoCCSRHandler.add_master (Some name) (Some other) csr
        = Failed (DataWidthMismatch name)).
Proof.
  unfold SoCCSRHandler.add_master. intros H.
  destruct (dict_mem name (SoCCSRHandler.masters csr)) eqn:Hm; [discriminate|].
  destruct master as [m|]; [|discriminate].
  destruct (Z.eqb_spec (interface_data_width m) (SoCCSRHandler.data_width csr))
    as [Hw|Hw]; [|discriminate].
  injection H as <-. exists m. cbn.
  repeat (split; [reflexivity || assumption|]).
  split; [now apply dict_set_fresh|]. repeat (split; [reflexivity|]).
  intros other Ho.
  destruct (Z.eqb_spec (interface_data_width other)
                       (SoCCSRHandler.data_width csr)); [contradiction|].
  reflexivity.
Qed.

Lemma csr_add_master_requires_matching_width_witness :
  SoCCSRHandler.add_master (Some "bridge"%string) (Some (Native "wb2csr" 8))
    default_csr
  = Failed (DataWidthMismatch "bridge").
Proof.
  destruct (csr_add_master_requires_matching_width default_csr
              (SoCCSRHandler.set_masters
                 (dict_set "bridge" (Native "wb2csr" 32)) default_csr)
              "bridge" (Some (Native "wb2csr" 32)) eq_refl)
    as (m & _ & _ & _ & _ & _ & _ & Hother).
  apply Hother. cbn. lia.
Defined.
